(** * DeltaDOM: a shallow embedding of the diffing and patching engine

    The development follows the layout of the JavaScript sources:

    - [JS]                   the language primitives the code relies on:
                             strings, exceptions, [Map], [Set], [sort], loops;
    - [Dom]                  host nodes (text, comment, element) with identity;
    - [VDom]                 description ("virtual") nodes;
    - [NodeUtils]            src/utils/NodeUtils.js;
    - [MediaProcessor]       src/utils/MediaProcessor.js;
    - [NodeComparator]       src/comparison/NodeComparator.js;
    - [StructuralComparator] src/comparison/StructuralComparator.js;
    - [Changes]              the change operations exchanged by differ and
                             patcher;
    - [Differ]               src/core/Differ.js;
    - [Patcher]              src/core/Patcher.js.

    The properties of the engine follow the embedding.

    Strings are sequences of 8-bit characters; the whitespace and letter-case
    primitives are the ASCII fragments of their JavaScript counterparts. *)

From Stdlib Require Import List String Ascii Arith ZArith Lia Bool PeanoNat.
From Stdlib Require Import DecimalString DecimalNat FinFun.
Import ListNotations.

Set Warnings "-register-all".

Local Open Scope string_scope.
Local Open Scope list_scope.
Local Open Scope nat_scope.

(** Strict equality of two strings. *)
Infix "===" := String.eqb (at level 70, no associativity) : string_scope.

(* ================================================================= *)
(** ** JavaScript primitives *)

Module JS.

(** Exceptions the modelled code can raise.  [OutOfFuel] is not a JavaScript
    exception: it marks the exhaustion of the budget given to a loop or a
    recursion of the embedding, which the budgets chosen below rule out. *)
Inductive exn : Type :=
| TypeError (msg : string)
| DOMException (name : string)
| OutOfFuel.

Inductive result (A : Type) : Type :=
| Ok (a : A)
| Throw (e : exn).
Arguments Ok {A} a.
Arguments Throw {A} e.

(** Stateful computations that may throw: the state survives the throw,
    as mutations performed before an exception are not rolled back. *)
Definition M (S A : Type) : Type := S -> result A * S.

Definition ret {S A} (a : A) : M S A := fun s => (Ok a, s).

Definition throw {S A} (e : exn) : M S A := fun s => (Throw e, s).

Definition bind {S A B} (m : M S A) (k : A -> M S B) : M S B :=
  fun s => match m s with
           | (Ok a, s') => k a s'
           | (Throw e, s') => (Throw e, s')
           end.

(** [try { m } catch (e) { h e }]. *)
Definition try_catch {S A} (m : M S A) (h : exn -> M S A) : M S A :=
  fun s => match m s with
           | (Ok a, s') => (Ok a, s')
           | (Throw e, s') => h e s'
           end.

Definition get {S} : M S S := fun s => (Ok s, s).

Definition modify {S} (f : S -> S) : M S unit := fun s => (Ok tt, f s).

Definition rbind {A B} (r : result A) (k : A -> result B) : result B :=
  match r with Ok a => k a | Throw e => Throw e end.

(** Truthiness of a string: only the empty string is falsy. *)
Definition truthy (s : string) : bool := negb (s === "").

(** [a || b] on possibly-absent strings. *)
Definition or_else (a b : option string) : option string :=
  match a with
  | Some s => if truthy s then a else b
  | None => b
  end.

(** Truthiness of a possibly-absent string. *)
Definition truthy_opt (a : option string) : bool :=
  match a with Some s => truthy s | None => false end.

(** [x || ""]. *)
Definition orEmpty (a : option string) : string :=
  match a with Some s => s | None => "" end.

(** Conversion of a possibly-undefined string to a string, as a template
    literal or a DOM method with a string parameter does it. *)
Definition render (a : option string) : string :=
  match a with Some s => s | None => "undefined" end.

(** The error of reading a property of [undefined]. *)
Definition undefinedRead (prop : string) : exn :=
  TypeError ("Cannot read properties of undefined (reading '"
               ++ prop ++ "')")%string.

Definition lower_ascii (c : ascii) : ascii :=
  let n := nat_of_ascii c in
  if (65 <=? n) && (n <=? 90) then ascii_of_nat (n + 32) else c.

Fixpoint toLowerCase (s : string) : string :=
  match s with
  | EmptyString => EmptyString
  | String c s' => String (lower_ascii c) (toLowerCase s')
  end.

Definition upper_ascii (c : ascii) : ascii :=
  let n := nat_of_ascii c in
  if (97 <=? n) && (n <=? 122) then ascii_of_nat (n - 32) else c.

Fixpoint toUpperCase (s : string) : string :=
  match s with
  | EmptyString => EmptyString
  | String c s' => String (upper_ascii c) (toUpperCase s')
  end.

Definition is_space (c : ascii) : bool :=
  let n := nat_of_ascii c in
  ((9 <=? n) && (n <=? 13)) || (n =? 32).

Fixpoint trimStart (s : string) : string :=
  match s with
  | EmptyString => EmptyString
  | String c s' => if is_space c then trimStart s' else s
  end.

Fixpoint trimEnd (s : string) : string :=
  match s with
  | EmptyString => EmptyString
  | String c s' =>
      let r := trimEnd s' in
      if is_space c && (r === "") then EmptyString else String c r
  end.

Definition trim (s : string) : string := trimEnd (trimStart s).

Definition startsWith (s p : string) : bool := String.prefix p s.

Fixpoint includes (s sub : string) : bool :=
  String.prefix sub s ||
  match s with
  | EmptyString => false
  | String _ s' => includes s' sub
  end.

(** Decimal rendering of an index inside a template literal. *)
Definition string_of_nat (n : nat) : string :=
  NilEmpty.string_of_uint (Nat.to_uint n).

Definition option_eqb {A} (eqb : A -> A -> bool) (a b : option A) : bool :=
  match a, b with
  | Some x, Some y => eqb x y
  | None, None => true
  | _, _ => false
  end.

(** [for (i = lo; i < lo + n; i++) if (test i) return i; return false]. *)
Fixpoint firstIndex (test : nat -> bool) (lo n : nat) : option nat :=
  match n with
  | 0 => None
  | S k => if test lo then Some lo else firstIndex test (S lo) k
  end.

(** ** [Map] with insertion order, as iteration order is observable. *)
Section OrderedMap.
Context {V : Type}.

Definition Map := list (string * V).

Fixpoint Map_get (m : Map) (k : string) : option V :=
  match m with
  | [] => None
  | (k', v) :: m' => if k' === k then Some v else Map_get m' k
  end.

Definition Map_has (m : Map) (k : string) : bool :=
  match Map_get m k with Some _ => true | None => false end.

Fixpoint Map_set (m : Map) (k : string) (v : V) : Map :=
  match m with
  | [] => [(k, v)]
  | (k', v') :: m' =>
      if k' === k then (k', v) :: m' else (k', v') :: Map_set m' k v
  end.

Definition Map_keys (m : Map) : list string := map fst m.
End OrderedMap.
Arguments Map V : clear implicits.

(** [new Set(xs)]: the distinct members in first-occurrence order. *)
Fixpoint Set_of (xs : list string) (seen : list string) : list string :=
  match xs with
  | [] => []
  | x :: xs' =>
      if existsb (String.eqb x) seen then Set_of xs' seen
      else x :: Set_of xs' (x :: seen)
  end.

(** [Array.prototype.sort]: the sorted prefix is kept in reverse, and each
    element moves left past the elements that compare greater.  For a
    consistent comparator this is the stable sort the language prescribes;
    for other comparators the language leaves the order to the engine. *)
Fixpoint insertFromRight {A} (cmp : A -> A -> Z) (x : A) (sortedRev : list A)
  : list A :=
  match sortedRev with
  | [] => [x]
  | y :: rest =>
      if (0 <? cmp y x)%Z then y :: insertFromRight cmp x rest
      else x :: y :: rest
  end.

Definition sort {A} (cmp : A -> A -> Z) (l : list A) : list A :=
  rev (fold_left (fun acc x => insertFromRight cmp x acc) l []).

(** [for (x of xs) { try { body x } catch (e) { handler x e } }]. *)
Fixpoint forEachTry {S A} (xs : list A) (body : A -> M S unit)
         (handler : A -> exn -> M S unit) : M S unit :=
  match xs with
  | [] => ret tt
  | x :: xs' =>
      bind (try_catch (body x) (handler x))
           (fun _ => forEachTry xs' body handler)
  end.

(** [for (x of xs) body x], stopping at the first exception. *)
Fixpoint forEach {S A} (xs : list A) (body : A -> M S unit) : M S unit :=
  match xs with
  | [] => ret tt
  | x :: xs' => bind (body x) (fun _ => forEach xs' body)
  end.

End JS.

Import JS.

Declare Scope js_scope.
Delimit Scope js_scope with js.
Notation "x <- m ;; k" := (bind m (fun x => k))
  (at level 100, m at next level, right associativity) : js_scope.
Notation "m ;;; k" := (bind m (fun _ => k))
  (at level 100, right associativity) : js_scope.

(* ================================================================= *)
(** ** Host nodes *)

Module Dom.

(** A host node carries an identity [nid]; two references denote the same
    node exactly when the identities agree.  The kinds are those the
    engine distinguishes through [nodeType]. *)
Inductive node : Type :=
| Text (nid : nat) (data : string)
| Comment (nid : nat) (data : string)
| Element (nid : nat) (tagName : string)
          (attributes : list (string * string)) (childNodes : list node).

Definition ELEMENT_NODE : nat := 1.
Definition TEXT_NODE : nat := 3.
Definition COMMENT_NODE : nat := 8.

Definition nodeType (n : node) : nat :=
  match n with
  | Text _ _ => TEXT_NODE
  | Comment _ _ => COMMENT_NODE
  | Element _ _ _ _ => ELEMENT_NODE
  end.

Definition nid (n : node) : nat :=
  match n with
  | Text i _ | Comment i _ | Element i _ _ _ => i
  end.

(** [tagName] is undefined on nodes that are not elements. *)
Definition tagName (n : node) : option string :=
  match n with
  | Element _ t _ _ => Some t
  | _ => None
  end.

Definition attributes (n : node) : list (string * string) :=
  match n with
  | Element _ _ a _ => a
  | _ => []
  end.

Definition childNodes (n : node) : list node :=
  match n with
  | Element _ _ _ cs => cs
  | _ => []
  end.

(** The text of a text or comment node is its data; the text of an element
    is the concatenation of the text of its non-comment children. *)
Fixpoint textContent (n : node) : string :=
  match n with
  | Text _ d => d
  | Comment _ d => d
  | Element _ _ _ cs =>
      String.concat ""
        (map (fun c => match c with
                       | Comment _ _ => ""
                       | _ => textContent c
                       end) cs)
  end.

Fixpoint lookupAttr (a : list (string * string)) (name : string)
  : option string :=
  match a with
  | [] => None
  | (k, v) :: a' => if k === name then Some v else lookupAttr a' name
  end.

(** [getAttribute?.(name)]: undefined on non-elements, null when absent. *)
Definition getAttribute (n : node) (name : string) : option string :=
  lookupAttr (attributes n) name.

Definition hasAttribute (n : node) (name : string) : bool :=
  match getAttribute n name with Some _ => true | None => false end.

Fixpoint height (n : node) : nat :=
  match n with
  | Element _ _ _ cs => S (fold_right (fun c h => Nat.max (height c) h) 0 cs)
  | _ => 0
  end.

(** All identities in a subtree, in document order. *)
Fixpoint ids (n : node) : list nat :=
  match n with
  | Text i _ | Comment i _ => [i]
  | Element i _ _ cs => i :: flat_map ids cs
  end.

(** The shape of a subtree: everything but the identities. *)
Fixpoint shape (n : node) : node :=
  match n with
  | Text _ d => Text 0 d
  | Comment _ d => Comment 0 d
  | Element _ t a cs => Element 0 t a (map shape cs)
  end.

(** [inclusive_descendant d n]: [d] is [n] or lies below it. *)
Inductive inclusive_descendant (d : node) : node -> Prop :=
| desc_self : inclusive_descendant d d
| desc_child : forall i t a cs c,
    In c cs -> inclusive_descendant d c ->
    inclusive_descendant d (Element i t a cs).

(** Induction over a tree and, with it, over the lists of children. *)
Section NodeInduction.

Variable P : node -> Prop.
Hypothesis HText : forall i d, P (Text i d).
Hypothesis HComment : forall i d, P (Comment i d).
Hypothesis HElement : forall i t a cs, Forall P cs -> P (Element i t a cs).

Fixpoint node_induction (n : node) : P n :=
  match n with
  | Text i d => HText i d
  | Comment i d => HComment i d
  | Element i t a cs =>
      HElement i t a cs
        ((fix all (l : list node) : Forall P l :=
            match l with
            | [] => Forall_nil P
            | c :: l' => Forall_cons c (node_induction c) (all l')
            end) cs)
  end.

End NodeInduction.

(** [cloneNode(true)]: a deep copy built from fresh identities, taken
    from the allocation counter. *)
Fixpoint cloneNode (n : node) (next : nat) : node * nat :=
  match n with
  | Text _ d => (Text next d, S next)
  | Comment _ d => (Comment next d, S next)
  | Element _ t a cs =>
      let fix cloneList (l : list node) (next : nat) : list node * nat :=
        match l with
        | [] => ([], next)
        | c :: l' =>
            let (c', n1) := cloneNode c next in
            let (l'', n2) := cloneList l' n1 in
            (c' :: l'', n2)
        end in
      let (cs', n') := cloneList cs (S next) in
      (Element next t a cs', n')
  end.

(** The list part of [cloneNode], under a name. *)
Fixpoint cloneList (l : list node) (next : nat) : list node * nat :=
  match l with
  | [] => ([], next)
  | c :: l' =>
      let (c', n1) := cloneNode c next in
      let (l'', n2) := cloneList l' n1 in
      (c' :: l'', n2)
  end.

(** *** Editing attribute and child lists *)

(** Attribute mutation on an element value. *)
Fixpoint setAttr (a : list (string * string)) (name value : string)
  : list (string * string) :=
  match a with
  | [] => [(name, value)]
  | (k, v) :: a' =>
      if k === name then (k, value) :: a' else (k, v) :: setAttr a' name value
  end.

Definition removeAttr (a : list (string * string)) (name : string)
  : list (string * string) :=
  filter (fun kv => negb (fst kv === name)) a.

Definition setAttribute (n : node) (name value : string) : node :=
  match n with
  | Element i t a cs => Element i t (setAttr a name value) cs
  | _ => n
  end.

Definition removeAttribute (n : node) (name : string) : node :=
  match n with
  | Element i t a cs => Element i t (removeAttr a name) cs
  | _ => n
  end.

(** XML names over ASCII; bytes above 127 are taken as name characters. *)
Definition nameStartChar (c : ascii) : bool :=
  let n := nat_of_ascii c in
  ((65 <=? n) && (n <=? 90)) || ((97 <=? n) && (n <=? 122)) ||
  (n =? 95) || (n =? 58) || (128 <=? n).

Definition nameChar (c : ascii) : bool :=
  let n := nat_of_ascii c in
  nameStartChar c || ((48 <=? n) && (n <=? 57)) || (n =? 45) || (n =? 46).

Definition validName (s : string) : bool :=
  match s with
  | EmptyString => false
  | String c s' => nameStartChar c && forallb nameChar (list_ascii_of_string s')
  end.

(** [element.setAttribute(name, value)] with its name check. *)
Definition trySetAttribute (el : node) (name value : string) : result node :=
  if validName name then Ok (setAttribute el (toLowerCase name) value)
  else Throw (DOMException "InvalidCharacterError").

Definition withChildNodes (n : node) (cs : list node) : node :=
  match n with
  | Element i t a _ => Element i t a cs
  | _ => n
  end.

Definition sameNode (a b : node) : bool := nid a =? nid b.

(** [children.indexOf(ref)], by identity. *)
Fixpoint indexOf (cs : list node) (ref : node) : option nat :=
  match cs with
  | [] => None
  | c :: cs' =>
      if sameNode c ref then Some 0
      else option_map S (indexOf cs' ref)
  end.

Definition isChild (cs : list node) (ref : node) : bool :=
  existsb (fun c => sameNode c ref) cs.

(** The current value of the node a reference denotes, when it is among
    [cs]; otherwise the referenced node is detached and keeps the value
    the reference carries. *)
Definition deref (cs : list node) (ref : node) : node :=
  match find (fun c => sameNode c ref) cs with
  | Some c => c
  | None => ref
  end.

Definition without (cs : list node) (ref : node) : list node :=
  filter (fun c => negb (sameNode c ref)) cs.

Fixpoint insertBeforeIn (cs : list node) (new ref : node) : list node :=
  match cs with
  | [] => [new]
  | c :: cs' =>
      if sameNode c ref then new :: c :: cs'
      else c :: insertBeforeIn cs' new ref
  end.

Fixpoint replaceIn (cs : list node) (new old : node) : list node :=
  match cs with
  | [] => []
  | c :: cs' =>
      if sameNode c old then new :: cs'
      else c :: replaceIn cs' new old
  end.

(** Rewrites the child a reference denotes. *)
Definition updateIn (cs : list node) (ref : node) (f : node -> node)
  : list node :=
  map (fun c => if sameNode c ref then f c else c) cs.

End Dom.

Import Dom.

(* ================================================================= *)
(** ** Description nodes *)

Module VDom.

(** A description ("virtual") node.  Every field but [type] is optional,
    as in the objects the patcher receives; [children] may hold null
    entries, which the patcher skips. *)
Inductive vnode : Type := VNode {
  type : string;
  nodeType : option nat;
  tagName : option string;
  attributes : option (list (string * string));
  children : option (list (option vnode));
  content : option string;
  _nodeId : option string;
  _immutable : bool
}.

Definition childrenOrEmpty (v : vnode) : list (option vnode) :=
  match children v with Some cs => cs | None => [] end.

Fixpoint height (v : vnode) : nat :=
  match children v with
  | Some cs =>
      S (fold_right
           (fun c h =>
              Nat.max (match c with Some x => height x | None => 0 end) h)
           0 cs)
  | None => 0
  end.

End VDom.

(* ================================================================= *)
(** ** NodeUtils *)

Module NodeUtils.

(** [element.dataset.immutable] reads the attribute [data-immutable];
    [dataset.processedMedia] reads [data-processed-media]. *)
Definition isHeavyElement (element : option node) : bool :=
  match element with
  | None => false
  | Some el =>
      match el with
      | Element _ tag _ _ =>
          let tagName := toLowerCase tag in
          if tagName === "iframe" then true
          else if tagName === "video" then true
          else if (tagName === "img") &&
                  match getAttribute el "src" with
                  | Some src =>
                      truthy src &&
                      (startsWith src "blob:" || startsWith src "data:")
                  | None => false
                  end then true
          else if option_eqb String.eqb
                    (getAttribute el "data-immutable") (Some "true")
               then true
          else if option_eqb String.eqb
                    (getAttribute el "data-processed-media") (Some "true")
               then true
          else false
      | _ => false
      end
  end.

Definition mediaTag (n : node) : bool :=
  match Dom.tagName n with
  | Some t =>
      let tagName := toLowerCase t in
      (tagName === "img") || (tagName === "video") || (tagName === "iframe")
  | None => false
  end.

Definition hasTag (tag : string) (n : node) : bool :=
  match Dom.tagName n with
  | Some t => toLowerCase t === tag
  | None => false
  end.

(** Some proper descendant satisfies [p]. *)
Fixpoint anyDescendant (p : node -> bool) (n : node) : bool :=
  match n with
  | Element _ _ _ cs => existsb (fun c => p c || anyDescendant p c) cs
  | _ => false
  end.

(** [node.querySelector("pre code")]: a [code] descendant lying below a
    [pre]; [underPre] tells whether the inspected node itself lies at or
    below a [pre]. *)
Fixpoint hasCodeUnderPre (underPre : bool) (n : node) : bool :=
  match n with
  | Element _ _ _ cs =>
      existsb (fun c => (underPre && hasTag "code" c) ||
                        hasCodeUnderPre (underPre || hasTag "pre" c) c) cs
  | _ => false
  end.

(** The node is inspected as the root of its tree: a [pre] above it lies
    outside the tree the store holds and is not seen. *)
Definition needsMediaProcessing (n : node) : bool :=
  if negb (Dom.nodeType n =? ELEMENT_NODE) then false
  else if mediaTag n then true
  else if anyDescendant mediaTag n then true
  else if hasCodeUnderPre (hasTag "pre" n) n then true
  else false.

Definition isLocalFilePath (url : string) : bool :=
  if startsWith url "file://" then true
  else if negb (startsWith url "http") &&
          negb (startsWith url "blob:") &&
          negb (startsWith url "data:") &&
          negb (startsWith url "//") &&
          negb (startsWith url "#") then true
  else false.

(** The first loop of [updateElementAttributes] walks the live attribute
    list by position while removing from it, so the attribute following a
    removed one is not visited.  The list never grows, so the position is
    past its end after as many steps as it had entries at the start. *)
Fixpoint removeStale (attrs : list (string * string)) (i fuel : nat)
         (newElement : node) : list (string * string) :=
  match fuel with
  | 0 => attrs
  | S fuel' =>
      match nth_error attrs i with
      | None => attrs
      | Some (name, _) =>
          if negb (hasAttribute newElement name) then
            removeStale (removeAttr attrs name) (S i) fuel' newElement
          else removeStale attrs (S i) fuel' newElement
      end
  end.

(** The second loop of [updateElementAttributes], on the old element as
    the first loop left it.  [setAttribute] refuses a name that is not a
    valid name; the exception ends the loop, and the attributes set before
    it stay set. *)
Fixpoint syncAttributes (newAttributes : list (string * string))
         (oldElement : node) : result unit * node :=
  match newAttributes with
  | [] => (Ok tt, oldElement)
  | (name, value) :: rest =>
      if negb (option_eqb String.eqb (getAttribute oldElement name)
                          (Some value)) then
        match trySetAttribute oldElement name value with
        | Ok updated => syncAttributes rest updated
        | Throw e => (Throw e, oldElement)
        end
      else syncAttributes rest oldElement
  end.

(** The old element is updated in place: the call is given by its outcome
    and by the old element as it leaves it, also when it throws. *)
Definition updateElementAttributes (oldElement : node)
           (newElement : option node) : result unit * node :=
  if negb (Dom.nodeType oldElement =? ELEMENT_NODE) then (Ok tt, oldElement)
  else
    match newElement with
    | None => (Throw (undefinedRead "nodeType"), oldElement)
    | Some new =>
        if negb (Dom.nodeType new =? ELEMENT_NODE) then (Ok tt, oldElement)
        else if isHeavyElement (Some oldElement) then (Ok tt, oldElement)
        else
          let kept :=
            removeStale (Dom.attributes oldElement) 0
                        (List.length (Dom.attributes oldElement)) new in
          syncAttributes (Dom.attributes new)
                         (match oldElement with
                          | Element i t _ cs => Element i t kept cs
                          | _ => oldElement
                          end)
    end.

End NodeUtils.

(* ================================================================= *)
(** ** MediaProcessor *)

Module MediaProcessor.

Section Callback.

(** The caller-supplied callback, if any, as the change it makes to the
    image element it is handed. *)
Variable processMediaElement : option (node -> node).

Definition reprocess (img : node) : node :=
  let marked := setAttribute img "data-force-reprocess" "true" in
  match processMediaElement with
  | Some callback => callback marked
  | None => marked
  end.

Definition processImage (img : node) : node :=
  match getAttribute img "src" with
  | Some src =>
      if truthy src && negb (startsWith src "blob:") &&
         negb (startsWith src "data:") && negb (startsWith src "http")
      then reprocess img
      else if truthy src && NodeUtils.isLocalFilePath src
      then reprocess img
      else img
  | None => img
  end.

(** Every proper descendant matching the selector [img] is processed
    ([querySelectorAll("img")]). *)
Fixpoint processDescendants (n : node) : node :=
  match n with
  | Element i t a cs =>
      Element i t a
        (map (fun c =>
                let c' := processDescendants c in
                if NodeUtils.hasTag "img" c then processImage c' else c')
             cs)
  | _ => n
  end.

Definition processNewNodeMedia (n : node) : node :=
  if negb (Dom.nodeType n =? ELEMENT_NODE) then n
  else if option_eqb String.eqb (Dom.tagName n) (Some "IMG")
  then processImage n
  else processDescendants n.

End Callback.

End MediaProcessor.

(* ================================================================= *)
(** ** NodeComparator *)

Module NodeComparator.

(** *** Description nodes *)

Section Virtual.

Import VDom.

Definition attr (v : vnode) (name : string) : result (option string) :=
  match attributes v with
  | Some a => Ok (lookupAttr a name)
  | None => Throw (undefinedRead name)
  end.

Definition keyAttrs : list string :=
  ["src"; "href"; "data-entity"; "id"; "class"].

Fixpoint sameKeyAttrs (v1 v2 : vnode) (names : list string) : result bool :=
  match names with
  | [] => Ok true
  | a :: names' =>
      rbind (attr v1 a) (fun x =>
      rbind (attr v2 a) (fun y =>
      if negb (option_eqb String.eqb x y) then Ok false
      else sameKeyAttrs v1 v2 names'))
  end.

Definition nodesAreEquivalent (vNode1 vNode2 : option vnode) : result bool :=
  match vNode1, vNode2 with
  | Some v1, Some v2 =>
      if negb (option_eqb Nat.eqb (nodeType v1) (nodeType v2)) then Ok false
      else if type v1 === "text" then
        let content1 := content v1 in
        let content2 := content v2 in
        if option_eqb String.eqb content1 content2 then Ok true
        else
          match content1, content2 with
          | Some c1, Some c2 =>
              let trimmed1 := trim c1 in
              let trimmed2 := trim c2 in
              Ok (negb (truthy trimmed1) && negb (truthy trimmed2))
          | _, _ => Throw (undefinedRead "trim")
          end
      else if type v1 === "element" then
        if negb (option_eqb String.eqb (tagName v1) (tagName v2)) then
          Ok false
        else if _immutable v1 || _immutable v2 then
          rbind (attr v1 "data-block-position") (fun p1 =>
          rbind (attr v2 "data-block-position") (fun p2 =>
          let position1 := orEmpty p1 in
          let position2 := orEmpty p2 in
          if truthy position1 && truthy position2 &&
             (position1 === position2) &&
             option_eqb String.eqb (tagName v1) (tagName v2)
          then Ok true
          else
            rbind (attr v1 "data-raw") (fun r1 =>
            rbind (attr v2 "data-raw") (fun r2 =>
            rbind (attr v1 "data-language") (fun l1 =>
            rbind (attr v2 "data-language") (fun l2 =>
            Ok ((orEmpty r1 === orEmpty r2) &&
                (orEmpty l1 === orEmpty l2) &&
                option_eqb String.eqb (tagName v1) (tagName v2))))))))
        else if truthy_opt (_nodeId v1) && truthy_opt (_nodeId v2) then
          Ok (option_eqb String.eqb (_nodeId v1) (_nodeId v2))
        else sameKeyAttrs v1 v2 keyAttrs
      else Ok false
  | _, _ => Ok false
  end.

Definition selfClosingElements : list string := ["br"; "hr"].

Definition containerElements : list string :=
  ["p"; "div"; "span"; "strong"; "em"; "u"; "i"; "b"].

(** [list.includes(tag)] for a possibly-undefined tag. *)
Definition listed (l : list string) (tag : option string) : bool :=
  match tag with
  | Some t => existsb (String.eqb t) l
  | None => false
  end.

Definition isSimpleElementMatch (vNode1 vNode2 : option vnode)
  : result bool :=
  match vNode1, vNode2 with
  | Some v1, Some v2 =>
      if (type v1 === "text") && (type v2 === "text") then
        match content v1, content v2 with
        | Some c1, Some c2 =>
            let content1 := trim c1 in
            let content2 := trim c2 in
            if negb (truthy content1) && negb (truthy content2) then Ok true
            else if truthy content1 && truthy content2 then
              let isSingleChar1 := String.length content1 =? 1 in
              let isSingleChar2 := String.length content2 =? 1 in
              Ok (Bool.eqb isSingleChar1 isSingleChar2)
            else Ok false
        | _, _ => Throw (undefinedRead "trim")
        end
      else if (type v1 === "element") && (type v2 === "element") then
        if listed selfClosingElements (tagName v1) &&
           listed selfClosingElements (tagName v2) &&
           option_eqb String.eqb (tagName v1) (tagName v2)
        then Ok true
        else if listed containerElements (tagName v1) &&
                listed containerElements (tagName v2) &&
                option_eqb String.eqb (tagName v1) (tagName v2)
        then
          let children1 := childrenOrEmpty v1 in
          let children2 := childrenOrEmpty v2 in
          if (List.length children1 =? 0) && (List.length children2 =? 0)
          then Ok true
          else if (0 <? List.length children1) &&
                  (0 <? List.length children2) &&
                  (Z.abs (Z.of_nat (List.length children1)
                          - Z.of_nat (List.length children2)) <=? 1)%Z
          then Ok true
          else Ok false
        else Ok false
      else Ok false
  | _, _ => Ok false
  end.

End Virtual.

(** *** Host nodes *)

(** [getAttribute?.("src") || getAttribute?.("data-original-src")]. *)
Definition resourceOf (n : node) : option string :=
  or_else (getAttribute n "src") (getAttribute n "data-original-src").

Definition childrenMatch (oldChild newChild : option node)
           (isHeavyElement : option node -> bool) : bool :=
  match oldChild, newChild with
  | Some o, Some n =>
      if isHeavyElement oldChild && isHeavyElement newChild then
        let oldSrc := resourceOf o in
        let newSrc := resourceOf n in
        truthy_opt oldSrc && truthy_opt newSrc &&
        option_eqb String.eqb oldSrc newSrc
      else if nodeType o =? nodeType n then
        if nodeType o =? TEXT_NODE then textContent o === textContent n
        else if (nodeType o =? ELEMENT_NODE) &&
                option_eqb String.eqb (tagName o) (tagName n) then
          trim (textContent o) === trim (textContent n)
        else false
      else false
  | _, _ => false
  end.

Record attrChange : Type := mkAttrChange {
  name : string;
  oldValue : option string;
  newValue : option string
}.

Definition collect (attrs : list (string * string)) : Map string :=
  fold_left (fun m kv => Map_set m (fst kv) (snd kv)) attrs [].

Definition compareAttributes (oldElement newElement : node)
  : list attrChange :=
  let oldAttrs := collect (attributes oldElement) in
  let newAttrs := collect (attributes newElement) in
  let allKeys := Set_of (Map_keys oldAttrs ++ Map_keys newAttrs) [] in
  flat_map (fun key =>
              let oldValue := Map_get oldAttrs key in
              let newValue := Map_get newAttrs key in
              if option_eqb String.eqb oldValue newValue then []
              else [mkAttrChange key oldValue newValue])
           allKeys.

End NodeComparator.

(* ================================================================= *)
(** ** StructuralComparator *)

Module StructuralComparator.

Inductive changeType : Type := insertion | deletion.

Record structuralChange : Type := mkChange {
  type : changeType;
  position : nat;
  count : nat
}.

Definition childrenMatch (oldChild newChild : option node) : bool :=
  NodeComparator.childrenMatch oldChild newChild NodeUtils.isHeavyElement.

Definition testInsertionAtPosition (oldChildren newChildren : list node)
           (insertPos insertionCount : nat) : bool :=
  forallb (fun i => childrenMatch (nth_error oldChildren i)
                                  (nth_error newChildren i))
          (seq 0 insertPos)
  &&
  forallb (fun i => childrenMatch (nth_error oldChildren i)
                      (nth_error newChildren (i + insertionCount)))
          (seq insertPos (List.length oldChildren - insertPos)).

Definition testDeletionAtPosition (oldChildren newChildren : list node)
           (deletePos deletionCount : nat) : bool :=
  forallb (fun i => childrenMatch (nth_error oldChildren i)
                                  (nth_error newChildren i))
          (seq 0 deletePos)
  &&
  forallb (fun i => childrenMatch
                      (nth_error oldChildren (i + deletionCount))
                      (nth_error newChildren i))
          (seq deletePos (List.length newChildren - deletePos)).

Definition checkSimpleInsertionAnywhere (oldChildren newChildren : list node)
  : option structuralChange :=
  match firstIndex
          (fun insertPos =>
             testInsertionAtPosition oldChildren newChildren insertPos 1)
          0 (S (List.length oldChildren)) with
  | Some insertPos => Some (mkChange insertion insertPos 1)
  | None => None
  end.

Definition checkMultipleInsertionsAnywhere
           (oldChildren newChildren : list node) (insertionCount : nat)
  : option structuralChange :=
  match firstIndex
          (fun insertPos =>
             testInsertionAtPosition oldChildren newChildren
                                     insertPos insertionCount)
          0 (S (List.length oldChildren)) with
  | Some insertPos => Some (mkChange insertion insertPos insertionCount)
  | None => None
  end.

Definition checkSimpleDeletionAnywhere (oldChildren newChildren : list node)
  : option structuralChange :=
  match firstIndex
          (fun deletePos =>
             testDeletionAtPosition oldChildren newChildren deletePos 1)
          0 (S (List.length newChildren)) with
  | Some deletePos => Some (mkChange deletion deletePos 1)
  | None => None
  end.

Definition checkMultipleDeletionsAnywhere
           (oldChildren newChildren : list node) (deletionCount : nat)
  : option structuralChange :=
  match firstIndex
          (fun deletePos =>
             testDeletionAtPosition oldChildren newChildren
                                    deletePos deletionCount)
          0 (S (List.length newChildren)) with
  | Some deletePos => Some (mkChange deletion deletePos deletionCount)
  | None => None
  end.

Definition isSimpleInsertionOrDeletion (oldChildren newChildren : list node)
  : option structuralChange :=
  if List.length newChildren =? List.length oldChildren + 1 then
    checkSimpleInsertionAnywhere oldChildren newChildren
  else if List.length oldChildren =? List.length newChildren + 1 then
    checkSimpleDeletionAnywhere oldChildren newChildren
  else if List.length oldChildren <? List.length newChildren then
    let insertionCount := List.length newChildren - List.length oldChildren in
    if insertionCount <=? 5 then
      checkMultipleInsertionsAnywhere oldChildren newChildren insertionCount
    else None
  else if List.length newChildren <? List.length oldChildren then
    let deletionCount := List.length oldChildren - List.length newChildren in
    if deletionCount <=? 5 then
      checkMultipleDeletionsAnywhere oldChildren newChildren deletionCount
    else None
  else None.

(** One iteration of the loop that counts significant differences:
    [true] when the pair at an index is counted. *)
Definition significantDifference (oldChild newChild : node) : bool :=
  if negb (nodeType oldChild =? nodeType newChild) then true
  else if (nodeType oldChild =? ELEMENT_NODE) &&
          (nodeType newChild =? ELEMENT_NODE) &&
          negb (option_eqb String.eqb (tagName oldChild) (tagName newChild))
  then true
  else if (nodeType oldChild =? TEXT_NODE) &&
          (nodeType newChild =? TEXT_NODE) then
    let oldText := trim (textContent oldChild) in
    let newText := trim (textContent newChild) in
    if truthy oldText && truthy newText && negb (oldText === newText) then
      negb (includes oldText (substring 0 10 newText)) &&
      negb (includes newText (substring 0 10 oldText))
    else false
  else false.

(** The threshold [differences > minLength * 0.8] is evaluated over the
    integers as [5 * differences > 4 * minLength]; the two agree for every
    array length. *)
Definition shouldReplaceAllChildren (oldChildren newChildren : list node)
  : bool :=
  let lengthDiff :=
    Z.abs (Z.of_nat (List.length oldChildren)
           - Z.of_nat (List.length newChildren)) in
  if (10 <? lengthDiff)%Z then true
  else
    let oldHeavyCount :=
      List.length (filter (fun child => NodeUtils.isHeavyElement (Some child))
                     oldChildren) in
    let newHeavyCount :=
      List.length (filter (fun child => NodeUtils.isHeavyElement (Some child))
                     newChildren) in
    if (0 <? oldHeavyCount) || (0 <? newHeavyCount) then false
    else
      let minLength :=
        Nat.min (List.length oldChildren) (List.length newChildren) in
      let differences :=
        List.length
          (filter (fun i =>
                     match nth_error oldChildren i, nth_error newChildren i
                     with
                     | Some oldChild, Some newChild =>
                         significantDifference oldChild newChild
                     | _, _ => false
                     end)
                  (seq 0 minLength)) in
      4 * minLength <? 5 * differences.

End StructuralComparator.

(* ================================================================= *)
(** ** Change operations *)

Module Changes.

Import NodeComparator.

(** A change operation refers to existing nodes of the compared trees
    ([element], [oldElement], [parent], and the [child] of a removal) and
    carries detached nodes to be put in place ([newElement], the [child]
    of an insertion, the [element] of an [insert]).  [other] stands for an
    operation whose [type] is none of the seven known ones. *)
Inductive change : Type :=
| insert (path : string) (element : node)
| remove (path : string) (element : node)
| replace (path : string) (oldElement newElement : node)
| updateText (path : string) (element : node)
             (oldContent newContent : string)
| updateAttributes (path : string) (element : node)
                   (changes : list attrChange)
| insertChild (path : string) (parent child : node) (index : nat)
| removeChild (path : string) (parent child : node) (index : nat)
| other (type : string).

Definition type (c : change) : string :=
  match c with
  | insert _ _ => "insert"
  | remove _ _ => "remove"
  | replace _ _ _ => "replace"
  | updateText _ _ _ _ => "updateText"
  | updateAttributes _ _ _ => "updateAttributes"
  | insertChild _ _ _ _ => "insertChild"
  | removeChild _ _ _ _ => "removeChild"
  | other t => t
  end.

End Changes.

Import Changes.

(* ================================================================= *)
(** ** Differ *)

Module Differ.

Local Open Scope js_scope.

(** The differ allocates (through [cloneNode]) and may throw; its state is
    the allocation counter. *)
Definition Diff (A : Type) : Type := M nat A.

Definition clone (n : node) : Diff node :=
  fun next => let (c, next') := cloneNode n next in (Ok c, next').

Definition lift {A} (r : result A) : Diff A := fun s => (r, s).

(** [for (x of xs) changes.push(...body(x))]. *)
Fixpoint pushEach {A} (xs : list A) (body : A -> Diff (list change))
  : Diff (list change) :=
  match xs with
  | [] => ret []
  | x :: xs' =>
      cs <- body x ;;
      ds <- pushEach xs' body ;;
      ret (cs ++ ds)
  end.

Definition shouldSkipComparison (oldChild newChild : option node)
  : result bool :=
  let sameHeavy :=
    if NodeUtils.isHeavyElement oldChild && NodeUtils.isHeavyElement newChild
    then
      match oldChild, newChild with
      | Some o, Some n =>
          let oldSrc := NodeComparator.resourceOf o in
          let newSrc := NodeComparator.resourceOf n in
          truthy_opt oldSrc && truthy_opt newSrc &&
          option_eqb String.eqb oldSrc newSrc
      | _, _ => false
      end
    else false in
  if sameHeavy then Ok true
  else
    match oldChild, newChild with
    | Some o, Some n =>
        Ok ((nodeType o =? nodeType n) &&
            option_eqb String.eqb (tagName o) (tagName n) &&
            (trim (textContent o) === trim (textContent n)))
    | _, _ => Throw (undefinedRead "nodeType")
    end.

Definition childPath (path : string) (i : nat) : string :=
  (path ++ "[" ++ string_of_nat i ++ "]")%string.

Section Recursive.

(** The recursive reference [this.compareElements]. *)
Variable this_compareElements :
  option node -> option node -> string -> Diff (list change).

Definition compareUnlessSkipped (oldChild newChild : option node)
           (path : string) : Diff (list change) :=
  skip <- lift (shouldSkipComparison oldChild newChild) ;;
  if negb skip then this_compareElements oldChild newChild path
  else ret [].

Definition compareRemainingChildren
           (oldChildren newChildren : list node) (path : string)
           (changeType : StructuralComparator.changeType)
           (changePos changeCount : nat) : Diff (list change) :=
  match changeType with
  | StructuralComparator.insertion =>
      before <- pushEach (seq 0 changePos)
        (fun i => compareUnlessSkipped (nth_error oldChildren i)
                                       (nth_error newChildren i)
                                       (childPath path i)) ;;
      after <- pushEach
        (seq changePos (List.length oldChildren - changePos))
        (fun i => compareUnlessSkipped
                    (nth_error oldChildren i)
                    (nth_error newChildren (i + changeCount))
                    (childPath path (i + changeCount))) ;;
      ret (before ++ after)
  | StructuralComparator.deletion =>
      before <- pushEach (seq 0 changePos)
        (fun i => compareUnlessSkipped (nth_error oldChildren i)
                                       (nth_error newChildren i)
                                       (childPath path i)) ;;
      after <- pushEach
        (seq changePos (List.length newChildren - changePos))
        (fun i => compareUnlessSkipped
                    (nth_error oldChildren (i + changeCount))
                    (nth_error newChildren i)
                    (childPath path i)) ;;
      ret (before ++ after)
  end.

Definition handleStructuralChange
           (oldChildren newChildren : list node) (parent : node)
           (path : string)
           (changeInfo : StructuralComparator.structuralChange)
  : Diff (list change) :=
  match StructuralComparator.type changeInfo with
  | StructuralComparator.insertion =>
      let insertPos := StructuralComparator.position changeInfo in
      let count := StructuralComparator.count changeInfo in
      inserted <- pushEach (seq 0 count)
        (fun i =>
           match nth_error newChildren (insertPos + i) with
           | Some newChild =>
               c <- clone newChild ;;
               ret [insertChild path parent c (insertPos + i)]
           | None => throw (undefinedRead "cloneNode")
           end) ;;
      rest <- compareRemainingChildren oldChildren newChildren path
                StructuralComparator.insertion insertPos count ;;
      ret (inserted ++ rest)
  | StructuralComparator.deletion =>
      let deletePos := StructuralComparator.position changeInfo in
      let count := StructuralComparator.count changeInfo in
      (* Detection reports spans inside the old list; a position outside
         it has no child to name and contributes no removal. *)
      let removed :=
        flat_map (fun i =>
                    match nth_error oldChildren (deletePos + i) with
                    | Some oldChild =>
                        [removeChild path parent oldChild (deletePos + i)]
                    | None => []
                    end)
                 (seq 0 count) in
      rest <- compareRemainingChildren oldChildren newChildren path
                StructuralComparator.deletion deletePos count ;;
      ret (removed ++ rest)
  end.

(** The branch of [compareChildren] that removes every old child, highest
    index first, and then adds a copy of every new child. *)
Definition replaceAllChildren (oldElement : node)
           (oldChildren newChildren : list node) (path : string)
  : Diff (list change) :=
  let removed :=
    flat_map (fun i =>
                match nth_error oldChildren i with
                | Some oldChild => [removeChild path oldElement oldChild i]
                | None => []
                end)
             (rev (seq 0 (List.length oldChildren))) in
  added <- pushEach (seq 0 (List.length newChildren))
    (fun i =>
       match nth_error newChildren i with
       | Some newChild =>
           c <- clone newChild ;;
           ret [insertChild path oldElement c i]
       | None => ret []
       end) ;;
  ret (removed ++ added).

(** The branch of [compareChildren] that compares the children index by
    index. *)
Definition compareIncrementally (oldElement : node)
           (oldChildren newChildren : list node) (path : string)
  : Diff (list change) :=
  let maxLength :=
    Nat.max (List.length oldChildren) (List.length newChildren) in
  pushEach (seq 0 maxLength)
    (fun i =>
       match nth_error oldChildren i, nth_error newChildren i with
       | None, Some newChild =>
           c <- clone newChild ;;
           ret [insertChild path oldElement c i]
       | Some oldChild, None =>
           ret [removeChild path oldElement oldChild i]
       | Some oldChild, Some newChild =>
           this_compareElements (Some oldChild) (Some newChild)
                                (childPath path i)
       | None, None => ret []
       end).

Definition compareChildren (oldElement newElement : node) (path : string)
  : Diff (list change) :=
  let oldChildren := childNodes oldElement in
  let newChildren := childNodes newElement in
  match StructuralComparator.isSimpleInsertionOrDeletion
          oldChildren newChildren with
  | Some structuralChange =>
      handleStructuralChange oldChildren newChildren oldElement path
                             structuralChange
  | None =>
      if StructuralComparator.shouldReplaceAllChildren
           oldChildren newChildren then
        replaceAllChildren oldElement oldChildren newChildren path
      else compareIncrementally oldElement oldChildren newChildren path
  end.

Definition compareElements_body (oldElement newElement : option node)
           (path : string) : Diff (list change) :=
  match oldElement, newElement with
  | None, None => ret []
  | None, Some new =>
      c <- clone new ;;
      ret [insert path c]
  | Some old, None => ret [remove path old]
  | Some old, Some new =>
      if negb (nodeType old =? nodeType new) then
        c <- clone new ;;
        ret [replace path old c]
      else if nodeType old =? TEXT_NODE then
        if negb (textContent old === textContent new) then
          ret [updateText path old (textContent old) (textContent new)]
        else ret []
      else if nodeType old =? ELEMENT_NODE then
        let oldTag := tagName old in
        let newTag := tagName new in
        if negb (option_eqb String.eqb oldTag newTag) then
          c <- clone new ;;
          ret [replace path old c]
        else if NodeUtils.isHeavyElement oldElement then ret []
        else
          let elementPath :=
            (path ++ (if truthy path then " > " else "")
                  ++ toLowerCase (match oldTag with
                                  | Some t => t
                                  | None => ""
                                  end))%string in
          let attrChanges :=
            NodeComparator.compareAttributes old new in
          let changes :=
            if 0 <? List.length attrChanges then
              [updateAttributes elementPath old attrChanges]
            else [] in
          childChanges <- compareChildren old new elementPath ;;
          ret (changes ++ childChanges)
      else ret []
  end.

End Recursive.

(** The recursion of [compareElements] descends one level of the old tree
    at each call, so a budget above the height of the old tree is never
    exhausted (see [compareElements_returns]). *)
Fixpoint compareElements_fuel (fuel : nat)
         (oldElement newElement : option node) (path : string)
  : Diff (list change) :=
  match fuel with
  | 0 => throw OutOfFuel
  | S fuel' =>
      compareElements_body (compareElements_fuel fuel')
                           oldElement newElement path
  end.

Definition depth (n : option node) : nat :=
  match n with Some x => height x | None => 0 end.

Definition compareElements (oldElement newElement : option node)
           (path : string) : Diff (list change) :=
  compareElements_fuel (S (depth oldElement)) oldElement newElement path.

(** [DeltaDOM.diff]: [path] takes its default value. *)
Definition diff (oldElement newElement : option node) : Diff (list change) :=
  compareElements oldElement newElement "".

End Differ.

(* ================================================================= *)
(** ** Patcher *)

Module Patcher.

Local Open Scope js_scope.
Import NodeComparator.

(** The store the patcher acts on: the live tree ([dom], rooted at
    [realParent] in keyed reconciliation and at the document in change-list
    replay), the allocation counter, and the error console.  A node that
    is not part of [dom] is detached; what happens to detached nodes is
    not recorded. *)
Record world : Type := mkWorld {
  dom : node;
  next : nat;
  console : list (string * exn)
}.

Definition Patch (A : Type) : Type := M world A.

Definition liftResult {A} (r : result A) : Patch A := fun w => (r, w).

Definition console_error (msg : string) (e : exn) : Patch unit :=
  modify (fun w => mkWorld (dom w) (next w) (console w ++ [(msg, e)])).

Definition fresh : Patch nat :=
  fun w => (Ok (next w), mkWorld (dom w) (S (next w)) (console w)).

Definition cloneTemplate (n : node) : Patch node :=
  fun w => let (c, k) := cloneNode n (next w) in
           (Ok c, mkWorld (dom w) k (console w)).

(** *** Host-tree interface, relative to [realParent = dom] *)

(** [Array.from(realParent.childNodes)]. *)
Definition getChildNodes : Patch (list node) :=
  fun w => (Ok (childNodes (dom w)), w).

Definition setChildren (cs : list node) : Patch unit :=
  modify (fun w => mkWorld (withChildNodes (dom w) cs) (next w) (console w)).

(** Only elements accept children. *)
Definition requireContainer : Patch unit :=
  fun w => match dom w with
           | Element _ _ _ _ => (Ok tt, w)
           | _ => (Throw (DOMException "HierarchyRequestError"), w)
           end.

Definition appendChild (child : node) : Patch unit :=
  requireContainer ;;;
  cs <- getChildNodes ;;
  setChildren (without cs child ++ [deref cs child]).

Definition insertBefore (child : node) (ref : option node) : Patch unit :=
  match ref with
  | None => appendChild child
  | Some r =>
      requireContainer ;;;
      cs <- getChildNodes ;;
      if negb (isChild cs r) then throw (DOMException "NotFoundError")
      else if sameNode child r then ret tt
      else setChildren (insertBeforeIn (without cs child) (deref cs child) r)
  end.

Definition replaceChild (new old : node) : Patch unit :=
  requireContainer ;;;
  cs <- getChildNodes ;;
  if negb (isChild cs old) then throw (DOMException "NotFoundError")
  else setChildren (replaceIn cs new old).

(** [ref.remove()]. *)
Definition removeNode (ref : node) : Patch unit :=
  cs <- getChildNodes ;;
  setChildren (without cs ref).

Definition updateChild (ref : node) (f : node -> node) : Patch unit :=
  cs <- getChildNodes ;;
  setChildren (updateIn cs ref f).

(** [ref.textContent = value], for a string; the setter takes [undefined]
    and [null] as the empty string, which the callers pass in their
    place. *)
Definition setTextContent (ref : node) (value : string) : Patch unit :=
  cs <- getChildNodes ;;
  match deref cs ref with
  | Text _ _ => updateChild ref (fun c => Text (nid c) value)
  | Comment _ _ => updateChild ref (fun c => Comment (nid c) value)
  | Element i t a _ =>
      if truthy value then
        k <- fresh ;;
        updateChild ref (fun _ => Element i t a [Text k value])
      else updateChild ref (fun _ => Element i t a [])
  end.

(** Runs [m] with the child denoted by [ref] as [realParent]. *)
Definition inChild {A} (ref : node) (m : Patch A) : Patch A :=
  fun w =>
    let cs := childNodes (dom w) in
    let (r, w') := m (mkWorld (deref cs ref) (next w) (console w)) in
    (r, mkWorld (withChildNodes (dom w) (updateIn cs ref (fun _ => dom w')))
                (next w') (console w')).

Definition createTextNode (data : option string) : Patch node :=
  k <- fresh ;; ret (Text k (render data)).

Definition createElement (tag : option string) : Patch node :=
  if validName (render tag) then
    k <- fresh ;; ret (Element k (toUpperCase (render tag)) [] [])
  else throw (DOMException "InvalidCharacterError").

(** *** Keyed reconciliation *)

Record oldEntry : Type := mkOldEntry {
  vNode : VDom.vnode;
  realNode : option node;
  index : nat;
  originalKey : string
}.

Record newEntry : Type := mkNewEntry {
  new_vNode : VDom.vnode;
  newRealNode : option node;
  new_index : nat;
  new_originalKey : string
}.

Inductive operation : Type :=
| Update (newIndex : nat) (entry : oldEntry) (newChild : VDom.vnode)
         (newRealChild : option node)
| Insert (newIndex : nat) (newChild : VDom.vnode)
         (newRealChild : option node)
| Remove (entry : oldEntry).

Definition op_type (op : operation) : string :=
  match op with
  | Update _ _ _ _ => "update"
  | Insert _ _ _ => "insert"
  | Remove _ => "remove"
  end.

(** [child._nodeId || `${child.type}-${index}-${child.tagName || ""}`]. *)
Definition nodeKey (child : VDom.vnode) (index : nat) : string :=
  let synthesized :=
    (VDom.type child ++ "-" ++ string_of_nat index ++ "-"
       ++ orEmpty (VDom.tagName child))%string in
  match VDom._nodeId child with
  | Some id => if truthy id then id else synthesized
  | None => synthesized
  end.

Definition dupKey (key : string) (counter : nat) : string :=
  (key ++ "-dup" ++ string_of_nat counter)%string.

(** The loop [while (map.has(finalKey)) { counter++; finalKey = ... }];
    a map of [n] entries lets it run at most [n] times
    (see [uniqueKey_returns]). *)
Fixpoint uniqueKey {V} (m : Map V) (key finalKey : string)
         (counter fuel : nat) : result string :=
  match fuel with
  | 0 => Throw OutOfFuel
  | S fuel' =>
      if Map_has m finalKey then
        uniqueKey m key (dupKey key (S counter)) (S counter) fuel'
      else Ok finalKey
  end.

(** The [forEach] that fills a key map; [entry] builds the stored record
    from the child, its index and its original key. *)
Fixpoint buildChildMap {V} (entry : VDom.vnode -> nat -> string -> V)
         (children : list (option VDom.vnode)) (index : nat) (m : Map V)
  : result (Map V) :=
  match children with
  | [] => Ok m
  | None :: rest => buildChildMap entry rest (S index) m
  | Some child :: rest =>
      let key := nodeKey child index in
      rbind (uniqueKey m key key 0 (S (List.length m))) (fun finalKey =>
      buildChildMap entry rest (S index)
                    (Map_set m finalKey (entry child index key)))
  end.

Definition oldChildMapOf (realChildren : list node)
           (oldChildren : list (option VDom.vnode))
  : result (Map oldEntry) :=
  buildChildMap (fun child index key =>
                   mkOldEntry child (nth_error realChildren index) index key)
                oldChildren 0 [].

Definition newChildMapOf (newRealChildren : list node)
           (newChildren : list (option VDom.vnode))
  : result (Map newEntry) :=
  buildChildMap (fun child index key =>
                   mkNewEntry child (nth_error newRealChildren index)
                              index key)
                newChildren 0 [].

(** [for (const [oldKey, oldEntry] of oldChildMap)] up to the first
    unmatched entry that passes [test]. *)
Fixpoint firstUnmatched (test : oldEntry -> result bool)
         (oldChildMap : Map oldEntry) (matchedOldNodes : list string)
  : result (option (string * oldEntry)) :=
  match oldChildMap with
  | [] => Ok None
  | (oldKey, entry) :: rest =>
      if existsb (String.eqb oldKey) matchedOldNodes then
        firstUnmatched test rest matchedOldNodes
      else
        rbind (test entry) (fun hit =>
        if hit then Ok (Some (oldKey, entry))
        else firstUnmatched test rest matchedOldNodes)
  end.

Definition findMatch (newChild : VDom.vnode) (newIndex : nat)
           (oldChildMap : Map oldEntry) (matchedOldNodes : list string)
  : result (option (string * oldEntry)) :=
  rbind (firstUnmatched
           (fun entry =>
              Ok (truthy_opt (VDom._nodeId newChild) &&
                  truthy_opt (VDom._nodeId (vNode entry)) &&
                  option_eqb String.eqb (VDom._nodeId newChild)
                             (VDom._nodeId (vNode entry))))
           oldChildMap matchedOldNodes) (fun byId =>
  match byId with
  | Some hit => Ok (Some hit)
  | None =>
      rbind (firstUnmatched
               (fun entry =>
                  nodesAreEquivalent (Some (vNode entry)) (Some newChild))
               oldChildMap matchedOldNodes) (fun byEquivalence =>
      match byEquivalence with
      | Some hit => Ok (Some hit)
      | None =>
          firstUnmatched
            (fun entry =>
               rbind (isSimpleElementMatch (Some (vNode entry))
                                           (Some newChild))
                     (fun isSimpleMatch =>
               if isSimpleMatch then
                 let indexDiff :=
                   Z.abs (Z.of_nat (index entry) - Z.of_nat newIndex) in
                 Ok (indexDiff <=? 2)%Z
               else Ok false))
            oldChildMap matchedOldNodes
      end)
  end).

(** First pass: one operation per non-null new child. *)
Fixpoint firstPass (newChildren : list (option VDom.vnode))
         (newRealChildren : list node) (newIndex : nat)
         (oldChildMap : Map oldEntry) (matchedOldNodes : list string)
  : result (list operation * list string) :=
  match newChildren with
  | [] => Ok ([], matchedOldNodes)
  | None :: rest =>
      firstPass rest newRealChildren (S newIndex) oldChildMap matchedOldNodes
  | Some newChild :: rest =>
      let newRealChild := nth_error newRealChildren newIndex in
      rbind (findMatch newChild newIndex oldChildMap matchedOldNodes)
            (fun found =>
      match found with
      | Some (actualOldKey, matchedOldEntry) =>
          rbind (firstPass rest newRealChildren (S newIndex) oldChildMap
                           (actualOldKey :: matchedOldNodes))
                (fun r =>
          Ok (Update newIndex matchedOldEntry newChild newRealChild :: fst r,
              snd r))
      | None =>
          rbind (firstPass rest newRealChildren (S newIndex) oldChildMap
                           matchedOldNodes)
                (fun r =>
          Ok (Insert newIndex newChild newRealChild :: fst r, snd r))
      end)
  end.

(** Second pass: one removal per unmatched old entry. *)
Definition secondPass (oldChildMap : Map oldEntry)
           (matchedOldNodes : list string) : list operation :=
  flat_map (fun kv =>
              if existsb (String.eqb (fst kv)) matchedOldNodes then []
              else [Remove (snd kv)])
           oldChildMap.

Definition newIndexOf (op : operation) : Z :=
  match op with
  | Update i _ _ _ | Insert i _ _ => Z.of_nat i
  | Remove _ => 0%Z
  end.

Definition compareOperations (a b : operation) : Z :=
  match a, b with
  | Remove _, _ => (-1)%Z
  | _, Remove _ => 1%Z
  | _, _ => (newIndexOf a - newIndexOf b)%Z
  end.

Section Methods.

(** [this.processMediaElement]. *)
Variable processMediaElement : option (node -> node).

(** The recursive reference [this.patchNode], run on the node that is
    [realParent] at the time of the call. *)
Variable this_patchNode :
  option VDom.vnode -> option VDom.vnode -> option node -> Patch unit.

Definition processNewNodeMedia (ref : node) : Patch unit :=
  updateChild ref (MediaProcessor.processNewNodeMedia processMediaElement).

(** [appendChild(n)] when [index >= length], and otherwise
    [insertBefore(n, children[index] || null)]. *)
Definition place (n : node) (currentChildren : list node) (index : nat)
  : Patch unit :=
  if List.length currentChildren <=? index then appendChild n
  else insertBefore n (nth_error currentChildren index).

Definition handleInsert (newIndex : nat) (newChild : VDom.vnode)
           (newRealChild : option node) : Patch unit :=
  currentChildren <- getChildNodes ;;
  let existingNode := nth_error currentChildren newIndex in
  let shouldSkipInsertion :=
    match existingNode with
    | Some existing =>
        if (VDom.type newChild === "text") &&
           (Dom.nodeType existing =? TEXT_NODE) then
          option_eqb String.eqb (Some (textContent existing))
                     (VDom.content newChild)
        else if (VDom.type newChild === "element") &&
                (Dom.nodeType existing =? ELEMENT_NODE) then
          option_eqb String.eqb
                     (option_map toLowerCase (Dom.tagName existing))
                     (VDom.tagName newChild)
        else false
    | None => false
    end in
  if negb shouldSkipInsertion then
    match newRealChild with
    | Some template =>
        clonedNode <- cloneTemplate template ;;
        place clonedNode currentChildren newIndex ;;;
        if NodeUtils.needsMediaProcessing clonedNode then
          processNewNodeMedia clonedNode
        else ret tt
    | None =>
        if VDom.type newChild === "text" then
          textNode <- createTextNode (VDom.content newChild) ;;
          place textNode currentChildren newIndex
        else if VDom.type newChild === "element" then
          created <- createElement (VDom.tagName newChild) ;;
          newElement <-
            liftResult
              (fold_left
                 (fun acc kv =>
                    rbind acc (fun el => trySetAttribute el (fst kv) (snd kv)))
                 (match VDom.attributes newChild with
                  | Some a => a
                  | None => []
                  end)
                 (Ok created)) ;;
          place newElement currentChildren newIndex
        else ret tt
    end
  else ret tt.

Definition handleUpdate (newIndex : nat) (entry : oldEntry)
           (newChild : VDom.vnode) (newRealChild : option node)
  : Patch unit :=
  match realNode entry with
  | None => ret tt
  | Some realNode =>
      if VDom._immutable newChild || VDom._immutable (vNode entry) then
        oldRawAttr <- liftResult (attr (vNode entry) "data-raw") ;;
        newRawAttr <- liftResult (attr newChild "data-raw") ;;
        oldLangAttr <- liftResult (attr (vNode entry) "data-language") ;;
        newLangAttr <- liftResult (attr newChild "data-language") ;;
        let oldRaw := orEmpty oldRawAttr in
        let newRaw := orEmpty newRawAttr in
        let oldLang := orEmpty oldLangAttr in
        let newLang := orEmpty newLangAttr in
        if (oldRaw === newRaw) && (oldLang === newLang) then ret tt
        else
          match newRealChild with
          | Some template =>
              clonedNode <- cloneTemplate template ;;
              replaceChild clonedNode realNode ;;;
              processNewNodeMedia clonedNode
          | None => ret tt
          end
      else
        currentChildren <- getChildNodes ;;
        (match indexOf currentChildren realNode with
         | Some currentIndex =>
             if negb (currentIndex =? newIndex) then
               if List.length currentChildren <=? newIndex then
                 appendChild realNode
               else
                 match nth_error currentChildren newIndex with
                 | Some targetNode =>
                     if negb (sameNode targetNode realNode) then
                       insertBefore realNode (Some targetNode)
                     else ret tt
                 | None => ret tt
                 end
             else ret tt
         | None => ret tt
         end) ;;;
        if (VDom.type (vNode entry) === "element") &&
           (VDom.type newChild === "element") then
          children <- getChildNodes ;;
          let live := deref children realNode in
          (if negb (NodeUtils.isHeavyElement (Some live)) then
             let (outcome, updated) :=
               NodeUtils.updateElementAttributes live newRealChild in
             updateChild realNode (fun _ => updated) ;;;
             liftResult outcome
           else ret tt) ;;;
          inChild realNode
                  (this_patchNode (Some (vNode entry)) (Some newChild)
                                  newRealChild)
        else if (VDom.type (vNode entry) === "text") &&
                (VDom.type newChild === "text") then
          if negb (option_eqb String.eqb (VDom.content (vNode entry))
                              (VDom.content newChild)) then
            setTextContent realNode (orEmpty (VDom.content newChild))
          else ret tt
        else ret tt
  end.

Definition executeOperation (op : operation) : Patch unit :=
  match op with
  | Remove entry =>
      match realNode entry with
      | Some realNode =>
          children <- getChildNodes ;;
          if negb (NodeUtils.isHeavyElement
                     (Some (deref children realNode)))
          then removeNode realNode
          else ret tt
      | None => ret tt
      end
  | Insert newIndex newChild newRealChild =>
      handleInsert newIndex newChild newRealChild
  | Update newIndex entry newChild newRealChild =>
      handleUpdate newIndex entry newChild newRealChild
  end.

(** The operations of one reconciliation, before sorting. *)
Definition planOperations (realChildren : list node)
           (oldChildren newChildren : list (option VDom.vnode))
           (newRealChildren : list node) : result (list operation) :=
  rbind (oldChildMapOf realChildren oldChildren) (fun oldChildMap =>
  rbind (newChildMapOf newRealChildren newChildren) (fun newChildMap =>
  rbind (firstPass newChildren newRealChildren 0 oldChildMap [])
        (fun r =>
  Ok (fst r ++ secondPass oldChildMap (snd r))))).

Definition keyBasedPatch (oldChildren newChildren : list (option VDom.vnode))
           (newRealChildren : list node) : Patch unit :=
  realChildren <- getChildNodes ;;
  operations <-
    liftResult (planOperations realChildren oldChildren newChildren
                               newRealChildren) ;;
  forEachTry (sort compareOperations operations)
             executeOperation
             (fun op opError =>
                console_error
                  ("Error executing " ++ op_type op ++ " operation:")
                  opError).

(** The guard of the text-only fast path. *)
Definition bothSingleText (oldChildren newChildren : list (option VDom.vnode))
  : result (option (VDom.vnode * VDom.vnode)) :=
  match newChildren, oldChildren with
  | [new0], [old0] =>
      match new0 with
      | None => Throw (undefinedRead "type")
      | Some n =>
          if VDom.type n === "text" then
            match old0 with
            | None => Throw (undefinedRead "type")
            | Some o =>
                if VDom.type o === "text" then Ok (Some (o, n))
                else Ok None
            end
          else Ok None
      end
  | _, _ => Ok None
  end.

Definition patchNode_body (oldVNode newVNode : option VDom.vnode)
           (newRealElement : option node) : Patch unit :=
  w <- get ;;
  if option_eqb String.eqb (getAttribute (dom w) "data-immutable")
                (Some "true") then ret tt
  else
    try_catch
      (realChildren <- getChildNodes ;;
       let oldChildren :=
         match oldVNode with
         | Some v => VDom.childrenOrEmpty v
         | None => []
         end in
       let newChildren :=
         match newVNode with
         | Some v => VDom.childrenOrEmpty v
         | None => []
         end in
       let newRealChildren :=
         match newRealElement with
         | Some e => childNodes e
         | None => []
         end in
       if (List.length newChildren =? 0) && (List.length oldChildren =? 0)
       then ret tt
       else
         texts <- liftResult (bothSingleText oldChildren newChildren) ;;
         match texts, nth_error realChildren 0 with
         | Some (old0, new0), Some realTextNode =>
             if Dom.nodeType realTextNode =? TEXT_NODE then
               if negb (option_eqb String.eqb (VDom.content old0)
                                   (VDom.content new0)) then
                 setTextContent realTextNode (orEmpty (VDom.content new0))
               else ret tt
             else keyBasedPatch oldChildren newChildren newRealChildren
         | _, _ => keyBasedPatch oldChildren newChildren newRealChildren
         end)
      (fun error =>
         console_error "Patch node error:" error ;;;
         throw error).

End Methods.

(** Each recursive call of [patchNode] descends one level of the new
    description tree, so a budget above its depth is enough
    (see [patchNode_fuel_enough]). *)
Fixpoint patchNode_fuel (processMediaElement : option (node -> node))
         (fuel : nat) (oldVNode newVNode : option VDom.vnode)
         (newRealElement : option node) : Patch unit :=
  match fuel with
  | 0 => throw OutOfFuel
  | S fuel' =>
      patchNode_body processMediaElement
                     (patchNode_fuel processMediaElement fuel')
                     oldVNode newVNode newRealElement
  end.

Definition vdepth (v : option VDom.vnode) : nat :=
  match v with Some x => VDom.height x | None => 0 end.

(** [patchNode(realParent, ...)] for a non-null [realParent], the root of
    the store. *)
Definition patchNode (processMediaElement : option (node -> node))
           (oldVNode newVNode : option VDom.vnode)
           (newRealElement : option node) : Patch unit :=
  patchNode_fuel processMediaElement (S (vdepth newVNode))
                 oldVNode newVNode newRealElement.

(** *** Change-list replay: operations name their nodes by identity *)

Fixpoint findNode (id : nat) (t : node) : option node :=
  if nid t =? id then Some t
  else
    match t with
    | Element _ _ _ cs =>
        (fix first (l : list node) : option node :=
           match l with
           | [] => None
           | c :: l' =>
               match findNode id c with
               | Some r => Some r
               | None => first l'
               end
           end) cs
    | _ => None
    end.

Fixpoint parentOf (id : nat) (t : node) : option node :=
  match t with
  | Element _ _ _ cs =>
      if existsb (fun c => nid c =? id) cs then Some t
      else
        (fix first (l : list node) : option node :=
           match l with
           | [] => None
           | c :: l' =>
               match parentOf id c with
               | Some r => Some r
               | None => first l'
               end
           end) cs
  | _ => None
  end.

Fixpoint mapNode (id : nat) (f : node -> node) (t : node) : node :=
  if nid t =? id then f t
  else
    match t with
    | Element i tg a cs => Element i tg a (map (fun c => mapNode id f c) cs)
    | _ => t
    end.

Fixpoint detach (id : nat) (t : node) : node :=
  match t with
  | Element i tg a cs =>
      Element i tg a
        ((fix rest (l : list node) : list node :=
            match l with
            | [] => []
            | c :: l' =>
                if nid c =? id then rest l' else detach id c :: rest l'
            end) cs)
  | _ => t
  end.

(** The current value of the node a reference denotes. *)
Definition resolve (ref : node) (document : node) : node :=
  match findNode (nid ref) document with
  | Some live => live
  | None => ref
  end.

Definition modifyDom (f : node -> node) : Patch unit :=
  modify (fun w => mkWorld (f (dom w)) (next w) (console w)).

Definition setData (value : string) (n : node) : node :=
  match n with
  | Text i _ => Text i value
  | Comment i _ => Comment i value
  | _ => n
  end.

Definition hierarchyRequestError : exn := DOMException "HierarchyRequestError".

Section Replay.

Variable processMediaElement : option (node -> node).

(** The [switch] of [applyChange].  It has no case for [insert], which
    therefore does nothing, like an operation of unknown type.  A node
    being put in place is first taken out of the tree if it is in it, and
    putting a node into its own subtree is refused by the host tree. *)
Definition applyChange (c : change) : Patch unit :=
  match c with
  | updateText _ element _ newContent =>
      w <- get ;;
      match findNode (nid element) (dom w) with
      | Some (Element _ _ _ _) =>
          if truthy newContent then
            k <- fresh ;;
            modifyDom (mapNode (nid element)
                         (fun n => withChildNodes n [Text k newContent]))
          else
            modifyDom (mapNode (nid element)
                         (fun n => withChildNodes n []))
      | Some _ => modifyDom (mapNode (nid element) (setData newContent))
      | None => ret tt
      end
  | updateAttributes _ element changes =>
      forEach changes
        (fun attr =>
           w <- get ;;
           match resolve element (dom w) with
           | Element _ _ _ _ =>
               match NodeComparator.newValue attr with
               | None =>
                   modifyDom (mapNode (nid element)
                                (fun n => removeAttribute n
                                            (NodeComparator.name attr)))
               | Some value =>
                   if validName (NodeComparator.name attr) then
                     modifyDom
                       (mapNode (nid element)
                          (fun n => setAttribute n
                                      (toLowerCase
                                         (NodeComparator.name attr))
                                      value))
                   else throw (DOMException "InvalidCharacterError")
               end
           | _ =>
               throw (TypeError
                        (match NodeComparator.newValue attr with
                         | None =>
                             "change.element.removeAttribute is not a function"
                         | Some _ =>
                             "change.element.setAttribute is not a function"
                         end))
           end)
  | replace _ oldElement newElement =>
      w <- get ;;
      (match parentOf (nid oldElement) (dom w) with
       | Some parent =>
           let new := resolve newElement (dom w) in
           if existsb (Nat.eqb (nid parent)) (ids new) then
             throw hierarchyRequestError
           else if sameNode oldElement new then ret tt
           else
             modifyDom
               (fun d =>
                  mapNode (nid parent)
                    (fun p => withChildNodes p
                                (replaceIn (childNodes p) new oldElement))
                    (detach (nid new) d))
       | None => ret tt
       end) ;;;
      modifyDom (mapNode (nid newElement)
                   (MediaProcessor.processNewNodeMedia
                      processMediaElement))
  | insertChild _ parent child index =>
      w <- get ;;
      (match resolve parent (dom w) with
       | Element _ _ _ childrenForInsertion as p =>
           let new := resolve child (dom w) in
           if existsb (Nat.eqb (nid p)) (ids new) then
             throw hierarchyRequestError
           else if List.length childrenForInsertion <=? index then
             modifyDom
               (fun d =>
                  mapNode (nid p)
                    (fun p' => withChildNodes p' (childNodes p' ++ [new]))
                    (detach (nid new) d))
           else
             match nth_error childrenForInsertion index with
             | Some ref =>
                 if sameNode ref new then ret tt
                 else
                   modifyDom
                     (fun d =>
                        mapNode (nid p)
                          (fun p' =>
                             withChildNodes p'
                               (insertBeforeIn (childNodes p') new ref))
                          (detach (nid new) d))
             | None => ret tt
             end
       | _ => throw hierarchyRequestError
       end) ;;;
      modifyDom (mapNode (nid child)
                   (MediaProcessor.processNewNodeMedia
                      processMediaElement))
  | removeChild _ parent child _ =>
      w <- get ;;
      let childrenForRemoval := childNodes (resolve parent (dom w)) in
      if isChild childrenForRemoval child then
        modifyDom (mapNode (nid parent)
                     (fun p => withChildNodes p
                                 (without (childNodes p) child)))
      else ret tt
  | remove _ element =>
      w <- get ;;
      match parentOf (nid element) (dom w) with
      | Some _ => modifyDom (detach (nid element))
      | None => ret tt
      end
  | insert _ _ => ret tt
  | other _ => ret tt
  end.

(** The entries of the table [order] of [applyChanges]. *)
Definition order (type : string) : option Z :=
  if type === "removeChild" then Some 0%Z
  else if type === "remove" then Some 1%Z
  else if type === "updateText" then Some 2%Z
  else if type === "updateAttributes" then Some 3%Z
  else if type === "replace" then Some 4%Z
  else if type === "insertChild" then Some 5%Z
  else if type === "insert" then Some 6%Z
  else None.

(** [v || d] on a possibly-undefined number: zero is falsy. *)
Definition orDefault (v : option Z) (d : Z) : Z :=
  match v with
  | Some n => if (n =? 0)%Z then d else n
  | None => d
  end.

(** The table is an object literal, so [order[type]] also finds what
    every object inherits from [Object.prototype]: under these names it
    is a function (an object for [__proto__]), which is truthy and is not
    a number. *)
Definition inheritedMembers : list string :=
  ["constructor"; "hasOwnProperty"; "isPrototypeOf"; "propertyIsEnumerable";
   "toLocaleString"; "toString"; "valueOf"; "__proto__";
   "__defineGetter__"; "__defineSetter__"; "__lookupGetter__";
   "__lookupSetter__"].

Definition inherited (type : string) : bool :=
  existsb (String.eqb type) inheritedMembers.

(** The operand [order[type] || 10] as a number; [None] when it is an
    inherited member. *)
Definition operand (type : string) : option Z :=
  match order type with
  | Some n => Some (orDefault (Some n) 10)
  | None => if inherited type then None else Some (orDefault None 10)
  end.

(** The answer of the comparator as [sort] reads it: the difference of
    the operands, which is NaN when one of them is not a number, and NaN
    counts as +0. *)
Definition compareChanges (a b : change) : Z :=
  match operand (Changes.type a), operand (Changes.type b) with
  | Some x, Some y => (x - y)%Z
  | _, _ => 0%Z
  end.

Definition sortedChanges (changes : list change) : list change :=
  sort compareChanges changes.

Definition applyChanges (changes : list change) : Patch unit :=
  forEachTry (sortedChanges changes)
             applyChange
             (fun change error =>
                console_error
                  ("Error applying " ++ Changes.type change ++ ":")
                  error).

End Replay.

End Patcher.

(* ================================================================= *)
(** ** DeltaDOM

    The class of src/index.js, which ties differ and patcher together. *)

Module DeltaDOM.

Local Open Scope js_scope.
Import Patcher.

Section Instance.

(** [options.processMediaElement], handed to the patcher the instance
    creates. *)
Variable processMediaElement : option (node -> node).

(** The differ allocates from the counter of the store. *)
Definition runDiffer {A} (m : Differ.Diff A) : Patch A :=
  fun w => let (r, k) := m (next w) in (r, mkWorld (dom w) k (console w)).

(** [diff(oldElement, newElement)]: the arguments are references, read at
    the value the referenced nodes have when the call is made. *)
Definition diff (oldElement newElement : option node) : Patch (list change) :=
  w <- get ;;
  runDiffer
    (Differ.compareElements
       (option_map (fun ref => resolve ref (dom w)) oldElement)
       (option_map (fun ref => resolve ref (dom w)) newElement)
       "").

Definition patch (changes : list change) : Patch unit :=
  Patcher.applyChanges processMediaElement changes.

Definition update (oldElement newElement : option node)
  : Patch (list change) :=
  changes <- diff oldElement newElement ;;
  patch changes ;;;
  ret changes.

Definition patchVirtualNodes (oldVNode newVNode : option VDom.vnode)
           (newRealElement : option node) : Patch unit :=
  Patcher.patchNode processMediaElement oldVNode newVNode newRealElement.

End Instance.

End DeltaDOM.

(* ================================================================= *)
(** * Properties *)

Import StructuralComparator.
Import Differ.
Import Patcher.

(** ** Vocabulary of the statements, and the trees they are tried on *)

(** The test [isSimpleInsertionOrDeletion] runs at position [p] for a change
    of the kind and size of [sc]. *)
Definition passes (old new : list node) (sc : structuralChange) (p : nat)
  : bool :=
  match type sc with
  | insertion => testInsertionAtPosition old new p (count sc)
  | deletion => testDeletionAtPosition old new p (count sc)
  end.

Definition lengthDiff (old new : list node) : Z :=
  Z.abs (Z.of_nat (List.length old) - Z.of_nat (List.length new)).

Definition containsHeavy (children : list node) : Prop :=
  exists c, In c children /\ NodeUtils.isHeavyElement (Some c) = true.

Definition videoPlayer : node := Element 50 "VIDEO" [("src", "clip.mp4")] [].

Definition gallery : node :=
  Element 1 "DIV" []
    (videoPlayer :: map (fun i => Text (60 + i) "line") (seq 0 11)).

Definition emptyGallery : node := Element 2 "DIV" [] [].

Definition plainImage : node := Element 10 "IMG" [("src", "a.png")] [].
Definition blobImage : node := Element 20 "IMG" [("src", "blob:xyz")] [].

(** The detached node an operation brings along, to be put in place. *)
Definition inserted (c : change) : option node :=
  match c with
  | insert _ element => Some element
  | replace _ _ newElement => Some newElement
  | insertChild _ _ child _ => Some child
  | _ => None
  end.

(** The existing nodes an operation refers to. *)
Definition referenced (c : change) : list node :=
  match c with
  | remove _ element => [element]
  | replace _ oldElement _ => [oldElement]
  | updateText _ element _ _ => [element]
  | updateAttributes _ element _ => [element]
  | insertChild _ parent _ _ => [parent]
  | removeChild _ parent child _ => [parent; child]
  | insert _ _ | other _ => []
  end.

(** [partOf n tree]: [n] is a node of [tree]. *)
Definition partOf (n : node) (tree : option node) : Prop :=
  match tree with
  | Some root => inclusive_descendant n root
  | None => False
  end.






(** An operation is well-formed between allocation counters [lo] and [hi]
    when the nodes it refers to satisfy [Pold] and the node it brings along
    is a copy, built from identities in [lo, hi), of a node satisfying
    [Pnew]. *)
Definition wellFormed (Pold Pnew : node -> Prop) (lo hi : nat) (c : change)
  : Prop :=
  (forall r, In r (referenced c) -> Pold r) /\
  (forall n, inserted c = Some n ->
     (exists m, Pnew m /\ shape n = shape m) /\
     (forall i, In i (ids n) -> lo <= i < hi)).

(** A differ computation is safe when, from every state, it returns
    normally, only moves the allocation counter forward, and yields
    well-formed operations. *)
Definition safe (Pold Pnew : node -> Prop) (m : Diff (list change)) : Prop :=
  forall s, exists cs s',
    m s = (Ok cs, s') /\ s <= s' /\ Forall (wellFormed Pold Pnew s s') cs.

Definition listItems : node :=
  Element 30 "UL" []
    [Element 31 "LI" [] [Text 1 "A"]; Element 32 "LI" [] [Text 2 "B"]].

Definition listItems' : node :=
  Element 40 "UL" [("class", "x")]
    [Element 41 "LI" [] [Text 3 "A"]; Element 42 "LI" [] [Text 5 "X"];
     Element 43 "LI" [] [Text 4 "B"]].

(** The known operation types other than [removeChild]. *)
Definition otherKnownTypes : list string :=
  ["remove"; "updateText"; "updateAttributes"; "replace"; "insertChild";
   "insert"].

Definition board : node :=
  Element 1 "DIV" [] [Text 2 "stale"; Element 3 "P" [] []].

Definition removeStale : change := removeChild "div" board (Text 2 "stale") 0.

Definition insertFresh : change := insertChild "div" board (Text 50 "fresh") 1.

Definition paragraph : VDom.vnode :=
  VDom.VNode "element" None (Some "p") (Some [("class", "new")])
             (Some [Some (VDom.VNode "text" None None None None
                                     (Some "new text") None false)])
             None None false.

Definition article : node :=
  Element 10 "DIV" [] [Element 11 "P" [("class", "old")] [Text 12 "old text"]].

(** The pair of content-identity attributes of a description node. *)
Definition contentIdentity (attrs : list (string * string)) : string * string :=
  (orEmpty (lookupAttr attrs "data-raw"),
   orEmpty (lookupAttr attrs "data-language")).

Definition sameContentIdentity (a b : list (string * string)) : bool :=
  (fst (contentIdentity a) === fst (contentIdentity b)) &&
  (snd (contentIdentity a) === snd (contentIdentity b)).

Definition codeBlock (raw : string) : VDom.vnode :=
  VDom.VNode "element" None (Some "pre")
             (Some [("data-raw", raw); ("data-language", "js")])
             (Some []) None None true.

Definition livePre : node :=
  Element 11 "PRE" [("data-immutable", "true")] [Text 12 "let x"].

Definition templatePre : node :=
  Element 21 "PRE" [("data-immutable", "true")] [Text 22 "let y"].

Definition page : node := Element 10 "DIV" [] [Text 13 "intro"; livePre].

Definition matchedPre : oldEntry :=
  mkOldEntry (codeBlock "let x") (Some livePre) 1 "element-1-pre".

(** One operation of a batch, run inside its [try]/[catch]: the state the
    operation leaves behind, with the exception, if it threw, recorded on
    the console under the operation's label. *)
Definition attempt {A} (run : A -> Patch unit) (label : A -> string)
           (x : A) (w : world) : world :=
  match run x w with
  | (Ok _, w') => w'
  | (Throw e, w') => mkWorld (dom w') (next w') (console w' ++ [(label x, e)])
  end.

Definition changeLabel (c : change) : string :=
  ("Error applying " ++ Changes.type c ++ ":")%string.

Definition operationLabel (op : operation) : string :=
  ("Error executing " ++ op_type op ++ " operation:")%string.

Definition plainElement (tag : string) (attrs : list (string * string))
           (children : list (option VDom.vnode)) : VDom.vnode :=
  VDom.VNode "element" None (Some tag) (Some attrs) (Some children)
             None None false.

Definition twoBlocks : node :=
  Element 10 "DIV" [] [Element 11 "P" [] []; Element 12 "SPAN" [] []].

(** The keys the disambiguation loop tries, in order. *)
Definition candidate (key : string) (counter : nat) : string :=
  match counter with
  | 0 => key
  | S _ => dupKey key counter
  end.

(** The non-null children of a list, each with its index. *)
Fixpoint nonNullChildren (children : list (option VDom.vnode)) (index : nat)
  : list (VDom.vnode * nat) :=
  match children with
  | [] => []
  | None :: rest => nonNullChildren rest (S index)
  | Some child :: rest => (child, index) :: nonNullChildren rest (S index)
  end.

(** [finalKey] is [key] itself or [key] with a numeric suffix. *)
Definition disambiguates (finalKey key : string) : Prop :=
  finalKey = key \/ exists n, finalKey = dupKey key n.

Definition keyed (id : string) : VDom.vnode :=
  VDom.VNode "element" None (Some "li") (Some []) (Some []) None (Some id)
             false.

(** The description node an operation hands to [this.patchNode]. *)
Definition patchedChild (op : operation) : option VDom.vnode :=
  match op with
  | Update _ _ newChild _ => Some newChild
  | _ => None
  end.

(** Everything of a tree but its attributes. *)
Fixpoint withoutAttributes (n : node) : node :=
  match n with
  | Element i t _ cs => Element i t [] (map withoutAttributes cs)
  | _ => n
  end.

Definition quietParagraph : node :=
  Element 1 "P" [("class", "lead")] [Text 2 "plain"; Element 3 "EM" [] []].

(** What the first loop of [updateElementAttributes] leaves of the old
    attribute list: it walks the live list by position, so after removing
    an attribute it steps over the one that follows.  [stale] tells which
    names the new element lacks. *)
Fixpoint sweep (stale : string -> bool) (attrs : list (string * string))
  : list (string * string) :=
  match attrs with
  | [] => []
  | x :: rest =>
      if stale (fst x) then
        match rest with
        | [] => []
        | y :: rest' => y :: sweep stale rest'
        end
      else x :: sweep stale rest
  end.

(** The names the new element lacks. *)
Definition staleFor (newElement : node) (name : string) : bool :=
  negb (hasAttribute newElement name).

Definition badge : node :=
  Element 7 "SPAN" [("class", "tag"); ("title", "old"); ("lang", "en")] [].

Definition badge' : node := Element 8 "SPAN" [("class", "label")] [].

Definition bareBadge : node := Element 9 "SPAN" [] [].

Definition caption : node :=
  Element 5 "SPAN" [("title", "old"); ("class", "tag")] [].

Definition badgeHolder : node := Element 1 "DIV" [] [Text 2 "see"; badge].

(** [insertChild] operations that put [clones] at consecutive indices from
    [index] on. *)
Fixpoint insertionsAt (path : string) (parent : node) (clones : list node)
         (index : nat) : list change :=
  match clones with
  | [] => []
  | c :: rest =>
      insertChild path parent c index
        :: insertionsAt path parent rest (S index)
  end.

(** [removeChild] operations that name [children], found at consecutive
    indices from [index] on. *)
Fixpoint removalsAt (path : string) (parent : node) (children : list node)
         (index : nat) : list change :=
  match children with
  | [] => []
  | c :: rest =>
      removeChild path parent c index :: removalsAt path parent rest (S index)
  end.

(** The number [applyChanges] sorts an operation by, when the type of the
    operation is not an inherited member name. *)
Definition priority (c : change) : Z := orDefault (order (Changes.type c)) 10.


(** An operation [applyChange] has no case for. *)
Definition unhandled (c : change) : Prop :=
  match c with
  | insert _ _ | other _ => True
  | _ => False
  end.

(** Every identity of the store is below its allocation counter, and no
    two nodes of the live tree share an identity. *)
Definition wellFormedStore (w : world) : Prop :=
  NoDup (ids (dom w)) /\ forall i, In i (ids (dom w)) -> i < next w.

Definition note : node := Element 1 "P" [] [Text 2 "draft"; Text 3 "!"].

(** A description of an element that carries no attribute map. *)
Definition bareParagraph : VDom.vnode :=
  VDom.VNode "element" None (Some "p") None (Some []) None None false.

Definition stanza : VDom.vnode :=
  VDom.VNode "element" None (Some "div") (Some []) (Some [Some bareParagraph])
             None None false.

(** Two nodes that differ in their children at most. *)
Definition sameRoot (a b : node) : Prop :=
  withChildNodes a [] = withChildNodes b [].

(** [w'] continues [w]: the root is the same node, the allocation counter
    has not moved back, and the console has only grown. *)
Definition continues (w w' : world) : Prop :=
  sameRoot (dom w) (dom w') /\ next w <= next w' /\
  exists log, console w' = console w ++ log.

(** A computation whose final store continues the initial one, whether it
    returns or throws. *)
Definition keepsRoot {A} (m : Patch A) : Prop :=
  forall w, continues w (snd (m w)).

(** What [handleInsert] takes as a sign that the new child is already in
    place: a text node with the same content, or an element with the same
    tag (compared in lower case). *)
Definition looksInserted (newChild : VDom.vnode) (existing : node) : Prop :=
  (VDom.type newChild = "text" /\
   exists i data, existing = Text i data /\
                  VDom.content newChild = Some data) \/
  (VDom.type newChild = "element" /\
   exists i tag attrs children,
     existing = Element i tag attrs children /\
     VDom.tagName newChild = Some (toLowerCase tag)).

Definition greeting : VDom.vnode :=
  VDom.VNode "text" None None None None (Some "hello") None false.

(** The old entry an operation acts on. *)
Definition touched (op : operation) : list oldEntry :=
  match op with
  | Update _ entry _ _ | Remove entry => [entry]
  | Insert _ _ _ => []
  end.

(** The new child an operation puts in place, with its index. *)
Definition placed (op : operation) : list (VDom.vnode * nat) :=
  match op with
  | Update newIndex _ newChild _ | Insert newIndex newChild _ =>
      [(newChild, newIndex)]
  | Remove _ => []
  end.

Definition trail : node :=
  Element 1 "UL" []
    [Element 2 "LI" [] [Text 3 "a"]; Element 4 "LI" [] [Text 5 "b"];
     Element 6 "LI" [] [Text 7 "c"]].

Definition trail' : node :=
  Element 11 "UL" []
    [Element 12 "LI" [] [Text 13 "a"]; Element 16 "LI" [] [Text 17 "c"]].

(** The description of a text child. *)
Definition textChild (content : string) : VDom.vnode :=
  VDom.VNode "text" None None None None (Some content) None false.

Definition letters : node :=
  Element 1 "P" [] [Text 2 "a"; Text 3 "b"; Text 4 "c"; Text 5 "d"].

(** ** Proofs *)

Arguments NodeUtils.isHeavyElement : simpl never.
Arguments NodeUtils.needsMediaProcessing : simpl never.
Arguments NodeComparator.compareAttributes : simpl never.
Arguments compareChildren : simpl never.
Arguments StructuralComparator.shouldReplaceAllChildren : simpl never.
Arguments StructuralComparator.isSimpleInsertionOrDeletion : simpl never.
Arguments StructuralComparator.childrenMatch : simpl never.

Lemma option_eqb_refl (a : option string) : option_eqb String.eqb a a = true.
Proof. destruct a; simpl; auto using String.eqb_refl. Qed.

Lemma firstIndex_Some test lo n p :
  firstIndex test lo n = Some p ->
  lo <= p < lo + n /\ test p = true /\
  forall q, lo <= q < p -> test q = false.
Proof.
  revert lo; induction n as [|n IH]; intros lo H; simpl in H; [discriminate|].
  destruct (test lo) eqn:E.
  - inversion H; subst. split; [lia|]. split; [assumption|]. intros q Hq; lia.
  - apply IH in H as (Hr & Ht & Hm). split; [lia|]. split; [assumption|].
    intros q Hq. destruct (Nat.eq_dec q lo) as [->|]; auto. apply Hm; lia.
Qed.

Lemma firstIndex_None test lo n :
  firstIndex test lo n = None -> forall q, lo <= q < lo + n -> test q = false.
Proof.
  revert lo; induction n as [|n IH]; intros lo H q Hq; simpl in H; [lia|].
  destruct (test lo) eqn:E; [discriminate|].
  destruct (Nat.eq_dec q lo) as [->|]; auto. apply (IH _ H); lia.
Qed.

Lemma detection_sound old new sc :
  isSimpleInsertionOrDeletion old new = Some sc ->
  match type sc with
  | insertion =>
      List.length new = List.length old + count sc /\
      position sc <= List.length old
  | deletion =>
      List.length old = List.length new + count sc /\
      position sc <= List.length new
  end /\ 1 <= count sc <= 5 /\
  passes old new sc (position sc) = true /\
  forall q, q < position sc -> passes old new sc q = false.
Proof.
  unfold isSimpleInsertionOrDeletion, checkSimpleInsertionAnywhere,
    checkSimpleDeletionAnywhere, checkMultipleInsertionsAnywhere,
    checkMultipleDeletionsAnywhere, passes.
  intros H.
  repeat match type of H with
  | (if ?b then _ else _) = _ => destruct b eqn:?
  | match firstIndex ?t ?lo ?n with _ => _ end = _ =>
      destruct (firstIndex t lo n) eqn:?
  end; try discriminate; inversion H; subst; clear H; simpl;
  match goal with
  | F : firstIndex _ _ _ = Some _ |- _ =>
      apply firstIndex_Some in F as (Hr & Ht & Hm)
  end;
  repeat match goal with
  | E : (_ =? _) = true |- _ => apply Nat.eqb_eq in E
  | E : (_ =? _) = false |- _ => apply Nat.eqb_neq in E
  | E : (_ <? _) = true |- _ => apply Nat.ltb_lt in E
  | E : (_ <? _) = false |- _ => apply Nat.ltb_ge in E
  | E : (_ <=? _) = true |- _ => apply Nat.leb_le in E
  end;
  (repeat split; [lia .. | exact Ht | intros q Hq; apply Hm; lia]).
Qed.

Lemma pushEach_nil {A} (xs : list A) (body : A -> Diff (list change)) s :
  (forall x, In x xs -> body x s = (Ok [], s)) ->
  pushEach xs body s = (Ok [], s).
Proof.
  induction xs as [|x xs IH]; intros H; simpl; [reflexivity|].
  unfold bind. rewrite (H x (or_introl eq_refl)).
  rewrite IH by (intros y Hy; apply H; right; exact Hy). reflexivity.
Qed.

Lemma significantDifference_self c : significantDifference c c = false.
Proof.
  unfold significantDifference.
  rewrite Nat.eqb_refl, option_eqb_refl, String.eqb_refl. simpl.
  rewrite !andb_false_r. simpl.
  repeat match goal with |- context [if ?b then _ else _] => destruct b end;
    reflexivity.
Qed.

Lemma shouldReplaceAllChildren_self cs : shouldReplaceAllChildren cs cs = false.
Proof.
  unfold shouldReplaceAllChildren.
  replace (Z.abs _) with 0%Z by lia. simpl.
  destruct (_ || _); [reflexivity|].
  rewrite Nat.min_id.
  match goal with |- context [filter ?f ?l] =>
    assert (E : filter f l = []) end.
  { induction (seq 0 (List.length cs)) as [|i l IH]; simpl; [reflexivity|].
    destruct (nth_error cs i); [rewrite significantDifference_self|];
      exact IH. }
  rewrite E. simpl. apply Nat.ltb_ge. lia.
Qed.

Lemma isSimpleInsertionOrDeletion_self cs :
  isSimpleInsertionOrDeletion cs cs = None.
Proof.
  unfold isSimpleInsertionOrDeletion.
  replace (_ =? _ + 1) with false by (symmetry; apply Nat.eqb_neq; lia).
  rewrite Nat.ltb_irrefl. reflexivity.
Qed.

Lemma compareAttributes_self n : NodeComparator.compareAttributes n n = [].
Proof.
  unfold NodeComparator.compareAttributes.
  induction (Set_of _ _) as [|k ks IH]; simpl; [reflexivity|].
  rewrite option_eqb_refl. exact IH.
Qed.

Lemma height_child i t a cs c : In c cs -> height c < height (Element i t a cs).
Proof.
  simpl. induction cs as [|x cs IH]; simpl; [tauto|].
  intros [->|H]; [lia|]. apply IH in H. lia.
Qed.

Lemma compareElements_fuel_self n :
  forall fuel path s, height n < fuel ->
    compareElements_fuel fuel (Some n) (Some n) path s = (Ok [], s).
Proof.
  induction n as [i d|i d|i t a cs IH] using node_induction;
    intros [|fuel] path s Hf; try lia; simpl.
  - rewrite String.eqb_refl. reflexivity.
  - reflexivity.
  - rewrite String.eqb_refl. simpl.
    destruct (NodeUtils.isHeavyElement _); [reflexivity|].
    rewrite compareAttributes_self. simpl.
    unfold bind, compareChildren. cbn [childNodes] in *.
    rewrite isSimpleInsertionOrDeletion_self, shouldReplaceAllChildren_self.
    unfold compareIncrementally.
    rewrite Nat.max_id, pushEach_nil; [reflexivity|].
    intros k Hk. apply in_seq in Hk. cbn [childNodes] in *.
    destruct (nth_error cs k) as [c|] eqn:E; [|reflexivity].
    apply nth_error_In in E.
    rewrite Forall_forall in IH. apply (IH c E).
    pose proof (height_child i t a cs c E). lia.
Qed.

Theorem compareElements_self (T : option node) (path : string) (next : nat) :
  compareElements T T path next = (Ok [], next).
Proof.
  destruct T as [n|]; [|reflexivity].
  apply compareElements_fuel_self. simpl. lia.
Qed.

Lemma detection_complete old new p :
  isSimpleInsertionOrDeletion old new = None ->
  (List.length old < List.length new <= List.length old + 5 ->
   p <= List.length old ->
   testInsertionAtPosition old new p (List.length new - List.length old)
   = false) /\
  (List.length new < List.length old <= List.length new + 5 ->
   p <= List.length new ->
   testDeletionAtPosition old new p (List.length old - List.length new)
   = false).
Proof.
  unfold isSimpleInsertionOrDeletion, checkSimpleInsertionAnywhere,
    checkSimpleDeletionAnywhere, checkMultipleInsertionsAnywhere,
    checkMultipleDeletionsAnywhere.
  intros H.
  repeat match type of H with
  | (if ?b then _ else _) = _ => destruct b eqn:?
  | match firstIndex ?t ?lo ?n with _ => _ end = _ =>
      destruct (firstIndex t lo n) eqn:?
  end; try discriminate;
  repeat match goal with
  | E : (_ =? _) = true |- _ => apply Nat.eqb_eq in E
  | E : (_ =? _) = false |- _ => apply Nat.eqb_neq in E
  | E : (_ <? _) = true |- _ => apply Nat.ltb_lt in E
  | E : (_ <? _) = false |- _ => apply Nat.ltb_ge in E
  | E : (_ <=? _) = true |- _ => apply Nat.leb_le in E
  | E : (_ <=? _) = false |- _ => apply Nat.leb_gt in E
  end;
  (split; intros Hl Hp; try lia);
  match goal with
  | F : firstIndex _ _ _ = None |- _ =>
      pose proof (firstIndex_None _ _ _ F p ltac:(lia)) as Hq; cbv beta in Hq
  end;
  match goal with
  | |- context [?x - ?y] => replace (x - y) with 1 by lia
  | _ => idtac
  end; exact Hq.
Qed.

(** C4.  [isSimpleInsertionOrDeletion] scans positions upwards and answers
    with the lowest one at which the insertion (or deletion) test passes:
    the test passes at the reported position, fails at every lower one, and
    an answer of "no match" means the test fails at every position.  For
    children that match exactly when they bear the same letter,
    old = [A,B,C,D] against new = [A,B,X,C,D] is an insertion of one child at
    position 2, and old = [A,B,C,D,E] against new = [A,D,E] is a deletion of
    two children at position 1. *)
Theorem isSimpleInsertionOrDeletion_lowest_position
  (a b c d e a' b' c' d' e' x' : node)
  (Hmatch : forall i j, i < 5 -> j < 6 ->
     childrenMatch (nth_error [a; b; c; d; e] i)
                   (nth_error [a'; b'; c'; d'; e'; x'] j) = (i =? j)) :
  (forall old new sc,
     isSimpleInsertionOrDeletion old new = Some sc ->
     passes old new sc (position sc) = true /\
     forall q, q < position sc -> passes old new sc q = false) /\
  (forall old new p,
     isSimpleInsertionOrDeletion old new = None ->
     (List.length old < List.length new <= List.length old + 5 ->
      p <= List.length old ->
      testInsertionAtPosition old new p (List.length new - List.length old)
      = false) /\
     (List.length new < List.length old <= List.length new + 5 ->
      p <= List.length new ->
      testDeletionAtPosition old new p (List.length old - List.length new)
      = false)) /\
  isSimpleInsertionOrDeletion [a; b; c; d] [a'; b'; x'; c'; d']
  = Some (mkChange insertion 2 1) /\
  isSimpleInsertionOrDeletion [a; b; c; d; e] [a'; d'; e']
  = Some (mkChange deletion 1 2).
Proof.
  split; [|split; [|split]].
  - intros old new sc H. apply detection_sound in H. tauto.
  - intros old new p H. apply detection_complete; exact H.
  - pose proof (Hmatch 0 0 ltac:(lia) ltac:(lia)) as H00.
    pose proof (Hmatch 0 1 ltac:(lia) ltac:(lia)) as H01.
    pose proof (Hmatch 1 1 ltac:(lia) ltac:(lia)) as H11.
    pose proof (Hmatch 1 5 ltac:(lia) ltac:(lia)) as H15.
    pose proof (Hmatch 2 2 ltac:(lia) ltac:(lia)) as H22.
    pose proof (Hmatch 3 3 ltac:(lia) ltac:(lia)) as H33.
    cbn in H00, H01, H11, H15, H22, H33.
    unfold isSimpleInsertionOrDeletion, checkSimpleInsertionAnywhere,
      testInsertionAtPosition. cbn.
    rewrite H01. cbn. rewrite H00, H15. cbn. rewrite H11, H22, H33.
    reflexivity.
  - pose proof (Hmatch 0 0 ltac:(lia) ltac:(lia)) as H00.
    pose proof (Hmatch 2 0 ltac:(lia) ltac:(lia)) as H20.
    pose proof (Hmatch 3 3 ltac:(lia) ltac:(lia)) as H33.
    pose proof (Hmatch 4 4 ltac:(lia) ltac:(lia)) as H44.
    cbn in H00, H20, H33, H44.
    unfold isSimpleInsertionOrDeletion, checkMultipleDeletionsAnywhere,
      testDeletionAtPosition. cbn.
    rewrite H20. cbn. rewrite H00, H33, H44. reflexivity.
Qed.

Lemma isSimpleInsertionOrDeletion_lowest_position_witness :
  isSimpleInsertionOrDeletion
    [Text 1 "A"; Text 2 "B"; Text 3 "C"; Text 4 "D"]
    [Text 11 "A"; Text 12 "B"; Text 16 "X"; Text 13 "C"; Text 14 "D"]
  = Some (mkChange insertion 2 1) /\
  isSimpleInsertionOrDeletion
    [Text 1 "A"; Text 2 "B"; Text 3 "C"; Text 4 "D"; Text 5 "E"]
    [Text 11 "A"; Text 14 "D"; Text 15 "E"]
  = Some (mkChange deletion 1 2).
Proof.
  apply (isSimpleInsertionOrDeletion_lowest_position
           (Text 1 "A") (Text 2 "B") (Text 3 "C") (Text 4 "D") (Text 5 "E")
           (Text 11 "A") (Text 12 "B") (Text 13 "C") (Text 14 "D")
           (Text 15 "E") (Text 16 "X")).
  intros i j Hi Hj.
  do 5 (destruct i as [|i];
        [do 6 (destruct j as [|j]; [reflexivity|]); lia|]).
  lia.
Defined.

Lemma heavy_count_positive children :
  containsHeavy children ->
  (0 <? List.length
          (filter (fun child => NodeUtils.isHeavyElement (Some child))
                  children)) = true.
Proof.
  intros (c & Hin & Hc). apply Nat.ltb_lt.
  assert (H : In c (filter (fun child => NodeUtils.isHeavyElement (Some child))
                           children))
    by (apply filter_In; split; assumption).
  destruct (filter _ children); [contradiction|simpl; lia].
Qed.

(** C2, as the code has it.  When the two children lists differ in length by
    at most ten and one of them contains a heavy element,
    [shouldReplaceAllChildren] answers false, and [compareChildren] then
    handles the lists by structural detection or by the index-aligned
    comparison, never by replacing all children.  A length difference above
    ten selects full replacement before heavy elements are looked at. *)
Theorem shouldReplaceAllChildren_heavy (old new : list node)
  (Hlen : (lengthDiff old new <= 10)%Z)
  (Hheavy : containsHeavy old \/ containsHeavy new) :
  shouldReplaceAllChildren old new = false /\
  (forall rec i t a i' t' a' path,
     compareChildren rec (Element i t a old) (Element i' t' a' new) path =
     match isSimpleInsertionOrDeletion old new with
     | Some sc =>
         handleStructuralChange rec old new (Element i t a old) path sc
     | None => compareIncrementally rec (Element i t a old) old new path
     end) /\
  (forall old' new',
     (10 < lengthDiff old' new')%Z ->
     shouldReplaceAllChildren old' new' = true).
Proof.
  assert (E : shouldReplaceAllChildren old new = false).
  { unfold shouldReplaceAllChildren. fold (lengthDiff old new).
    replace (10 <? lengthDiff old new)%Z with false
      by (symmetry; apply Z.ltb_ge; exact Hlen).
    destruct Hheavy as [H|H]; apply heavy_count_positive in H; rewrite H;
      [reflexivity | rewrite orb_true_r; reflexivity]. }
  split; [exact E|]. split.
  - intros. unfold compareChildren. cbn [childNodes]. rewrite E. reflexivity.
  - intros old' new' H. unfold shouldReplaceAllChildren.
    fold (lengthDiff old' new').
    apply Z.ltb_lt in H. rewrite H. reflexivity.
Qed.

Lemma shouldReplaceAllChildren_heavy_witness :
  shouldReplaceAllChildren [videoPlayer; Text 51 "caption"] [videoPlayer]
  = false.
Proof.
  apply (shouldReplaceAllChildren_heavy
           [videoPlayer; Text 51 "caption"] [videoPlayer]).
  - vm_compute. discriminate.
  - left. exists videoPlayer. split; [left; reflexivity | reflexivity].
Defined.

(** C2 fails as stated: a list holding a heavy element and eleven text nodes,
    compared with the empty list, is replaced as a whole, and the differ
    emits a [removeChild] for the heavy child. *)
Lemma shouldReplaceAllChildren_heavy_counterexample :
  NodeUtils.isHeavyElement (Some videoPlayer) = true /\
  shouldReplaceAllChildren (childNodes gallery) (childNodes emptyGallery)
  = true /\
  exists changes next,
    compareElements (Some gallery) (Some emptyGallery) "" 100
    = (Ok changes, next) /\
    In (removeChild "div" gallery videoPlayer 0) changes.
Proof.
  split; [reflexivity|]. split; [reflexivity|].
  eexists. eexists. split; [vm_compute; reflexivity|].
  do 11 right. left. reflexivity.
Qed.

(** C3, as the code has it.  When the old element is heavy, comparing it
    with an element of the same tag stops at once: no attribute diff and no
    child operation is emitted, whatever the new element is.  The new
    element's heaviness alone does not stop the comparison. *)
Theorem compareElements_heavy_old
  (i i' : nat) (tag : string) (a a' : list (string * string))
  (cs cs' : list node) (path : string) (next : nat)
  (Hheavy : NodeUtils.isHeavyElement (Some (Element i tag a cs)) = true) :
  compareElements (Some (Element i tag a cs)) (Some (Element i' tag a' cs'))
                  path next
  = (Ok [], next).
Proof.
  unfold compareElements. simpl.
  rewrite String.eqb_refl. simpl. rewrite Hheavy. reflexivity.
Qed.

Lemma compareElements_heavy_old_witness :
  compareElements
    (Some (Element 50 "VIDEO" [("src", "clip.mp4")] []))
    (Some (Element 70 "VIDEO" [("src", "other.mp4"); ("controls", "")]
                   [Text 71 "fallback"]))
    "" 100
  = (Ok [], 100).
Proof.
  apply compareElements_heavy_old. reflexivity.
Defined.

(** C3 fails as stated: with a light old image and a heavy new image of the
    same tag the comparison goes on and emits an attribute update. *)
Lemma compareElements_heavy_new_counterexample :
  NodeUtils.isHeavyElement (Some plainImage) = false /\
  NodeUtils.isHeavyElement (Some blobImage) = true /\
  compareElements (Some plainImage) (Some blobImage) "" 100
  = (Ok [updateAttributes "img" plainImage
           [NodeComparator.mkAttrChange "src" (Some "a.png")
                                        (Some "blob:xyz")]],
     100).
Proof.
  repeat split; reflexivity.
Qed.

(** ** What the differ puts into its operations *)

Lemma cloneNode_Element i t a cs s :
  cloneNode (Element i t a cs) s =
  let (cs', s') := cloneList cs (S s) in (Element s t a cs', s').
Proof. reflexivity. Qed.

Lemma cloneNode_spec n :
  forall s, exists c s',
    cloneNode n s = (c, s') /\ s < s' /\ shape c = shape n /\
    forall i, In i (ids c) -> s <= i < s'.
Proof.
  induction n as [i d|i d|i t a cs IH] using node_induction; intros s.
  - exists (Text s d), (S s). simpl. repeat split; try lia.
  - exists (Comment s d), (S s). simpl. repeat split; try lia.
  - assert (L : forall s0, exists cs' s',
               cloneList cs s0 = (cs', s') /\ s0 <= s' /\
               map shape cs' = map shape cs /\
               forall i, In i (flat_map ids cs') -> s0 <= i < s').
    { clear s. induction IH as [|c cs Hc _ IHcs]; intros s0.
      - exists [], s0. simpl. repeat split; try lia; contradiction.
      - destruct (Hc s0) as (c' & s1 & E1 & L1 & S1 & I1).
        destruct (IHcs s1) as (cs' & s2 & E2 & L2 & S2 & I2).
        exists (c' :: cs'), s2. simpl. rewrite E1, E2. simpl.
        rewrite S1, S2. repeat split; try lia;
          apply in_app_or in H as [H|H];
          [apply I1 in H | apply I2 in H | apply I1 in H | apply I2 in H];
          lia. }
    destruct (L (S s)) as (cs' & s' & E & Hl & Hs & Hi).
    exists (Element s t a cs'), s'. rewrite cloneNode_Element, E. simpl.
    rewrite Hs. repeat split; try lia;
      destruct H as [<-|H]; try lia; apply Hi in H; lia.
Qed.

Lemma wellFormed_widen Pold Pnew lo hi lo' hi' c :
  lo' <= lo -> hi <= hi' ->
  wellFormed Pold Pnew lo hi c -> wellFormed Pold Pnew lo' hi' c.
Proof.
  intros Hlo Hhi [Hr Hi]. split; [exact Hr|].
  intros n Hn. destruct (Hi n Hn) as [Hm Hb]. split; [exact Hm|].
  intros i Hin. apply Hb in Hin. lia.
Qed.

Lemma safe_ret_nil Pold Pnew : safe Pold Pnew (ret []).
Proof. intros s. exists [], s. repeat split; auto. Qed.

Lemma safe_ret_refs Pold Pnew c :
  inserted c = None -> (forall r, In r (referenced c) -> Pold r) ->
  safe Pold Pnew (ret [c]).
Proof.
  intros Hi Hr s. exists [c], s. repeat split; auto.
  constructor; [|constructor]. split; [exact Hr|].
  intros n Hn. congruence.
Qed.

Lemma safe_clone Pold Pnew n (op : node -> change) :
  Pnew n ->
  (forall c, inserted (op c) = Some c) ->
  (forall c r, In r (referenced (op c)) -> Pold r) ->
  safe Pold Pnew (bind (clone n) (fun c => ret [op c])).
Proof.
  intros Hn Hop Hr s. unfold bind, clone.
  destruct (cloneNode_spec n s) as (c & s' & E & Hl & Hs & Hi).
  rewrite E. exists [op c], s'. repeat split; try lia.
  constructor; [|constructor]. split; [apply Hr|].
  intros k Hk. rewrite Hop in Hk. inversion Hk; subst k.
  split; [exists n; auto | exact Hi].
Qed.

Lemma safe_append Pold Pnew (m1 m2 : Diff (list change)) :
  safe Pold Pnew m1 -> safe Pold Pnew m2 ->
  safe Pold Pnew (bind m1 (fun cs => bind m2 (fun ds => ret (cs ++ ds)))).
Proof.
  intros H1 H2 s. unfold bind.
  destruct (H1 s) as (cs & s1 & E1 & L1 & F1). rewrite E1.
  destruct (H2 s1) as (ds & s2 & E2 & L2 & F2). rewrite E2.
  exists (cs ++ ds), s2. repeat split; try lia.
  apply Forall_app. split.
  - eapply Forall_impl; [|exact F1].
    intros c. apply wellFormed_widen; lia.
  - eapply Forall_impl; [|exact F2].
    intros c. apply wellFormed_widen; lia.
Qed.

Lemma safe_prepend Pold Pnew cs (m : Diff (list change)) :
  Forall (fun c => inserted c = None /\
                   forall r, In r (referenced c) -> Pold r) cs ->
  safe Pold Pnew m ->
  safe Pold Pnew (bind m (fun ds => ret (cs ++ ds))).
Proof.
  intros Hcs Hm s. unfold bind.
  destruct (Hm s) as (ds & s' & E & L & F). rewrite E.
  exists (cs ++ ds), s'. repeat split; try lia.
  apply Forall_app. split; [|exact F].
  eapply Forall_impl; [|exact Hcs].
  intros c [Hi Hr]. split; [exact Hr|]. intros n Hn. congruence.
Qed.

Lemma safe_pushEach {A} Pold Pnew (xs : list A) body :
  (forall x, In x xs -> safe Pold Pnew (body x)) ->
  safe Pold Pnew (pushEach xs body).
Proof.
  induction xs as [|x xs IH]; intros H; simpl.
  - apply safe_ret_nil.
  - apply safe_append; [apply H; left; reflexivity|].
    apply IH. intros y Hy. apply H. right. exact Hy.
Qed.

Lemma safe_weaken (Pold Pnew Qold Qnew : node -> Prop) m :
  (forall n, Pold n -> Qold n) -> (forall n, Pnew n -> Qnew n) ->
  safe Pold Pnew m -> safe Qold Qnew m.
Proof.
  intros Ho Hn Hm s. destruct (Hm s) as (cs & s' & E & L & F).
  exists cs, s'. repeat split; auto.
  eapply Forall_impl; [|exact F].
  intros c [Hr Hi]. split; [intros r Hin; apply Ho, Hr, Hin|].
  intros n Hc. destruct (Hi n Hc) as [(m0 & Hm0 & Hs) Hb].
  split; [exists m0; auto | exact Hb].
Qed.

Section ChildrenSafe.

Variable rec : option node -> option node -> string -> Diff (list change).
Variables (Pold Pnew : node -> Prop).
Variables (parent : node) (olds news : list node).
Hypothesis Hparent : Pold parent.
Hypothesis Holds : forall o, In o olds -> Pold o.
Hypothesis Hnews : forall n, In n news -> Pnew n.
Hypothesis Hrec : forall o n p,
  In o olds -> In n news -> safe Pold Pnew (rec (Some o) (Some n) p).

Lemma safe_compareUnlessSkipped i j p :
  i < List.length olds -> j < List.length news ->
  safe Pold Pnew
       (compareUnlessSkipped rec (nth_error olds i) (nth_error news j) p).
Proof.
  intros Hi Hj.
  destruct (nth_error olds i) as [o|] eqn:Eo;
    [|apply nth_error_None in Eo; lia].
  destruct (nth_error news j) as [n|] eqn:En;
    [|apply nth_error_None in En; lia].
  apply nth_error_In in Eo, En.
  unfold compareUnlessSkipped, shouldSkipComparison.
  match goal with |- context [if ?b then Ok true else _] => destruct b end.
  - intros s. exists [], s. repeat split; auto.
  - match goal with |- context [Ok ?b] => destruct b end.
    + intros s. exists [], s. repeat split; auto.
    + intros s. unfold bind, lift. cbn [negb]. apply Hrec; assumption.
Qed.

Lemma safe_handleStructuralChange path sc :
  isSimpleInsertionOrDeletion olds news = Some sc ->
  safe Pold Pnew (handleStructuralChange rec olds news parent path sc).
Proof.
  intros H. apply detection_sound in H as (Hshape & Hcount & _ & _).
  unfold handleStructuralChange, compareRemainingChildren.
  destruct (StructuralComparator.type sc); destruct Hshape as [Hlen Hpos].
  - apply safe_append.
    + apply safe_pushEach. intros i Hi. apply in_seq in Hi.
      destruct (nth_error news (position sc + i)) as [n|] eqn:En;
        [|apply nth_error_None in En; lia].
      apply nth_error_In in En.
      apply safe_clone; [apply Hnews, En | reflexivity |].
      intros c r [<-|[]]. exact Hparent.
    + apply safe_append; apply safe_pushEach; intros i Hi;
        apply in_seq in Hi; apply safe_compareUnlessSkipped; lia.
  - apply safe_prepend.
    + apply Forall_flat_map. apply Forall_forall. intros i Hi.
      destruct (nth_error olds (position sc + i)) as [o|] eqn:Eo;
        [|constructor].
      apply nth_error_In in Eo. constructor; [|constructor].
      split; [reflexivity|]. intros r [<-|[<-|[]]]; auto.
    + apply safe_append; apply safe_pushEach; intros i Hi;
        apply in_seq in Hi; apply safe_compareUnlessSkipped; lia.
Qed.

Lemma safe_replaceAllChildren path :
  safe Pold Pnew (replaceAllChildren parent olds news path).
Proof.
  unfold replaceAllChildren. apply safe_prepend.
  - apply Forall_flat_map. apply Forall_forall. intros i Hi.
    destruct (nth_error olds i) as [o|] eqn:Eo; [|constructor].
    apply nth_error_In in Eo. constructor; [|constructor].
    split; [reflexivity|]. intros r [<-|[<-|[]]]; auto.
  - apply safe_pushEach. intros i Hi.
    destruct (nth_error news i) as [n|] eqn:En; [|apply safe_ret_nil].
    apply nth_error_In in En.
    apply safe_clone; [apply Hnews, En | reflexivity |].
    intros c r [<-|[]]. exact Hparent.
Qed.

Lemma safe_compareIncrementally path :
  safe Pold Pnew (compareIncrementally rec parent olds news path).
Proof.
  unfold compareIncrementally. apply safe_pushEach. intros i Hi.
  destruct (nth_error olds i) as [o|] eqn:Eo;
    destruct (nth_error news i) as [n|] eqn:En;
    try apply nth_error_In in Eo; try apply nth_error_In in En.
  - apply Hrec; assumption.
  - apply safe_ret_refs; [reflexivity|]. intros r [<-|[<-|[]]]; auto.
  - apply safe_clone; [apply Hnews, En | reflexivity |].
    intros c r [<-|[]]. exact Hparent.
  - apply safe_ret_nil.
Qed.

End ChildrenSafe.

Lemma partOf_child i t a cs c n :
  In c cs -> inclusive_descendant n c ->
  inclusive_descendant n (Element i t a cs).
Proof. intros Hc Hn. eapply desc_child; eassumption. Qed.

Lemma compareElements_fuel_safe fuel :
  forall old new path, depth old < fuel ->
    safe (fun n => partOf n old) (fun n => partOf n new)
         (compareElements_fuel fuel old new path).
Proof.
  induction fuel as [|fuel IH]; intros old new path Hf; [lia|].
  cbn [compareElements_fuel]. unfold compareElements_body.
  destruct old as [o|], new as [n|].
  - destruct (negb (nodeType o =? nodeType n)) eqn:Et.
    { apply safe_clone; [apply desc_self | reflexivity |].
      intros c r [<-|[]]. apply desc_self. }
    destruct (nodeType o =? TEXT_NODE).
    { destruct (negb (textContent o === textContent n));
        [|apply safe_ret_nil].
      apply safe_ret_refs; [reflexivity|].
      intros r [<-|[]]. apply desc_self. }
    destruct (nodeType o =? ELEMENT_NODE) eqn:Ee; [|apply safe_ret_nil].
    destruct (negb (option_eqb String.eqb (tagName o) (tagName n))).
    { apply safe_clone; [apply desc_self | reflexivity |].
      intros c r [<-|[]]. apply desc_self. }
    destruct (NodeUtils.isHeavyElement (Some o)); [apply safe_ret_nil|].
    apply safe_prepend.
    { destruct (0 <? _); constructor; [|constructor].
      split; [reflexivity|]. intros r [<-|[]]. apply desc_self. }
    apply negb_false_iff, Nat.eqb_eq in Et.
    destruct o as [| |i t a cs]; try discriminate.
    destruct n as [| |i' t' a' cs']; try discriminate.
    assert (Hrec : forall c c' p, In c cs -> In c' cs' ->
              safe (fun x => partOf x (Some (Element i t a cs)))
                   (fun x => partOf x (Some (Element i' t' a' cs')))
                   (compareElements_fuel fuel (Some c) (Some c') p)).
    { intros c c' p Hc Hc'.
      eapply safe_weaken; [| |apply IH].
      - intros x Hx. eapply partOf_child; eassumption.
      - intros x Hx. eapply partOf_child; eassumption.
      - pose proof (height_child i t a cs c Hc). simpl in *. lia. }
    unfold compareChildren. cbn [childNodes].
    destruct (isSimpleInsertionOrDeletion cs cs') as [sc|] eqn:Es.
    + apply safe_handleStructuralChange; auto.
      * apply desc_self.
      * intros c Hc. eapply partOf_child; [eassumption|apply desc_self].
      * intros c Hc. eapply partOf_child; [eassumption|apply desc_self].
    + destruct (shouldReplaceAllChildren cs cs').
      * apply safe_replaceAllChildren.
        -- apply desc_self.
        -- intros c Hc. eapply partOf_child; [eassumption|apply desc_self].
        -- intros c Hc. eapply partOf_child; [eassumption|apply desc_self].
      * apply safe_compareIncrementally; auto.
        -- apply desc_self.
        -- intros c Hc. eapply partOf_child; [eassumption|apply desc_self].
        -- intros c Hc. eapply partOf_child; [eassumption|apply desc_self].
  - apply safe_ret_refs; [reflexivity|]. intros r [<-|[]]. apply desc_self.
  - apply safe_clone; [apply desc_self | reflexivity |].
    intros c r [].
  - apply safe_ret_nil.
Qed.

(** The budget of [compareElements] is never exhausted and no access goes
    out of range: the differ returns normally on every pair of trees. *)
Lemma compareElements_returns old new path next :
  exists changes next', compareElements old new path next = (Ok changes, next').
Proof.
  destruct (compareElements_fuel_safe (S (depth old)) old new path
              (Nat.lt_succ_diag_r _) next) as (cs & s' & E & _).
  exists cs, s'. exact E.
Qed.

(** ** Patcher *)

(** C1 fails on the code.  The table gives [removeChild] the number 0, which
    [order[a.type] || 10] turns into 10, the number of unknown types: a
    [removeChild] compares greater than every operation of another known
    type, so the stable sort puts it after them, and [applyChanges] runs an
    [insertChild] before a [removeChild] that precedes it in the batch.  On
    the sample batch the tree this leaves differs from the tree left by
    running the removal first. *)
Theorem applyChanges_removeChild_sorts_last :
  orDefault (order "removeChild") 10 = 10%Z /\
  (forall path parent child index c,
     In (Changes.type c) otherKnownTypes ->
     (0 < compareChanges (removeChild path parent child index) c)%Z /\
     sortedChanges [removeChild path parent child index; c]
     = [c; removeChild path parent child index]) /\
  sortedChanges [removeStale; insertFresh] = [insertFresh; removeStale] /\
  dom (snd (applyChanges None [removeStale; insertFresh]
                         (mkWorld board 100 [])))
  = Element 1 "DIV" [] [Text 50 "fresh"; Element 3 "P" [] []] /\
  dom (snd (bind (applyChange None removeStale)
                 (fun _ => applyChange None insertFresh)
                 (mkWorld board 100 [])))
  = Element 1 "DIV" [] [Element 3 "P" [] []; Text 50 "fresh"].
Proof.
  split; [reflexivity|]. split; [|repeat split; reflexivity].
  intros path parent child index c Hc.
  assert (H : (0 < compareChanges (removeChild path parent child index) c)%Z).
  { unfold compareChanges. cbn [Changes.type].
    change (operand "removeChild") with (Some 10%Z).
    simpl in Hc.
    repeat (destruct Hc as [<-|Hc]; [vm_compute; reflexivity|]).
    contradiction. }
  split; [exact H|].
  unfold sortedChanges, sort. cbn [fold_left insertFromRight].
  apply Z.ltb_lt in H. rewrite H. reflexivity.
Qed.

(** C9.  [handleInsert] leaves the store as it is, and returns normally,
    whenever the child now at the target index is a text node whose content
    is the content of the new text child, or an element whose lower-cased
    tag is the tag of the new element child.  Nothing else of the two is
    compared: the attributes and children of the existing element, the
    description node's attributes and children, and the template are
    arbitrary. *)
Theorem handleInsert_skips_lookalike
  (processMediaElement : option (node -> node))
  (newIndex : nat) (newChild : VDom.vnode) (newRealChild : option node)
  (w : world) (existing : node)
  (Hexisting : nth_error (childNodes (dom w)) newIndex = Some existing)
  (Hsame :
     (VDom.type newChild = "text" /\
      exists i data, existing = Text i data /\
                     VDom.content newChild = Some data) \/
     (VDom.type newChild = "element" /\
      exists i tag attrs children,
        existing = Element i tag attrs children /\
        VDom.tagName newChild = Some (toLowerCase tag))) :
  handleInsert processMediaElement newIndex newChild newRealChild w
  = (Ok tt, w).
Proof.
  unfold handleInsert, bind, getChildNodes. rewrite Hexisting.
  destruct Hsame
    as [(Ht & i & data & -> & Hc) | (Ht & i & tag & a & cs & -> & Hn)].
  - rewrite Ht, Hc. simpl. rewrite String.eqb_refl. reflexivity.
  - rewrite Ht, Hn. simpl. rewrite String.eqb_refl. reflexivity.
Qed.

Lemma handleInsert_skips_lookalike_witness :
  handleInsert None 0 paragraph
               (Some (Element 21 "P" [("class", "new")] [Text 22 "new text"]))
               (mkWorld article 100 [])
  = (Ok tt, mkWorld article 100 []).
Proof.
  apply (handleInsert_skips_lookalike None 0 paragraph _ _
           (Element 11 "P" [("class", "old")] [Text 12 "old text"])).
  - reflexivity.
  - right. split; [reflexivity|].
    exists 11, "P", [("class", "old")], [Text 12 "old text"].
    split; reflexivity.
Defined.

Lemma cloneNode_nid n s : nid (fst (cloneNode n s)) = s.
Proof.
  destruct n; [reflexivity|reflexivity|].
  rewrite cloneNode_Element. destruct (cloneList _ _). reflexivity.
Qed.

Lemma isChild_middle before live after ref :
  nid live = nid ref -> isChild (before ++ live :: after) ref = true.
Proof.
  intros H. unfold isChild. rewrite existsb_app. simpl.
  unfold sameNode at 2. rewrite H, Nat.eqb_refl.
  rewrite orb_true_r. reflexivity.
Qed.

Lemma replaceIn_middle before live after new ref :
  nid live = nid ref ->
  (forall c, In c before -> nid c <> nid ref) ->
  replaceIn (before ++ live :: after) new ref = before ++ new :: after.
Proof.
  intros Hl. induction before as [|b before IH]; intros Hb; simpl.
  - unfold sameNode. rewrite Hl, Nat.eqb_refl. reflexivity.
  - unfold sameNode at 1.
    replace (nid b =? nid ref) with false
      by (symmetry; apply Nat.eqb_neq, Hb; left; reflexivity).
    rewrite IH; [reflexivity|]. intros c Hc. apply Hb. right. exact Hc.
Qed.

Lemma updateIn_other cs ref f :
  (forall c, In c cs -> nid c <> nid ref) -> updateIn cs ref f = cs.
Proof.
  intros H. unfold updateIn. induction cs as [|c cs IH]; simpl; [reflexivity|].
  unfold sameNode at 1.
  replace (nid c =? nid ref) with false
    by (symmetry; apply Nat.eqb_neq, H; left; reflexivity).
  rewrite IH; [reflexivity|]. intros x Hx. apply H. right. exact Hx.
Qed.

Lemma updateIn_middle before after ref f :
  (forall c, In c (before ++ after) -> nid c <> nid ref) ->
  updateIn (before ++ ref :: after) ref f = before ++ f ref :: after.
Proof.
  intros H. unfold updateIn. rewrite map_app. simpl.
  unfold sameNode at 2. rewrite Nat.eqb_refl.
  fold (updateIn before ref f). fold (updateIn after ref f).
  rewrite !updateIn_other; [reflexivity| |];
    intros c Hc; apply H, in_or_app; auto.
Qed.

(** C6, as the code has it.  For a matched pair with a live node, either side
    immutable, and attribute maps on both sides: when the two
    (data-raw, data-language) pairs agree, [handleUpdate] leaves the store
    as it is; when they differ and there is no template node, it again
    leaves the store as it is; when they differ and a template is given,
    the live node's slot among the parent's children receives the
    post-processed clone of the template and nothing else of the parent
    changes.  [this.patchNode] is not called in any of these cases. *)
Theorem handleUpdate_immutable
  (processMediaElement : option (node -> node))
  (this_patchNode :
     option VDom.vnode -> option VDom.vnode -> option node -> Patch unit)
  (newIndex : nat) (entry : oldEntry) (newChild : VDom.vnode)
  (newRealChild : option node) (w : world)
  (live : node) (oldAttrs newAttrs : list (string * string))
  (Hlive : realNode entry = Some live)
  (Himmutable :
     VDom._immutable newChild || VDom._immutable (vNode entry) = true)
  (Hold : VDom.attributes (vNode entry) = Some oldAttrs)
  (Hnew : VDom.attributes newChild = Some newAttrs) :
  (sameContentIdentity oldAttrs newAttrs = true ->
   handleUpdate processMediaElement this_patchNode newIndex entry newChild
                newRealChild w
   = (Ok tt, w)) /\
  (sameContentIdentity oldAttrs newAttrs = false ->
   newRealChild = None ->
   handleUpdate processMediaElement this_patchNode newIndex entry newChild
                newRealChild w
   = (Ok tt, w)) /\
  (sameContentIdentity oldAttrs newAttrs = false ->
   forall template i tag attrs before current after,
     newRealChild = Some template ->
     dom w = Element i tag attrs (before ++ current :: after) ->
     nid current = nid live ->
     (forall c, In c before -> nid c <> nid live) ->
     (forall c, In c (before ++ after) -> nid c < next w) ->
     handleUpdate processMediaElement this_patchNode newIndex entry newChild
                  newRealChild w
     = (Ok tt,
        mkWorld
          (Element i tag attrs
             (before
              ++ MediaProcessor.processNewNodeMedia processMediaElement
                   (fst (cloneNode template (next w)))
              :: after))
          (snd (cloneNode template (next w)))
          (console w))).
Proof.
  unfold sameContentIdentity, contentIdentity. cbn [fst snd].
  assert (E :
    handleUpdate processMediaElement this_patchNode newIndex entry newChild
                 newRealChild w
    = (if (orEmpty (lookupAttr oldAttrs "data-raw")
           === orEmpty (lookupAttr newAttrs "data-raw")) &&
          (orEmpty (lookupAttr oldAttrs "data-language")
           === orEmpty (lookupAttr newAttrs "data-language"))
       then ret tt
       else
         match newRealChild with
         | Some template =>
             bind (cloneTemplate template) (fun clonedNode =>
             bind (replaceChild clonedNode live) (fun _ =>
             processNewNodeMedia processMediaElement clonedNode))
         | None => ret tt
         end) w).
  { unfold handleUpdate. rewrite Hlive, Himmutable.
    unfold NodeComparator.attr. rewrite Hold, Hnew. reflexivity. }
  rewrite E. clear E.
  split; [|split].
  - intros ->. reflexivity.
  - intros -> ->. reflexivity.
  - intros -> template i tag attrs before current after -> Hdom Hcur Hbefore
      Hfresh.
    unfold bind, cloneTemplate.
    pose proof (cloneNode_nid template (next w)) as Hid.
    destruct (cloneNode template (next w)) as [c k] eqn:Ec.
    cbn [fst snd] in *.
    unfold replaceChild, bind, requireContainer, getChildNodes, setChildren,
      modify. cbn [dom next console]. rewrite Hdom.
    cbn [dom next console childNodes].
    rewrite (isChild_middle before current after live Hcur). cbn [negb].
    cbn [dom next console withChildNodes].
    rewrite (replaceIn_middle before current after c live Hcur Hbefore).
    unfold processNewNodeMedia, updateChild, bind, getChildNodes,
      setChildren, modify. cbn [dom next console childNodes withChildNodes].
    rewrite updateIn_middle; [reflexivity|].
    intros x Hx. apply Hfresh in Hx. lia.
Qed.

Lemma handleUpdate_immutable_witness :
  handleUpdate None (fun _ _ _ => ret tt) 1 matchedPre (codeBlock "let x")
               (Some templatePre) (mkWorld page 100 [])
  = (Ok tt, mkWorld page 100 []) /\
  handleUpdate None (fun _ _ _ => ret tt) 1 matchedPre (codeBlock "let y")
               (Some templatePre) (mkWorld page 100 [])
  = (Ok tt,
     mkWorld (Element 10 "DIV" []
                [Text 13 "intro";
                 Element 100 "PRE" [("data-immutable", "true")]
                         [Text 101 "let y"]])
             102 []).
Proof.
  split.
  - destruct (handleUpdate_immutable None (fun _ _ _ => ret tt) 1 matchedPre
                (codeBlock "let x") (Some templatePre) (mkWorld page 100 [])
                livePre [("data-raw", "let x"); ("data-language", "js")]
                [("data-raw", "let x"); ("data-language", "js")]
                eq_refl eq_refl eq_refl eq_refl) as (Hsame & _ & _).
    apply Hsame. reflexivity.
  - destruct (handleUpdate_immutable None (fun _ _ _ => ret tt) 1 matchedPre
                (codeBlock "let y") (Some templatePre) (mkWorld page 100 [])
                livePre [("data-raw", "let x"); ("data-language", "js")]
                [("data-raw", "let y"); ("data-language", "js")]
                eq_refl eq_refl eq_refl eq_refl) as (_ & _ & Hdiffer).
    apply (Hdiffer eq_refl templatePre 10 "DIV" [] [Text 13 "intro"] livePre
                   []); try reflexivity.
    + intros c [<-|[]]. simpl. lia.
    + intros c [<-|[]]. simpl. lia.
Defined.

(** C6 fails as stated: with differing content-identity pairs and no
    template node for the new child, [handleUpdate] replaces nothing and the
    live node stays as it was. *)
Lemma handleUpdate_immutable_counterexample :
  VDom._immutable (codeBlock "let y") = true /\
  sameContentIdentity [("data-raw", "let x"); ("data-language", "js")]
                      [("data-raw", "let y"); ("data-language", "js")]
  = false /\
  handleUpdate None (fun _ _ _ => ret tt) 1 matchedPre (codeBlock "let y")
               None (mkWorld page 100 [])
  = (Ok tt, mkWorld page 100 []).
Proof.
  repeat split; reflexivity.
Qed.

Lemma forEachTry_attempts {A} (run : A -> Patch unit) (label : A -> string)
      (xs : list A) :
  forall w,
    forEachTry xs run (fun x e => console_error (label x) e) w
    = (Ok tt, fold_left (fun w x => attempt run label x w) xs w).
Proof.
  induction xs as [|x xs IH]; intros w; simpl; [reflexivity|].
  unfold bind at 1, try_catch, attempt.
  destruct (run x w) as [[[]|e] w']; simpl; apply IH.
Qed.

(** C8.  Both batch loops return normally whatever their operations do.
    [applyChanges] attempts every change of the sorted batch in turn, each
    from the state its predecessor left, and an exception thrown by one of
    them is recorded on the console before the next one runs.  Once the
    operations of a reconciliation are planned, [keyBasedPatch] does the same
    with every operation of the sorted plan. *)
Theorem batch_failures_are_isolated
  (processMediaElement : option (node -> node))
  (this_patchNode :
     option VDom.vnode -> option VDom.vnode -> option node -> Patch unit)
  (changes : list change)
  (oldChildren newChildren : list (option VDom.vnode))
  (newRealChildren : list node) (operations : list operation) (w : world)
  (Hplan : planOperations (childNodes (dom w)) oldChildren newChildren
                          newRealChildren = Ok operations) :
  applyChanges processMediaElement changes w
  = (Ok tt,
     fold_left (fun w c => attempt (applyChange processMediaElement)
                                   changeLabel c w)
               (sortedChanges changes) w) /\
  keyBasedPatch processMediaElement this_patchNode oldChildren newChildren
                newRealChildren w
  = (Ok tt,
     fold_left (fun w op =>
                  attempt (executeOperation processMediaElement this_patchNode)
                          operationLabel op w)
               (sort compareOperations operations) w).
Proof.
  split.
  - unfold applyChanges. apply forEachTry_attempts.
  - unfold keyBasedPatch, bind, getChildNodes, liftResult.
    rewrite Hplan. apply forEachTry_attempts.
Qed.

(** Two matched elements and no template node: each update throws when it
    reaches the absent template, each exception is logged, and the loop goes
    on to the end. *)
Lemma batch_failures_are_isolated_witness :
  keyBasedPatch None (fun _ _ _ => ret tt)
                [Some (plainElement "p" [] []);
                 Some (plainElement "span" [] [])]
                [Some (plainElement "p" [("a", "1")] []);
                 Some (plainElement "span" [("b", "2")] [])]
                [] (mkWorld twoBlocks 100 [])
  = (Ok tt,
     mkWorld twoBlocks 100
       [("Error executing update operation:", undefinedRead "nodeType");
        ("Error executing update operation:", undefinedRead "nodeType")]).
Proof.
  destruct (batch_failures_are_isolated None (fun _ _ _ => ret tt) []
              [Some (plainElement "p" [] []); Some (plainElement "span" [] [])]
              [Some (plainElement "p" [("a", "1")] []);
               Some (plainElement "span" [("b", "2")] [])]
              [] _ (mkWorld twoBlocks 100 []) eq_refl) as [_ H].
  rewrite H. reflexivity.
Defined.

(** ** Key maps *)

Lemma append_inj_l (a b c : string) : (a ++ b = a ++ c)%string -> b = c.
Proof.
  induction a as [|x a IH]; simpl; intros H; [exact H|].
  inversion H. auto.
Qed.

Lemma append_length (a b : string) :
  String.length (a ++ b) = String.length a + String.length b.
Proof.
  induction a as [|x a IH]; simpl; [reflexivity|]. rewrite IH. reflexivity.
Qed.

Lemma string_of_nat_inj n m : string_of_nat n = string_of_nat m -> n = m.
Proof.
  unfold string_of_nat. intros H.
  assert (E : Some (Nat.to_uint n) = Some (Nat.to_uint m)).
  { rewrite <- !NilEmpty.usu. rewrite H. reflexivity. }
  inversion E as [E'].
  rewrite <- (Unsigned.of_to n), <- (Unsigned.of_to m), E'. reflexivity.
Qed.

Lemma candidate_inj key i j : candidate key i = candidate key j -> i = j.
Proof.
  unfold candidate, dupKey.
  destruct i as [|i], j as [|j]; intros H; [reflexivity| | |].
  - apply (f_equal String.length) in H. rewrite append_length in H.
    simpl in H. lia.
  - apply (f_equal String.length) in H. rewrite append_length in H.
    simpl in H. lia.
  - apply append_inj_l in H. apply (append_inj_l "-dup") in H.
    apply string_of_nat_inj in H. exact H.
Qed.

Lemma Map_has_In {V} (m : Map V) k :
  Map_has m k = true <-> In k (Map_keys m).
Proof.
  unfold Map_has, Map_keys.
  induction m as [|[k' v] m IH]; simpl; [split; [discriminate|tauto]|].
  destruct (k' =? k)%string eqn:E.
  - apply String.eqb_eq in E. split; auto.
  - apply String.eqb_neq in E. rewrite IH. split; [auto|].
    intros [H|H]; [contradiction|exact H].
Qed.

Lemma Map_set_fresh {V} (m : Map V) k v :
  Map_has m k = false -> Map_set m k v = m ++ [(k, v)].
Proof.
  unfold Map_has.
  induction m as [|[k' v'] m IH]; simpl; [reflexivity|].
  destruct (k' =? k)%string; [discriminate|].
  intros H. rewrite IH by exact H. reflexivity.
Qed.

Lemma uniqueKey_steps {V} (m : Map V) key fuel :
  forall counter,
    match uniqueKey m key (candidate key counter) counter fuel with
    | Ok finalKey =>
        Map_has m finalKey = false /\ exists j, finalKey = candidate key j
    | Throw _ =>
        forall j, In j (seq counter fuel) -> In (candidate key j) (Map_keys m)
    end.
Proof.
  induction fuel as [|fuel IH]; intros counter; simpl; [tauto|].
  destruct (Map_has m (candidate key counter)) eqn:E.
  - specialize (IH (S counter)). cbn [candidate] in IH.
    destruct (uniqueKey m key (dupKey key (S counter)) (S counter) fuel);
      [exact IH|].
    intros j [<-|Hj]; [apply Map_has_In, E | apply IH, Hj].
  - split; [exact E | exists counter; reflexivity].
Qed.

(** The disambiguation loop ends within its budget, on a key the map does
    not hold yet. *)
Lemma uniqueKey_returns {V} (m : Map V) key :
  exists finalKey j,
    uniqueKey m key key 0 (S (List.length m)) = Ok finalKey /\
    Map_has m finalKey = false /\ finalKey = candidate key j.
Proof.
  pose proof (uniqueKey_steps m key (S (List.length m)) 0) as H.
  change (candidate key 0) with key in H.
  destruct (uniqueKey m key key 0 (S (List.length m))) as [k|e].
  - destruct H as [Hk [j Hj]]. exists k, j. auto.
  - exfalso.
    assert (Hincl : incl (map (candidate key) (seq 0 (S (List.length m))))
                         (Map_keys m)).
    { intros k Hk. apply in_map_iff in Hk as (j & <- & Hj). apply H, Hj. }
    apply NoDup_incl_length in Hincl.
    + rewrite length_map, length_seq in Hincl.
      unfold Map_keys in Hincl. rewrite length_map in Hincl. lia.
    + apply Injective_map_NoDup; [|apply seq_NoDup].
      intros i j. apply candidate_inj.
Qed.

Lemma candidate_disambiguates key j : disambiguates (candidate key j) key.
Proof. destruct j; [left; reflexivity | right; eexists; reflexivity]. Qed.

Lemma NoDup_snoc {A} (l : list A) (x : A) :
  NoDup l -> ~ In x l -> NoDup (l ++ [x]).
Proof.
  intros Hl Hx. apply NoDup_app; [exact Hl | repeat constructor; auto |].
  intros a Ha [<-|[]]. exact (Hx Ha).
Qed.

Lemma buildChildMap_spec {V} (entry : VDom.vnode -> nat -> string -> V)
      children :
  forall index m,
    NoDup (Map_keys m) ->
    exists added,
      buildChildMap entry children index m = Ok (m ++ added) /\
      NoDup (Map_keys (m ++ added)) /\
      Forall2 (fun kv ci =>
                 snd kv = entry (fst ci) (snd ci) (nodeKey (fst ci) (snd ci)) /\
                 disambiguates (fst kv) (nodeKey (fst ci) (snd ci)))
              added (nonNullChildren children index).
Proof.
  induction children as [|[child|] rest IH]; intros index m Hm;
    cbn [buildChildMap nonNullChildren].
  - exists []. rewrite app_nil_r. repeat split; auto.
  - destruct (uniqueKey_returns m (nodeKey child index))
      as (finalKey & j & -> & Hfresh & Hj). cbn [rbind].
    rewrite Map_set_fresh by exact Hfresh.
    destruct (IH (S index)
                 (m ++ [(finalKey, entry child index (nodeKey child index))]))
      as (added & E & Hnd & Hall).
    { unfold Map_keys in *. rewrite map_app. simpl.
      apply NoDup_snoc; [exact Hm|].
      intros Hin. apply (Map_has_In m finalKey) in Hin. congruence. }
    exists ((finalKey, entry child index (nodeKey child index)) :: added).
    rewrite <- app_assoc in E, Hnd. simpl in E, Hnd.
    split; [exact E|]. split; [exact Hnd|].
    constructor; [|exact Hall]. simpl. split; [reflexivity|].
    subst finalKey. apply candidate_disambiguates.
  - apply IH, Hm.
Qed.

Lemma Forall2_map_snd {A B C} (P : A * B -> C -> Prop) (f : C -> B) l l' :
  Forall2 (fun kv c => snd kv = f c /\ P kv c) l l' ->
  map snd l = map f l'.
Proof.
  induction 1 as [|kv c l l' [H _] _ IH]; simpl; [reflexivity|].
  rewrite H, IH. reflexivity.
Qed.

(** C7.  Both key maps of [keyBasedPatch] are built without exhausting the
    disambiguation loop; their keys are pairwise distinct; their entries are
    exactly the non-null children of the list, one entry each and in order,
    so that no entry overwrites another; and the key of an entry is its
    original key ([_nodeId], or the synthesized [type-index-tagName]),
    possibly extended by a numeric [-dup] suffix. *)
Theorem keyBasedPatch_keys_are_unique
  (realChildren newRealChildren : list node)
  (oldChildren newChildren : list (option VDom.vnode)) :
  exists oldChildMap newChildMap,
    oldChildMapOf realChildren oldChildren = Ok oldChildMap /\
    newChildMapOf newRealChildren newChildren = Ok newChildMap /\
    NoDup (Map_keys oldChildMap) /\
    NoDup (Map_keys newChildMap) /\
    map snd oldChildMap
    = map (fun ci => mkOldEntry (fst ci) (nth_error realChildren (snd ci))
                                (snd ci) (nodeKey (fst ci) (snd ci)))
          (nonNullChildren oldChildren 0) /\
    map snd newChildMap
    = map (fun ci => mkNewEntry (fst ci) (nth_error newRealChildren (snd ci))
                                (snd ci) (nodeKey (fst ci) (snd ci)))
          (nonNullChildren newChildren 0) /\
    Forall (fun kv => disambiguates (fst kv) (originalKey (snd kv)))
           oldChildMap /\
    Forall (fun kv => disambiguates (fst kv) (new_originalKey (snd kv)))
           newChildMap.
Proof.
  unfold oldChildMapOf, newChildMapOf.
  destruct (buildChildMap_spec
              (fun child index key =>
                 mkOldEntry child (nth_error realChildren index) index key)
              oldChildren 0 [] (NoDup_nil _)) as (olds & Eo & No & Fo).
  destruct (buildChildMap_spec
              (fun child index key =>
                 mkNewEntry child (nth_error newRealChildren index) index key)
              newChildren 0 [] (NoDup_nil _)) as (news & En & Nn & Fn).
  simpl in Eo, En, No, Nn.
  exists olds, news. rewrite Eo, En.
  repeat split; auto.
  - apply (Forall2_map_snd _ _ _ _ Fo).
  - apply (Forall2_map_snd _ _ _ _ Fn).
  - clear -Fo. induction Fo as [|kv ci l l' [H D] _ IH]; constructor; auto.
    rewrite H. exact D.
  - clear -Fn. induction Fn as [|kv ci l l' [H D] _ IH]; constructor; auto.
    rewrite H. exact D.
Qed.

(** Two children carrying the same identifier, and a third whose identifier
    is the key the second one was moved to, all keep their own entry. *)
Example oldChildMapOf_colliding_keys :
  match oldChildMapOf [] [Some (keyed "k"); Some (keyed "k");
                          Some (keyed "k-dup1")] with
  | Ok m => Map_keys m = ["k"; "k-dup1"; "k-dup1-dup1"]
  | Throw _ => False
  end.
Proof. reflexivity. Qed.

(** ** The budget of [patchNode] *)

Lemma insertFromRight_In {A} (cmp : A -> A -> Z) x y l :
  In y (insertFromRight cmp x l) <-> y = x \/ In y l.
Proof.
  induction l as [|z l IH]; simpl; [intuition congruence|].
  destruct (0 <? cmp z x)%Z; simpl; rewrite ?IH; intuition congruence.
Qed.

Lemma sort_In {A} (cmp : A -> A -> Z) y l : In y (sort cmp l) <-> In y l.
Proof.
  unfold sort. rewrite <- in_rev.
  assert (H : forall acc,
             In y (fold_left (fun acc x => insertFromRight cmp x acc) l acc)
             <-> In y l \/ In y acc).
  { induction l as [|x l IH]; intros acc; simpl; [tauto|].
    rewrite IH, insertFromRight_In. intuition congruence. }
  rewrite H. simpl. tauto.
Qed.

Lemma firstPass_patchedChild newChildren :
  forall newRealChildren newIndex oldChildMap matched ops matched',
    firstPass newChildren newRealChildren newIndex oldChildMap matched
    = Ok (ops, matched') ->
    forall op c, In op ops -> patchedChild op = Some c ->
                 In (Some c) newChildren.
Proof.
  induction newChildren as [|[newChild|] rest IH];
    intros newRealChildren newIndex oldChildMap matched ops matched' H op c
           Hop Hc; cbn [firstPass] in H.
  - inversion H; subst. contradiction.
  - destruct (findMatch _ _ _ _) as [[[k e]|]|]; cbn [rbind] in H;
      try discriminate;
      match type of H with
      | rbind ?f _ = _ => destruct f as [[ops0 m0]|] eqn:E
      end; cbn [rbind fst snd] in H; try discriminate;
      inversion H; subst; destruct Hop as [<-|Hop];
      try (right; eapply IH; eassumption).
    + inversion Hc; subst. left. reflexivity.
    + discriminate.
  - right. eapply IH; eassumption.
Qed.

Lemma planOperations_patchedChild realChildren oldChildren newChildren
      newRealChildren ops :
  planOperations realChildren oldChildren newChildren newRealChildren
  = Ok ops ->
  forall op c, In op ops -> patchedChild op = Some c ->
               In (Some c) newChildren.
Proof.
  unfold planOperations. intros H op c Hop Hc.
  destruct (oldChildMapOf _ _) as [om|]; [|discriminate].
  destruct (newChildMapOf _ _) as [nm|]; [|discriminate].
  cbn [rbind] in H.
  destruct (firstPass _ _ _ _ _) as [[ops0 m0]|] eqn:E; [|discriminate].
  cbn [rbind fst snd] in H. inversion H; subst.
  apply in_app_or in Hop as [Hop|Hop].
  - eapply firstPass_patchedChild; eassumption.
  - unfold secondPass in Hop. apply in_flat_map in Hop as (kv & _ & Hkv).
    destruct (existsb _ _); [contradiction|].
    destruct Hkv as [<-|[]]. discriminate.
Qed.

Lemma bind_ext {S A B} (m : M S A) (k1 k2 : A -> M S B) s :
  (forall a s', k1 a s' = k2 a s') -> bind m k1 s = bind m k2 s.
Proof.
  intros H. unfold bind. destruct (m s) as [[a|e] s']; [apply H|reflexivity].
Qed.

Lemma try_catch_ext {S A} (m1 m2 : M S A) h s :
  m1 s = m2 s -> try_catch m1 h s = try_catch m2 h s.
Proof. intros H. unfold try_catch. rewrite H. reflexivity. Qed.

Lemma forEachTry_ext {S A} (xs : list A) (f g : A -> M S unit) h :
  (forall x, In x xs -> forall s, f x s = g x s) ->
  forall s, forEachTry xs f h s = forEachTry xs g h s.
Proof.
  induction xs as [|x xs IH]; intros H s; simpl; [reflexivity|].
  unfold bind, try_catch. rewrite (H x (or_introl eq_refl)).
  destruct (g x s) as [[[]|e] s'].
  - apply IH. intros y Hy. apply H. right. exact Hy.
  - destruct (h x e s') as [[[]|e'] s'']; [|reflexivity].
    apply IH. intros y Hy. apply H. right. exact Hy.
Qed.

Lemma VDom_height_child v c :
  In (Some c) (VDom.childrenOrEmpty v) -> VDom.height c < VDom.height v.
Proof.
  unfold VDom.childrenOrEmpty. destruct v as [t nt tg a cs ct id im]. simpl.
  destruct cs as [cs|]; [|contradiction].
  induction cs as [|x cs IH]; simpl; [contradiction|].
  intros [->|H]; [lia|]. apply IH in H. lia.
Qed.

Section BudgetIndependence.

Variable processMediaElement : option (node -> node).
Variables rec1 rec2 :
  option VDom.vnode -> option VDom.vnode -> option node -> Patch unit.

Lemma executeOperation_ext op :
  (forall c, patchedChild op = Some c ->
             forall o t w, rec1 o (Some c) t w = rec2 o (Some c) t w) ->
  forall w, executeOperation processMediaElement rec1 op w
            = executeOperation processMediaElement rec2 op w.
Proof.
  intros H w. destruct op as [newIndex entry newChild newRealChild| |];
    [|reflexivity|reflexivity].
  cbn [executeOperation]. unfold handleUpdate.
  destruct (realNode entry) as [live|]; [|reflexivity].
  destruct (_ || _); [reflexivity|].
  apply bind_ext. intros cs w0.
  apply bind_ext. intros _ w1.
  destruct (_ && _); [|reflexivity].
  apply bind_ext. intros children w2.
  apply bind_ext. intros _ w3.
  unfold inChild. rewrite (H newChild eq_refl). reflexivity.
Qed.

Lemma patchNode_body_ext oldVNode newVNode newRealElement :
  (forall c, In (Some c) (match newVNode with
                          | Some v => VDom.childrenOrEmpty v
                          | None => []
                          end) ->
             forall o t w, rec1 o (Some c) t w = rec2 o (Some c) t w) ->
  forall w,
    patchNode_body processMediaElement rec1 oldVNode newVNode newRealElement
                   w
    = patchNode_body processMediaElement rec2 oldVNode newVNode newRealElement
                     w.
Proof.
  intros H w. unfold patchNode_body.
  apply bind_ext. intros w0 s0.
  destruct (option_eqb _ _ _); [reflexivity|].
  apply try_catch_ext.
  apply bind_ext. intros realChildren s1.
  destruct (_ && _); [reflexivity|].
  apply bind_ext. intros texts s2.
  assert (K : forall w1,
    keyBasedPatch processMediaElement rec1
      (match oldVNode with Some v => VDom.childrenOrEmpty v | None => [] end)
      (match newVNode with Some v => VDom.childrenOrEmpty v | None => [] end)
      (match newRealElement with Some e => childNodes e | None => [] end) w1
    = keyBasedPatch processMediaElement rec2
      (match oldVNode with Some v => VDom.childrenOrEmpty v | None => [] end)
      (match newVNode with Some v => VDom.childrenOrEmpty v | None => [] end)
      (match newRealElement with Some e => childNodes e | None => [] end) w1).
  { intros w1. unfold keyBasedPatch.
    apply bind_ext. intros cs s3. unfold bind, liftResult.
    destruct (planOperations _ _ _ _) as [ops|e] eqn:P; [|reflexivity].
    apply forEachTry_ext. intros op Hop s. apply sort_In in Hop.
    apply executeOperation_ext. intros c Hc. apply H.
    eapply planOperations_patchedChild; eassumption. }
  destruct texts as [[old0 new0]|]; [|apply K].
  destruct (nth_error _ 0); [|apply K].
  destruct (_ =? _); [reflexivity|apply K].
Qed.

End BudgetIndependence.

(** Any budget above the depth of the new description tree gives the same
    run of [patchNode]: the budget it is given is never the reason for its
    result. *)
Lemma patchNode_fuel_enough processMediaElement fuel :
  forall fuel' oldVNode newVNode newRealElement w,
    vdepth newVNode < fuel -> vdepth newVNode < fuel' ->
    patchNode_fuel processMediaElement fuel oldVNode newVNode newRealElement w
    = patchNode_fuel processMediaElement fuel' oldVNode newVNode
                     newRealElement w.
Proof.
  induction fuel as [|fuel IH];
    intros [|fuel'] oldVNode newVNode newRealElement w H H'; try lia.
  cbn [patchNode_fuel]. apply patchNode_body_ext.
  intros c Hc o t w'. destruct newVNode as [v|]; [|contradiction].
  apply VDom_height_child in Hc. apply IH; simpl in *; lia.
Qed.

(** ** Media processing *)

Lemma startsWith_head_long c url p prest q qrest :
  startsWith (String c url) (String p prest) = true ->
  p <> q -> startsWith (String c url) (String q qrest) = false.
Proof.
  unfold startsWith. simpl.
  destruct (ascii_dec p c) as [<-|]; [|discriminate].
  intros _ Hpq. destruct (ascii_dec q p); congruence.
Qed.

Lemma file_url_has_no_other_prefix url :
  startsWith url "file://" = true ->
  startsWith url "http" = false /\ startsWith url "blob:" = false /\
  startsWith url "data:" = false /\ startsWith url "//" = false /\
  startsWith url "#" = false.
Proof.
  destruct url as [|c url]; [discriminate|]. intros H.
  repeat split;
    apply (startsWith_head_long _ _ _ _ _ _ H); discriminate.
Qed.

(** X1.  [isLocalFilePath] answers by five prefixes only: a URL is local
    exactly when it starts with none of [http], [blob:], [data:], [//] and
    [#].  The test for [file://] adds nothing, and the empty string and
    URLs of any other scheme count as local. *)
Theorem isLocalFilePath_by_prefix (url : string) :
  NodeUtils.isLocalFilePath url =
  negb (startsWith url "http" || startsWith url "blob:" ||
        startsWith url "data:" || startsWith url "//" || startsWith url "#").
Proof.
  unfold NodeUtils.isLocalFilePath.
  destruct (startsWith url "file://") eqn:E.
  - apply file_url_has_no_other_prefix in E as (-> & -> & -> & -> & ->).
    reflexivity.
  - rewrite !negb_orb.
    destruct (negb (startsWith url "http") && _ && _ && _ && _); reflexivity.
Qed.

(** X2.  An image is marked for reprocessing (and handed to the callback)
    exactly when its [src] is non-empty and starts with none of [blob:],
    [data:] and [http]; the second test of the loop, on
    [isLocalFilePath], never fires. *)
Theorem processImage_by_prefix (callback : option (node -> node))
        (img : node) :
  MediaProcessor.processImage callback img =
  match getAttribute img "src" with
  | Some src =>
      if truthy src && negb (startsWith src "blob:") &&
         negb (startsWith src "data:") && negb (startsWith src "http")
      then MediaProcessor.reprocess callback img
      else img
  | None => img
  end.
Proof.
  unfold MediaProcessor.processImage.
  destruct (getAttribute img "src") as [src|]; [|reflexivity].
  destruct (truthy src) eqn:T; [|reflexivity]. cbn [andb].
  destruct (startsWith src "blob:") eqn:B, (startsWith src "data:") eqn:D,
    (startsWith src "http") eqn:H; cbn [negb andb]; try reflexivity;
    unfold NodeUtils.isLocalFilePath;
    (destruct (startsWith src "file://") eqn:F;
     [apply file_url_has_no_other_prefix in F; destruct F as (?&?&?&?&?);
      congruence|]);
    rewrite ?B, ?D, ?H; cbn [negb andb]; reflexivity.
Qed.

Lemma hasTag_img_mediaTag c :
  NodeUtils.hasTag "img" c = true -> NodeUtils.mediaTag c = true.
Proof.
  unfold NodeUtils.hasTag, NodeUtils.mediaTag.
  destruct (Dom.tagName c); [|discriminate]. intros ->. reflexivity.
Qed.

Lemma processDescendants_without_media callback n :
  NodeUtils.anyDescendant NodeUtils.mediaTag n = false ->
  MediaProcessor.processDescendants callback n = n.
Proof.
  induction n as [i d|i d|i t a cs IH] using node_induction;
    intros H; try reflexivity.
  simpl in *. f_equal.
  induction cs as [|c cs IHcs]; [reflexivity|].
  simpl in *. apply orb_false_iff in H as [Hc Hcs].
  apply orb_false_iff in Hc as [Hm Hd].
  inversion IH as [|? ? IHc IHrest]; subst.
  rewrite (IHc Hd), (IHcs IHrest Hcs).
  destruct (NodeUtils.hasTag "img" c) eqn:E; [|reflexivity].
  apply hasTag_img_mediaTag in E. congruence.
Qed.

Lemma processNewNodeMedia_without_media callback n :
  NodeUtils.needsMediaProcessing n = false ->
  MediaProcessor.processNewNodeMedia callback n = n.
Proof.
  intros Hguard. unfold NodeUtils.needsMediaProcessing in Hguard.
  unfold MediaProcessor.processNewNodeMedia.
  destruct (negb (Dom.nodeType n =? ELEMENT_NODE)); [reflexivity|].
  destruct (NodeUtils.mediaTag n) eqn:M; [discriminate|].
  destruct (NodeUtils.anyDescendant NodeUtils.mediaTag n) eqn:D;
    [discriminate|].
  destruct (option_eqb String.eqb (Dom.tagName n) (Some "IMG")) eqn:E.
  - unfold NodeUtils.mediaTag in M. destruct (Dom.tagName n) as [t|];
      [|discriminate]. simpl in E. apply String.eqb_eq in E. subst t.
    discriminate.
  - apply processDescendants_without_media, D.
Qed.

(** X3.  The guard [needsMediaProcessing] loses nothing: on a node for
    which it answers false, [processNewNodeMedia] changes nothing and never
    calls the callback. *)
Theorem processNewNodeMedia_unneeded (callback : option (node -> node))
        (n : node)
        (Hguard : NodeUtils.needsMediaProcessing n = false) :
  MediaProcessor.processNewNodeMedia callback n = n.
Proof. exact (processNewNodeMedia_without_media callback n Hguard). Qed.

Lemma processNewNodeMedia_unneeded_witness :
  MediaProcessor.processNewNodeMedia (Some (fun _ => Text 0 "replaced"))
                                     quietParagraph
  = quietParagraph.
Proof.
  apply (processNewNodeMedia_unneeded _ quietParagraph). reflexivity.
Defined.

Lemma lookupAttr_setAttr_same a k v : lookupAttr (setAttr a k v) k = Some v.
Proof.
  induction a as [|[k' v'] a IH]; simpl.
  - rewrite String.eqb_refl. reflexivity.
  - destruct (k' =? k)%string eqn:E; simpl; rewrite E; auto.
Qed.

Lemma lookupAttr_setAttr_other a k v k' :
  k <> k' -> lookupAttr (setAttr a k v) k' = lookupAttr a k'.
Proof.
  intros Hk. induction a as [|[k0 v0] a IH]; simpl.
  - apply String.eqb_neq in Hk. rewrite Hk. reflexivity.
  - destruct (k0 =? k)%string eqn:E; simpl.
    + apply String.eqb_eq in E. subst k0.
      apply String.eqb_neq in Hk. rewrite Hk. reflexivity.
    + rewrite IH. reflexivity.
Qed.

Lemma setAttr_twice a k v : setAttr (setAttr a k v) k v = setAttr a k v.
Proof.
  induction a as [|[k' v'] a IH]; simpl.
  - rewrite String.eqb_refl. reflexivity.
  - destruct (k' =? k)%string eqn:E; simpl; rewrite E; congruence.
Qed.

Lemma getAttribute_setAttribute_other n k v k' :
  k <> k' -> getAttribute (setAttribute n k v) k' = getAttribute n k'.
Proof.
  intros Hk. destruct n; try reflexivity.
  unfold getAttribute. simpl. apply lookupAttr_setAttr_other, Hk.
Qed.

Lemma setAttribute_twice n k v :
  setAttribute (setAttribute n k v) k v = setAttribute n k v.
Proof. destruct n; simpl; try reflexivity. rewrite setAttr_twice; auto. Qed.

Lemma processImage_cases callback x y :
  getAttribute x "src" = getAttribute y "src" ->
  (MediaProcessor.processImage callback x = x /\
   MediaProcessor.processImage callback y = y) \/
  (MediaProcessor.processImage callback x
   = MediaProcessor.reprocess callback x /\
   MediaProcessor.processImage callback y
   = MediaProcessor.reprocess callback y).
Proof.
  unfold MediaProcessor.processImage. intros <-.
  destruct (getAttribute x "src") as [src|]; [|left; split; reflexivity].
  repeat match goal with
         | |- context [if ?b then _ else _] => destruct b
         end; auto.
Qed.

Lemma processImage_None_twice img :
  MediaProcessor.processImage None (MediaProcessor.processImage None img)
  = MediaProcessor.processImage None img.
Proof.
  destruct (processImage_cases None img
              (setAttribute img "data-force-reprocess" "true"))
    as [[E1 E2]|[E1 E2]].
  - symmetry. apply getAttribute_setAttribute_other. discriminate.
  - rewrite !E1. reflexivity.
  - rewrite E1. unfold MediaProcessor.reprocess at 1 2. rewrite E2.
    apply setAttribute_twice.
Qed.

Lemma processImage_None_frame img :
  withoutAttributes (MediaProcessor.processImage None img)
  = withoutAttributes img /\
  Dom.tagName (MediaProcessor.processImage None img) = Dom.tagName img /\
  childNodes (MediaProcessor.processImage None img) = childNodes img.
Proof.
  destruct (processImage_cases None img img eq_refl) as [[E _]|[E _]];
    rewrite E; [auto|].
  unfold MediaProcessor.reprocess. destruct img; auto.
Qed.

Lemma hasTag_processImage tag img :
  NodeUtils.hasTag tag (MediaProcessor.processImage None img)
  = NodeUtils.hasTag tag img.
Proof.
  unfold NodeUtils.hasTag.
  destruct (processImage_None_frame img) as (_ & -> & _). reflexivity.
Qed.

Lemma hasTag_processDescendants tag n :
  NodeUtils.hasTag tag (MediaProcessor.processDescendants None n)
  = NodeUtils.hasTag tag n.
Proof. destruct n; reflexivity. Qed.

Lemma processDescendants_processImage n :
  MediaProcessor.processDescendants None (MediaProcessor.processImage None n)
  = MediaProcessor.processImage None (MediaProcessor.processDescendants None n).
Proof.
  destruct (processImage_cases None n
              (MediaProcessor.processDescendants None n))
    as [[E1 E2]|[E1 E2]].
  - destruct n; reflexivity.
  - rewrite E1, E2. reflexivity.
  - rewrite E1, E2. destruct n; reflexivity.
Qed.

Lemma processDescendants_None_twice n :
  MediaProcessor.processDescendants None
    (MediaProcessor.processDescendants None n)
  = MediaProcessor.processDescendants None n.
Proof.
  induction n as [i d|i d|i t a cs IH] using node_induction;
    try reflexivity.
  simpl. f_equal. rewrite map_map. apply map_ext_in. intros c Hc.
  rewrite Forall_forall in IH. specialize (IH c Hc).
  destruct (NodeUtils.hasTag "img" c) eqn:E.
  - rewrite hasTag_processImage, hasTag_processDescendants, E.
    rewrite processDescendants_processImage, IH.
    apply processImage_None_twice.
  - rewrite hasTag_processDescendants, E. exact IH.
Qed.

Lemma withoutAttributes_processDescendants n :
  withoutAttributes (MediaProcessor.processDescendants None n)
  = withoutAttributes n.
Proof.
  induction n as [i d|i d|i t a cs IH] using node_induction;
    try reflexivity.
  simpl. f_equal. rewrite map_map. apply map_ext_in. intros c Hc.
  rewrite Forall_forall in IH. specialize (IH c Hc).
  destruct (NodeUtils.hasTag "img" c); [|exact IH].
  destruct (processImage_None_frame (MediaProcessor.processDescendants None c))
    as (-> & _). exact IH.
Qed.

(** X4.  With no callback configured (the default), [processNewNodeMedia]
    touches attributes only -- identities, tags, text and the shape of the
    tree stay as they are -- and processing a tree a second time changes
    nothing more. *)
Theorem processNewNodeMedia_default_idempotent (n : node) :
  withoutAttributes (MediaProcessor.processNewNodeMedia None n)
  = withoutAttributes n /\
  MediaProcessor.processNewNodeMedia None
    (MediaProcessor.processNewNodeMedia None n)
  = MediaProcessor.processNewNodeMedia None n.
Proof.
  unfold MediaProcessor.processNewNodeMedia.
  destruct n as [i d|i d|i t a cs]; try (split; reflexivity).
  cbn [Dom.nodeType ELEMENT_NODE Nat.eqb negb Dom.tagName option_eqb].
  destruct (t =? "IMG")%string eqn:E.
  - split; [apply processImage_None_frame|].
    destruct (processImage_None_frame (Element i t a cs)) as (_ & Ht & _).
    destruct (MediaProcessor.processImage None (Element i t a cs))
      as [| |i' t' a' cs'] eqn:P; try discriminate.
    cbn [Dom.nodeType ELEMENT_NODE Nat.eqb negb Dom.tagName option_eqb].
    simpl in Ht. injection Ht as ->. rewrite E, <- P.
    apply processImage_None_twice.
  - split; [apply withoutAttributes_processDescendants|].
    cbn [MediaProcessor.processDescendants].
    cbn [Dom.nodeType ELEMENT_NODE Nat.eqb negb Dom.tagName option_eqb].
    rewrite E.
    apply (processDescendants_None_twice (Element i t a cs)).
Qed.

(** ** Attribute synchronisation *)

Lemma lookupAttr_None a k : lookupAttr a k = None <-> ~ In k (map fst a).
Proof.
  induction a as [|[k' v] a IH]; simpl; [tauto|].
  destruct (k' =? k)%string eqn:E.
  - apply String.eqb_eq in E. split; [discriminate|]. intros H. tauto.
  - apply String.eqb_neq in E. rewrite IH. tauto.
Qed.

Lemma lookupAttr_In a k v :
  NoDup (map fst a) -> In (k, v) a -> lookupAttr a k = Some v.
Proof.
  induction a as [|[k' v'] a IH]; simpl; [tauto|].
  intros Hnd [H|H]; inversion Hnd; subst.
  - injection H as -> ->. rewrite String.eqb_refl. reflexivity.
  - destruct (k' =? k)%string eqn:E; [|auto].
    apply String.eqb_eq in E. subst k'.
    exfalso. apply H2. apply (in_map fst) in H. exact H.
Qed.

Lemma lookupAttr_Some_In a k v : lookupAttr a k = Some v -> In (k, v) a.
Proof.
  induction a as [|[k' v'] a IH]; simpl; [discriminate|].
  destruct (k' =? k)%string eqn:E; [|auto].
  apply String.eqb_eq in E. subst k'. intros [= ->]. auto.
Qed.

Lemma removeAttr_at pre k v rest :
  ~ In k (map fst pre) -> ~ In k (map fst rest) ->
  removeAttr (pre ++ (k, v) :: rest) k = pre ++ rest.
Proof.
  unfold removeAttr. intros Hp Hr. rewrite filter_app. simpl.
  rewrite String.eqb_refl. simpl. f_equal.
  - induction pre as [|[k' v'] pre IH]; simpl in *; [reflexivity|].
    destruct (k' =? k)%string eqn:E.
    + apply String.eqb_eq in E. tauto.
    + simpl. f_equal. apply IH. tauto.
  - induction rest as [|[k' v'] rest IH]; simpl in *; [reflexivity|].
    destruct (k' =? k)%string eqn:E.
    + apply String.eqb_eq in E. tauto.
    + simpl. f_equal. apply IH. tauto.
Qed.

Lemma nth_error_middle {A} (pre : list A) x rest :
  nth_error (pre ++ x :: rest) (List.length pre) = Some x.
Proof. induction pre; simpl; auto. Qed.

Lemma removeStale_sweep new fuel :
  forall pre l,
    NoDup (map fst (pre ++ l)) -> List.length l <= fuel ->
    NodeUtils.removeStale (pre ++ l) (List.length pre) fuel new
    = pre ++ sweep (staleFor new) l.
Proof.
  induction fuel as [fuel IH] using lt_wf_ind. intros pre l Hnd Hlen.
  destruct l as [|[k v] rest].
  - cbn [sweep]. rewrite app_nil_r.
    destruct fuel; cbn [NodeUtils.removeStale]; [reflexivity|].
    replace (nth_error pre (List.length pre)) with (@None (string * string))
      by (symmetry; apply nth_error_None; lia).
    reflexivity.
  - destruct fuel as [|fuel]; [simpl in Hlen; lia|].
    cbn [NodeUtils.removeStale]. rewrite nth_error_middle.
    cbn [sweep fst]. unfold staleFor at 1.
    rewrite map_app in Hnd. simpl in Hnd.
    pose proof (NoDup_remove_1 _ _ _ Hnd) as Hrest.
    pose proof (NoDup_remove_2 _ _ _ Hnd) as Hk.
    destruct (negb (hasAttribute new k)).
    + rewrite removeAttr_at
        by (intros H; apply Hk, in_or_app; auto).
      destruct rest as [|y rest'].
      * rewrite app_nil_r.
        destruct fuel; cbn [NodeUtils.removeStale]; [reflexivity|].
        replace (nth_error pre (S (List.length pre)))
          with (@None (string * string))
          by (symmetry; apply nth_error_None; lia).
        reflexivity.
      * replace (pre ++ y :: rest') with ((pre ++ [y]) ++ rest')
          by (rewrite <- app_assoc; reflexivity).
        replace (S (List.length pre)) with (List.length (pre ++ [y]))
          by (rewrite length_app; simpl; lia).
        simpl in Hlen.
        destruct fuel as [|fuel]; [lia|].
        rewrite (IH (S fuel)); [|lia| |simpl; lia].
        -- rewrite <- app_assoc. reflexivity.
        -- rewrite <- app_assoc, map_app. exact Hrest.
    + replace (pre ++ (k, v) :: rest) with ((pre ++ [(k, v)]) ++ rest)
        by (rewrite <- app_assoc; reflexivity).
      replace (S (List.length pre)) with (List.length (pre ++ [(k, v)]))
        by (rewrite length_app; simpl; lia).
      simpl in Hlen.
      rewrite (IH fuel); [|lia| |lia].
      * rewrite <- app_assoc. reflexivity.
      * rewrite <- app_assoc, map_app. exact Hnd.
Qed.

Lemma sweep_incl stale l x : In x (sweep stale l) -> In x l.
Proof.
  induction l as [l IH] using (induction_ltof1 _ (@List.length _)).
  unfold ltof in IH.
  destruct l as [|a rest]; simpl; [tauto|].
  destruct (stale (fst a)).
  - destruct rest as [|y rest']; simpl; [tauto|].
    intros [->|H]; [auto|]. right. right. apply IH; [simpl; lia|exact H].
  - simpl. intros [->|H]; [auto|]. right. apply IH; [simpl; lia|exact H].
Qed.

(** The second loop of [updateElementAttributes], when [setAttribute]
    accepts every name of the new element. *)
Lemma syncAttributes_spec new_attrs :
  NoDup (map fst new_attrs) ->
  (forall k v, In (k, v) new_attrs ->
               validName k = true /\ toLowerCase k = k) ->
  forall i t a0 cs,
    exists synced,
      NodeUtils.syncAttributes new_attrs (Element i t a0 cs)
      = (Ok tt, Element i t synced cs) /\
      (forall k v, In (k, v) new_attrs -> lookupAttr synced k = Some v) /\
      (forall k, ~ In k (map fst new_attrs) ->
                 lookupAttr synced k = lookupAttr a0 k).
Proof.
  induction new_attrs as [|[k v] rest IH]; intros Hnd Hvalid i t a0 cs.
  - exists a0. simpl. split; [reflexivity|]. split; [tauto|reflexivity].
  - inversion Hnd as [|? ? Hk Hrest]; subst.
    destruct (Hvalid k v (or_introl eq_refl)) as [Hname Hlower].
    assert (Hvalid' : forall k' v', In (k', v') rest ->
              validName k' = true /\ toLowerCase k' = k')
      by (intros k' v' H; apply (Hvalid k' v'); right; exact H).
    cbn [NodeUtils.syncAttributes]. unfold getAttribute, trySetAttribute.
    cbn [attributes]. rewrite Hname, Hlower. cbn [setAttribute].
    set (a1 := if negb (option_eqb String.eqb (lookupAttr a0 k) (Some v))
               then setAttr a0 k v else a0).
    assert (Hsame : lookupAttr a1 k = Some v).
    { subst a1.
      destruct (option_eqb String.eqb (lookupAttr a0 k) (Some v)) eqn:E;
        simpl.
      - destruct (lookupAttr a0 k); simpl in E; [|discriminate].
        apply String.eqb_eq in E. congruence.
      - apply lookupAttr_setAttr_same. }
    assert (Hother : forall k',
               k <> k' -> lookupAttr a1 k' = lookupAttr a0 k').
    { intros k' Hk'. subst a1.
      destruct (negb _); [apply lookupAttr_setAttr_other, Hk'|reflexivity]. }
    destruct (IH Hrest Hvalid' i t a1 cs) as (synced & E & H1 & H2).
    exists synced. split; [|split].
    + subst a1. destruct (negb _); exact E.
    + intros k' v' [[= <- <-]|Hin].
      * rewrite H2 by exact Hk. exact Hsame.
      * apply H1, Hin.
    + intros k' Hk'. cbn [map fst In] in Hk'.
      rewrite H2 by tauto. apply Hother. tauto.
Qed.

Lemma updateElementAttributes_spec i t a cs new :
  Dom.nodeType new = ELEMENT_NODE ->
  NodeUtils.isHeavyElement (Some (Element i t a cs)) = false ->
  NoDup (map fst a) -> NoDup (map fst (attributes new)) ->
  (forall k v, In (k, v) (attributes new) ->
               validName k = true /\ toLowerCase k = k) ->
  exists synced,
    NodeUtils.updateElementAttributes (Element i t a cs) (Some new)
    = (Ok tt, Element i t synced cs) /\
    (forall k v, In (k, v) (attributes new) -> lookupAttr synced k = Some v) /\
    (forall k, hasAttribute new k = false ->
               lookupAttr synced k = lookupAttr (sweep (staleFor new) a) k).
Proof.
  intros Hn Hh Hold Hnew Hvalid.
  unfold NodeUtils.updateElementAttributes.
  cbn [Dom.nodeType ELEMENT_NODE Nat.eqb negb Dom.attributes].
  rewrite Hn. cbn [ELEMENT_NODE Nat.eqb negb]. rewrite Hh.
  pose proof (removeStale_sweep new (List.length a) [] a Hold (le_n _)) as R.
  cbn [app List.length] in R. rewrite R.
  destruct (syncAttributes_spec (attributes new) Hnew Hvalid
              i t (sweep (staleFor new) a) cs) as (synced & E & H1 & H2).
  exists synced. split; [exact E|]. split; [exact H1|].
  intros k Hk. apply H2. apply lookupAttr_None.
  unfold hasAttribute, getAttribute in Hk.
  destruct (lookupAttr (attributes new) k); [discriminate|reflexivity].
Qed.

(** X5.  On two elements of which the old one is not heavy, and with
    valid lower-case attribute names on the new one,
    [updateElementAttributes] returns normally, gives the old element every
    attribute of the new one with the new value, invents no attribute, and
    leaves the old element's identity, tag and children alone. *)
Theorem updateElementAttributes_takes_new_values
        (oldElement newElement : node)
        (Hold : Dom.nodeType oldElement = ELEMENT_NODE)
        (Hnew : Dom.nodeType newElement = ELEMENT_NODE)
        (Hlight : NodeUtils.isHeavyElement (Some oldElement) = false)
        (Hnames : NoDup (map fst (attributes oldElement)))
        (Hnames' : NoDup (map fst (attributes newElement)))
        (Hvalid : forall name value,
            In (name, value) (attributes newElement) ->
            validName name = true /\ toLowerCase name = name) :
  exists updated,
    NodeUtils.updateElementAttributes oldElement (Some newElement)
    = (Ok tt, updated) /\
    nid updated = nid oldElement /\
    Dom.tagName updated = Dom.tagName oldElement /\
    childNodes updated = childNodes oldElement /\
    (forall name value,
        In (name, value) (attributes newElement) ->
        getAttribute updated name = Some value) /\
    (forall name,
        getAttribute updated name <> None ->
        getAttribute oldElement name <> None \/
        getAttribute newElement name <> None).
Proof.
  destruct oldElement as [| |i t a cs]; try discriminate.
  destruct (updateElementAttributes_spec i t a cs newElement
              Hnew Hlight Hnames Hnames' Hvalid) as (synced & E & H1 & H2).
  exists (Element i t synced cs). repeat split; auto.
  unfold getAttribute. cbn [attributes]. intros name Hsome.
  destruct (lookupAttr (attributes newElement) name) eqn:En;
    [right; discriminate|].
  left. rewrite H2 in Hsome
    by (unfold hasAttribute, getAttribute; rewrite En; reflexivity).
  destruct (lookupAttr (sweep (staleFor newElement) a) name) as [v|] eqn:Es;
    [|contradiction].
  apply lookupAttr_Some_In, sweep_incl in Es.
  rewrite (lookupAttr_In a name v Hnames Es). discriminate.
Qed.

Lemma updateElementAttributes_takes_new_values_witness :
  exists updated,
    NodeUtils.updateElementAttributes badge (Some badge')
    = (Ok tt, updated) /\
    nid updated = nid badge /\
    Dom.tagName updated = Dom.tagName badge /\
    childNodes updated = childNodes badge /\
    (forall name value,
        In (name, value) (attributes badge') ->
        getAttribute updated name = Some value) /\
    (forall name,
        getAttribute updated name <> None ->
        getAttribute badge name <> None \/ getAttribute badge' name <> None).
Proof.
  apply (updateElementAttributes_takes_new_values badge badge');
    try reflexivity;
    try (simpl; repeat constructor; simpl; intuition discriminate).
  intros name value [[= <- <-]|[]]. split; reflexivity.
Defined.

(** X6.  The removal loop of [updateElementAttributes] iterates the live
    attribute list while removing from it: an attribute that the new
    element lacks is removed unless it directly follows a removed one, in
    which case it is stepped over and stays.  With a new element that has
    no attributes, every second attribute of the old element survives.
    The attribute names of the new element are valid and in lower case. *)
Theorem updateElementAttributes_steps_over
        (oldElement newElement : node)
        (Hold : Dom.nodeType oldElement = ELEMENT_NODE)
        (Hnew : Dom.nodeType newElement = ELEMENT_NODE)
        (Hlight : NodeUtils.isHeavyElement (Some oldElement) = false)
        (Hnames : NoDup (map fst (attributes oldElement)))
        (Hnames' : NoDup (map fst (attributes newElement)))
        (Hvalid : forall name value,
            In (name, value) (attributes newElement) ->
            validName name = true /\ toLowerCase name = name) :
  exists updated,
    NodeUtils.updateElementAttributes oldElement (Some newElement)
    = (Ok tt, updated) /\
    (forall name,
        hasAttribute newElement name = false ->
        getAttribute updated name
        = lookupAttr (sweep (staleFor newElement) (attributes oldElement))
                     name) /\
    (attributes newElement = [] ->
     attributes updated = sweep (fun _ => true) (attributes oldElement)).
Proof.
  destruct oldElement as [| |i t a cs]; try discriminate.
  destruct (updateElementAttributes_spec i t a cs newElement
              Hnew Hlight Hnames Hnames' Hvalid) as (synced & E & H1 & H2).
  exists (Element i t synced cs). split; [exact E|]. split; [exact H2|].
  intros Hempty.
  unfold NodeUtils.updateElementAttributes in E.
  cbn [Dom.nodeType ELEMENT_NODE Nat.eqb negb Dom.attributes] in E.
  rewrite Hnew in E. cbn [ELEMENT_NODE Nat.eqb negb] in E.
  rewrite Hlight, Hempty in E. cbn [NodeUtils.syncAttributes] in E.
  pose proof (removeStale_sweep newElement (List.length a) [] a Hnames
                                 (le_n _)) as R.
  cbn [app List.length] in R. rewrite R in E.
  injection E as <-. cbn [attributes].
  clear - Hempty.
  induction a as [a IH] using (induction_ltof1 _ (@List.length _)).
  unfold ltof in IH.
  destruct a as [|x rest]; [reflexivity|]. cbn [sweep].
  unfold staleFor at 1, hasAttribute, getAttribute. rewrite Hempty.
  cbn [lookupAttr negb].
  destruct rest as [|y rest']; [reflexivity|].
  f_equal. apply IH. simpl. lia.
Qed.

Lemma updateElementAttributes_steps_over_witness :
  exists updated,
    NodeUtils.updateElementAttributes badge (Some bareBadge)
    = (Ok tt, updated) /\
    (forall name,
        hasAttribute bareBadge name = false ->
        getAttribute updated name
        = lookupAttr (sweep (staleFor bareBadge) (attributes badge)) name) /\
    (attributes bareBadge = [] ->
     attributes updated = sweep (fun _ => true) (attributes badge)).
Proof.
  apply (updateElementAttributes_steps_over badge bareBadge);
    try reflexivity;
    try (simpl; repeat constructor; simpl; intuition discriminate).
Defined.

Lemma sweep_clears stale l k :
  (forall pre x y post,
      l = pre ++ x :: y :: post -> stale (fst x) = true ->
      stale (fst y) = false) ->
  stale k = true -> lookupAttr (sweep stale l) k = None.
Proof.
  induction l as [l IH] using (induction_ltof1 _ (@List.length _)).
  unfold ltof in IH. intros Hadj Hk.
  destruct l as [|x rest]; [reflexivity|]. cbn [sweep].
  destruct (stale (fst x)) eqn:Ex.
  - destruct rest as [|y rest']; [reflexivity|].
    pose proof (Hadj [] x y rest' eq_refl Ex) as Ey.
    destruct y as [ky vy]. cbn [lookupAttr fst] in *.
    destruct (ky =? k)%string eqn:E;
      [apply String.eqb_eq in E; congruence|].
    apply IH; [simpl; lia| |exact Hk].
    intros pre x' y' post -> Hx'.
    apply (Hadj (x :: (ky, vy) :: pre) x' y' post eq_refl Hx').
  - destruct x as [kx vx]. cbn [lookupAttr fst] in *.
    destruct (kx =? k)%string eqn:E;
      [apply String.eqb_eq in E; congruence|].
    apply IH; [simpl; lia| |exact Hk].
    intros pre x' y' post -> Hx'.
    apply (Hadj ((kx, vx) :: pre) x' y' post eq_refl Hx').
Qed.

(** X7.  When no two neighbouring attributes of the old element are both
    missing from the new element, and the attribute names of the new
    element are valid and in lower case, [updateElementAttributes] makes
    the old element's attributes those of the new element: every name
    reads the same on both afterwards. *)
Theorem updateElementAttributes_agrees
        (oldElement newElement : node)
        (Hold : Dom.nodeType oldElement = ELEMENT_NODE)
        (Hnew : Dom.nodeType newElement = ELEMENT_NODE)
        (Hlight : NodeUtils.isHeavyElement (Some oldElement) = false)
        (Hnames : NoDup (map fst (attributes oldElement)))
        (Hnames' : NoDup (map fst (attributes newElement)))
        (Hvalid : forall name value,
            In (name, value) (attributes newElement) ->
            validName name = true /\ toLowerCase name = name)
        (Hapart : forall pre x y post,
            attributes oldElement = pre ++ x :: y :: post ->
            hasAttribute newElement (fst x) = false ->
            hasAttribute newElement (fst y) = true) :
  exists updated,
    NodeUtils.updateElementAttributes oldElement (Some newElement)
    = (Ok tt, updated) /\
    forall name, getAttribute updated name = getAttribute newElement name.
Proof.
  destruct oldElement as [| |i t a cs]; try discriminate.
  destruct (updateElementAttributes_spec i t a cs newElement
              Hnew Hlight Hnames Hnames' Hvalid) as (synced & E & H1 & H2).
  exists (Element i t synced cs). split; [exact E|].
  intros name. unfold getAttribute at 1. cbn [attributes].
  destruct (getAttribute newElement name) as [v|] eqn:En.
  - apply H1, lookupAttr_Some_In, En.
  - rewrite H2 by (unfold hasAttribute; rewrite En; reflexivity).
    apply sweep_clears.
    + intros pre x y post Ha Hx. unfold staleFor in *.
      apply negb_true_iff in Hx. rewrite (Hapart pre x y post Ha Hx).
      reflexivity.
    + unfold staleFor, hasAttribute. rewrite En. reflexivity.
Qed.

Lemma updateElementAttributes_agrees_witness :
  exists updated,
    NodeUtils.updateElementAttributes caption (Some badge')
    = (Ok tt, updated) /\
    forall name, getAttribute updated name = getAttribute badge' name.
Proof.
  apply (updateElementAttributes_agrees caption badge'); try reflexivity.
  - simpl. repeat constructor; simpl; intuition discriminate.
  - simpl. repeat constructor; simpl; intuition discriminate.
  - intros name value [[= <- <-]|[]]. split; reflexivity.
  - intros pre x y post Ha Hx. simpl in Ha.
    destruct pre as [|p [|q pre]]; simpl in Ha.
    + injection Ha as <- <- _. reflexivity.
    + injection Ha as _ _ Ha. discriminate.
    + injection Ha as _ _ Ha. destruct pre; discriminate.
Defined.

(** ** Attribute differences and their replay *)

Lemma collect_NoDup attrs :
  NoDup (map fst attrs) -> NodeComparator.collect attrs = attrs.
Proof.
  unfold NodeComparator.collect.
  enough (G : forall m, NoDup (map fst (m ++ attrs)) ->
                        fold_left (fun m kv => Map_set m (fst kv) (snd kv))
                                  attrs m = m ++ attrs)
    by (intros H; apply (G [] H)).
  induction attrs as [|[k v] attrs IH]; intros m Hnd; simpl.
  - rewrite app_nil_r. reflexivity.
  - rewrite Map_set_fresh.
    + rewrite IH; rewrite <- app_assoc; [reflexivity|exact Hnd].
    + destruct (Map_has m k) eqn:E; [|reflexivity].
      apply Map_has_In in E. unfold Map_keys in E.
      rewrite map_app in Hnd. simpl in Hnd.
      apply NoDup_remove_2 in Hnd. exfalso. apply Hnd, in_or_app. auto.
Qed.

Lemma existsb_eqb_In x l : existsb (String.eqb x) l = true <-> In x l.
Proof.
  rewrite existsb_exists. split.
  - intros (y & Hy & E). apply String.eqb_eq in E. subst. exact Hy.
  - intros H. exists x. split; [exact H|apply String.eqb_refl].
Qed.

Lemma Set_of_spec xs :
  forall seen,
    NoDup (Set_of xs seen) /\
    forall k, In k (Set_of xs seen) <-> In k xs /\ ~ In k seen.
Proof.
  induction xs as [|x xs IH]; intros seen; simpl.
  - split; [constructor|]. tauto.
  - destruct (existsb (String.eqb x) seen) eqn:E.
    + apply existsb_eqb_In in E. destruct (IH seen) as [Hnd Hin].
      split; [exact Hnd|]. intros k. rewrite Hin.
      split; [tauto|]. intros [[<-|H] Hs]; tauto.
    + assert (Hx : ~ In x seen)
        by (intros H; apply existsb_eqb_In in H; congruence).
      destruct (IH (x :: seen)) as [Hnd Hin].
      split.
      * constructor; [|exact Hnd]. rewrite Hin. simpl. tauto.
      * intros k. simpl. rewrite Hin. simpl.
        destruct (string_dec x k) as [<-|Hk]; tauto.
Qed.

Lemma option_eqb_eq (a b : option string) :
  option_eqb String.eqb a b = true <-> a = b.
Proof.
  destruct a, b; simpl; try (split; congruence).
  rewrite String.eqb_eq. split; congruence.
Qed.

Lemma reported_names_NoDup (same : string -> bool)
      (report : string -> NodeComparator.attrChange) keys :
  (forall k, NodeComparator.name (report k) = k) -> NoDup keys ->
  NoDup (map NodeComparator.name
             (flat_map (fun k => if same k then [] else [report k]) keys)).
Proof.
  intros Hname. induction keys as [|k keys IH]; intros Hnd; simpl;
    [constructor|].
  inversion Hnd as [|? ? Hk Hrest]; subst.
  destruct (same k); simpl; [apply IH, Hrest|].
  rewrite Hname. constructor; [|apply IH, Hrest].
  intros H. apply Hk. rewrite in_map_iff in H. destruct H as (c & <- & Hc).
  apply in_flat_map in Hc as (k' & Hk' & Hc).
  destruct (same k'); simpl in Hc; [tauto|].
  destruct Hc as [<-|[]]. rewrite Hname. exact Hk'.
Qed.

Lemma compareAttributes_spec old new :
  NoDup (map fst (attributes old)) -> NoDup (map fst (attributes new)) ->
  NoDup (map NodeComparator.name (NodeComparator.compareAttributes old new)) /\
  (forall c,
      In c (NodeComparator.compareAttributes old new) ->
      NodeComparator.oldValue c = getAttribute old (NodeComparator.name c) /\
      NodeComparator.newValue c = getAttribute new (NodeComparator.name c) /\
      NodeComparator.oldValue c <> NodeComparator.newValue c) /\
  (forall k,
      getAttribute old k <> getAttribute new k ->
      exists c, In c (NodeComparator.compareAttributes old new) /\
                NodeComparator.name c = k).
Proof.
  intros Hold Hnew. unfold NodeComparator.compareAttributes, getAttribute.
  rewrite !collect_NoDup by assumption. unfold Map_keys.
  destruct (Set_of_spec (map fst (attributes old) ++ map fst (attributes new))
                        []) as [Hnd Hin].
  set (keys := Set_of _ _) in *.
  split; [|split].
  - apply (reported_names_NoDup
             (fun k => option_eqb String.eqb (Map_get (attributes old) k)
                                  (Map_get (attributes new) k))
             (fun k => NodeComparator.mkAttrChange
                         k (Map_get (attributes old) k)
                         (Map_get (attributes new) k)));
      [reflexivity|exact Hnd].
  - intros c Hc. apply in_flat_map in Hc as (k & _ & Hc).
    destruct (option_eqb _ _ _) eqn:E; simpl in Hc; [tauto|].
    destruct Hc as [<-|[]]. simpl. repeat split.
    intros H. apply option_eqb_eq in H. congruence.
  - intros k Hk.
    exists (NodeComparator.mkAttrChange k (lookupAttr (attributes old) k)
                                        (lookupAttr (attributes new) k)).
    split; [|reflexivity]. apply in_flat_map. exists k. split.
    + apply Hin. split; [|tauto]. apply in_or_app.
      destruct (lookupAttr (attributes old) k) eqn:Eo.
      * left. apply lookupAttr_Some_In in Eo.
        apply (in_map fst) in Eo. exact Eo.
      * right. destruct (lookupAttr (attributes new) k) eqn:En;
          [|congruence].
        apply lookupAttr_Some_In in En. apply (in_map fst) in En. exact En.
    + destruct (option_eqb _ _ _) eqn:E; [|left; reflexivity].
      apply option_eqb_eq in E. exact (Hk E).
Qed.

(** X8.  [compareAttributes] reports exactly the names on which the two
    elements differ, each once, with the value each element holds (absent
    values as such). *)
Theorem compareAttributes_reports_differences (oldElement newElement : node)
        (Hnames : NoDup (map fst (attributes oldElement)))
        (Hnames' : NoDup (map fst (attributes newElement))) :
  let changes := NodeComparator.compareAttributes oldElement newElement in
  NoDup (map NodeComparator.name changes) /\
  (forall c,
      In c changes ->
      NodeComparator.oldValue c
      = getAttribute oldElement (NodeComparator.name c) /\
      NodeComparator.newValue c
      = getAttribute newElement (NodeComparator.name c) /\
      NodeComparator.oldValue c <> NodeComparator.newValue c) /\
  (forall name,
      getAttribute oldElement name <> getAttribute newElement name ->
      exists c, In c changes /\ NodeComparator.name c = name).
Proof. exact (compareAttributes_spec oldElement newElement Hnames Hnames'). Qed.

Lemma compareAttributes_reports_differences_witness :
  let changes := NodeComparator.compareAttributes badge badge' in
  NoDup (map NodeComparator.name changes) /\
  (forall c,
      In c changes ->
      NodeComparator.oldValue c = getAttribute badge (NodeComparator.name c) /\
      NodeComparator.newValue c = getAttribute badge' (NodeComparator.name c) /\
      NodeComparator.oldValue c <> NodeComparator.newValue c) /\
  (forall name,
      getAttribute badge name <> getAttribute badge' name ->
      exists c, In c changes /\ NodeComparator.name c = name).
Proof.
  apply (compareAttributes_reports_differences badge badge');
    simpl; repeat constructor; simpl; intuition discriminate.
Defined.

Lemma findNode_hit id t : nid t = id -> findNode id t = Some t.
Proof.
  intros <-. destruct t; simpl; rewrite Nat.eqb_refl; reflexivity.
Qed.

Lemma findNode_mapNode id f t :
  (forall n, nid (f n) = nid n) ->
  findNode id (mapNode id f t) = option_map f (findNode id t).
Proof.
  intros Hf.
  induction t as [i d|i d|i tg a cs IH] using node_induction.
  - simpl. destruct (i =? id) eqn:E; simpl; [|rewrite E; reflexivity].
    apply findNode_hit. rewrite Hf. simpl. apply Nat.eqb_eq, E.
  - simpl. destruct (i =? id) eqn:E; simpl; [|rewrite E; reflexivity].
    apply findNode_hit. rewrite Hf. simpl. apply Nat.eqb_eq, E.
  - simpl. destruct (i =? id) eqn:E; simpl.
    + apply findNode_hit. rewrite Hf. simpl. apply Nat.eqb_eq, E.
    + rewrite E. induction cs as [|c cs IHcs]; simpl; [reflexivity|].
      inversion IH as [|? ? Hc Hcs]; subst. rewrite Hc.
      destruct (findNode id c); simpl; [reflexivity|]. apply IHcs, Hcs.
Qed.

Lemma lookupAttr_removeAttr_same a k : lookupAttr (removeAttr a k) k = None.
Proof.
  unfold removeAttr.
  induction a as [|[k' v] a IH]; simpl; [reflexivity|].
  destruct (k' =? k)%string eqn:E; simpl; [exact IH|]. rewrite E. exact IH.
Qed.

Lemma lookupAttr_removeAttr_other a k k' :
  k <> k' -> lookupAttr (removeAttr a k) k' = lookupAttr a k'.
Proof.
  unfold removeAttr. intros Hk.
  induction a as [|[k0 v] a IH]; simpl; [reflexivity|].
  destruct (k0 =? k)%string eqn:E; simpl.
  - apply String.eqb_eq in E. subst k0.
    apply String.eqb_neq in Hk. rewrite Hk. exact IH.
  - rewrite IH. reflexivity.
Qed.

(** One [setAttribute]/[removeAttribute] of the replay, on an attribute
    list. *)
Lemma replay_agrees (new_attrs : list (string * string)) changes :
  NoDup (map NodeComparator.name changes) ->
  (forall c, In c changes ->
             NodeComparator.newValue c
             = lookupAttr new_attrs (NodeComparator.name c) /\
             (NodeComparator.newValue c <> None ->
              toLowerCase (NodeComparator.name c) = NodeComparator.name c)) ->
  forall a k,
    lookupAttr
      (fold_left
         (fun a c =>
            match NodeComparator.newValue c with
            | None => removeAttr a (NodeComparator.name c)
            | Some v => setAttr a (toLowerCase (NodeComparator.name c)) v
            end) changes a) k
    = if existsb (String.eqb k) (map NodeComparator.name changes)
      then lookupAttr new_attrs k else lookupAttr a k.
Proof.
  induction changes as [|c changes IH]; intros Hnd Hc a k; simpl;
    [reflexivity|].
  inversion Hnd as [|? ? Hfresh Hrest]; subst.
  rewrite IH; [|exact Hrest|intros c' Hc'; apply Hc; right; exact Hc'].
  destruct (Hc c (or_introl eq_refl)) as [Hnew Hlow].
  destruct (k =? NodeComparator.name c)%string eqn:E; simpl.
  - apply String.eqb_eq in E. subst k.
    destruct (existsb _ _) eqn:Ex; [reflexivity|].
    rewrite <- Hnew.
    destruct (NodeComparator.newValue c) as [v|].
    + rewrite Hlow by discriminate. apply lookupAttr_setAttr_same.
    + apply lookupAttr_removeAttr_same.
  - destruct (existsb _ _); [reflexivity|].
    apply String.eqb_neq in E.
    destruct (NodeComparator.newValue c) as [v|].
    + rewrite Hlow by discriminate. apply lookupAttr_setAttr_other. congruence.
    + apply lookupAttr_removeAttr_other. congruence.
Qed.

Lemma applyChange_updateAttributes callback path element i t cs changes :
  (forall c, In c changes -> NodeComparator.newValue c <> None ->
             validName (NodeComparator.name c) = true) ->
  forall a w,
    findNode (nid element) (dom w) = Some (Element i t a cs) ->
    exists w',
      applyChange callback (updateAttributes path element changes) w
      = (Ok tt, w') /\
      next w' = next w /\ console w' = console w /\
      findNode (nid element) (dom w')
      = Some (Element i t
                (fold_left
                   (fun a c =>
                      match NodeComparator.newValue c with
                      | None => removeAttr a (NodeComparator.name c)
                      | Some v =>
                          setAttr a (toLowerCase (NodeComparator.name c)) v
                      end) changes a) cs).
Proof.
  induction changes as [|c changes IH]; intros Hvalid a w Hlive.
  - exists w. simpl. auto.
  - cbn [applyChange forEach] in *.
    unfold bind at 1. unfold bind at 1. unfold get at 1.
    unfold resolve. rewrite Hlive.
    destruct (NodeComparator.newValue c) as [v|] eqn:Ev.
    + rewrite (Hvalid c (or_introl eq_refl)) by (rewrite Ev; discriminate).
      unfold modifyDom at 1, modify at 1.
      match goal with |- context [forEach changes ?b ?w1] =>
        destruct (IH (fun c' H => Hvalid c' (or_intror H))
                     (setAttr a (toLowerCase (NodeComparator.name c)) v) w1)
          as (w' & E & Hn & Hc & Hf)
      end.
      { cbn [dom]. rewrite findNode_mapNode by (intros []; reflexivity).
        rewrite Hlive. reflexivity. }
      exists w'. cbn [fold_left]. rewrite Ev. auto.
    + unfold modifyDom at 1, modify at 1.
      match goal with |- context [forEach changes ?b ?w1] =>
        destruct (IH (fun c' H => Hvalid c' (or_intror H))
                     (removeAttr a (NodeComparator.name c)) w1)
          as (w' & E & Hn & Hc & Hf)
      end.
      { cbn [dom]. rewrite findNode_mapNode by (intros []; reflexivity).
        rewrite Hlive. reflexivity. }
      exists w'. cbn [fold_left]. rewrite Ev. auto.
Qed.

(** X9.  Replaying the attribute differences of two elements makes the old
    element carry the attributes of the new one.  For an old element that
    is part of the live tree, and a new element whose attribute names are
    valid and in lower case, [applyChange] on the [updateAttributes]
    operation built from [compareAttributes] returns normally, and
    afterwards the live element reads every attribute name as the new
    element does; its identity, tag and children are as before. *)
Theorem updateAttributes_round_trip
        (callback : option (node -> node)) (path : string)
        (oldElement newElement : node) (w : world)
        (Hold : Dom.nodeType oldElement = ELEMENT_NODE)
        (Hlive : findNode (nid oldElement) (dom w) = Some oldElement)
        (Hnames : NoDup (map fst (attributes oldElement)))
        (Hnames' : NoDup (map fst (attributes newElement)))
        (Hvalid : forall name value,
            In (name, value) (attributes newElement) ->
            validName name = true /\ toLowerCase name = name) :
  exists w' updated,
    applyChange callback
      (updateAttributes path oldElement
         (NodeComparator.compareAttributes oldElement newElement)) w
    = (Ok tt, w') /\
    next w' = next w /\ console w' = console w /\
    findNode (nid oldElement) (dom w') = Some updated /\
    nid updated = nid oldElement /\
    Dom.tagName updated = Dom.tagName oldElement /\
    childNodes updated = childNodes oldElement /\
    forall name, getAttribute updated name = getAttribute newElement name.
Proof.
  destruct oldElement as [| |i t a cs]; try discriminate.
  destruct (compareAttributes_spec (Element i t a cs) newElement
              Hnames Hnames') as (Hnd & Hsound & Hcomplete).
  set (changes := NodeComparator.compareAttributes _ _) in *.
  assert (Hsome : forall c, In c changes ->
                            NodeComparator.newValue c <> None ->
                            In (NodeComparator.name c,
                                match NodeComparator.newValue c with
                                | Some v => v | None => ""
                                end) (attributes newElement)).
  { intros c Hc Hv. destruct (Hsound c Hc) as (_ & En & _).
    destruct (NodeComparator.newValue c) as [v|]; [|contradiction].
    apply lookupAttr_Some_In. symmetry. exact En. }
  destruct (applyChange_updateAttributes callback path (Element i t a cs)
              i t cs changes
              (fun c Hc Hv => proj1 (Hvalid _ _ (Hsome c Hc Hv))) a w Hlive)
    as (w' & E & Hn & Hc & Hf).
  exists w'. eexists. split; [exact E|]. split; [exact Hn|].
  split; [exact Hc|]. split; [exact Hf|]. repeat split.
  intros name. unfold getAttribute at 1. cbn [attributes].
  rewrite (replay_agrees (attributes newElement) changes Hnd).
  - destruct (existsb _ _) eqn:Ex; [reflexivity|].
    destruct (option_eqb String.eqb (getAttribute (Element i t a cs) name)
                         (getAttribute newElement name)) eqn:Eq.
    + apply option_eqb_eq in Eq. exact Eq.
    + destruct (Hcomplete name) as (c & Hin & Hname).
      * intros H. apply option_eqb_eq in H. congruence.
      * assert (existsb (String.eqb name) (map NodeComparator.name changes)
                = true); [|congruence].
        apply existsb_eqb_In. rewrite <- Hname. apply in_map, Hin.
  - intros c Hin. destruct (Hsound c Hin) as (_ & En & _).
    split; [exact En|]. intros Hv.
    apply (Hvalid _ _ (Hsome c Hin Hv)).
Qed.

Lemma updateAttributes_round_trip_witness :
  exists w' updated,
    applyChange None
      (updateAttributes "div > span" badge
         (NodeComparator.compareAttributes badge badge'))
      (mkWorld badgeHolder 100 [])
    = (Ok tt, w') /\
    next w' = 100 /\ console w' = [] /\
    findNode (nid badge) (dom w') = Some updated /\
    nid updated = nid badge /\
    Dom.tagName updated = Dom.tagName badge /\
    childNodes updated = childNodes badge /\
    forall name, getAttribute updated name = getAttribute badge' name.
Proof.
  apply (updateAttributes_round_trip None "div > span" badge badge'
           (mkWorld badgeHolder 100 [])); try reflexivity.
  - simpl. repeat constructor; simpl; intuition discriminate.
  - simpl. repeat constructor; simpl; intuition discriminate.
  - simpl. intros name value [[= <- <-]|[]]. split; reflexivity.
Defined.

(** ** Comparators *)

Lemma option_eqb_sym (a b : option string) :
  option_eqb String.eqb a b = option_eqb String.eqb b a.
Proof. destruct a, b; simpl; auto using String.eqb_sym. Qed.

Lemma option_eqb_nat_sym (a b : option nat) :
  option_eqb Nat.eqb a b = option_eqb Nat.eqb b a.
Proof. destruct a, b; simpl; auto using Nat.eqb_sym. Qed.

Lemma option_eqb_nat_refl (a : option nat) : option_eqb Nat.eqb a a = true.
Proof. destruct a; simpl; auto using Nat.eqb_refl. Qed.

Lemma listed_In l tag :
  NodeComparator.listed l tag = true <-> exists t, tag = Some t /\ In t l.
Proof.
  unfold NodeComparator.listed. destruct tag as [t|].
  - rewrite existsb_eqb_In. split; [eauto|]. intros (t' & [= <-] & H). exact H.
  - split; [discriminate|]. intros (t & H & _). discriminate.
Qed.

(** X10.  [isSimpleElementMatch] does not depend on the order of its
    arguments, and it accepts a pair of elements only when both carry the
    same tag and that tag is one of [br], [hr], [p], [div], [span],
    [strong], [em], [u], [i], [b]: elements of any other tag never match
    this way. *)
Theorem isSimpleElementMatch_symmetric (vNode1 vNode2 : option VDom.vnode) :
  NodeComparator.isSimpleElementMatch vNode1 vNode2
  = NodeComparator.isSimpleElementMatch vNode2 vNode1 /\
  forall v1 v2,
    vNode1 = Some v1 -> vNode2 = Some v2 ->
    NodeComparator.isSimpleElementMatch vNode1 vNode2 = Ok true ->
    (VDom.type v1 = "text" /\ VDom.type v2 = "text") \/
    (VDom.type v1 = "element" /\ VDom.type v2 = "element" /\
     VDom.tagName v1 = VDom.tagName v2 /\
     exists tag,
       VDom.tagName v1 = Some tag /\
       In tag (NodeComparator.selfClosingElements
                 ++ NodeComparator.containerElements)).
Proof.
  split.
  - destruct vNode1 as [v1|], vNode2 as [v2|]; try reflexivity.
    unfold NodeComparator.isSimpleElementMatch.
    rewrite (option_eqb_sym (VDom.tagName v2) (VDom.tagName v1)).
    replace (Z.abs (Z.of_nat (List.length (VDom.childrenOrEmpty v2))
                    - Z.of_nat (List.length (VDom.childrenOrEmpty v1))))
      with (Z.abs (Z.of_nat (List.length (VDom.childrenOrEmpty v1))
                   - Z.of_nat (List.length (VDom.childrenOrEmpty v2))))
      by lia.
    destruct (VDom.type v1 =? "text")%string,
      (VDom.type v2 =? "text")%string,
      (VDom.type v1 =? "element")%string,
      (VDom.type v2 =? "element")%string; cbn [andb]; try reflexivity;
      try (destruct (VDom.content v1) as [c1|], (VDom.content v2) as [c2|];
           try reflexivity;
           destruct (truthy (trim c1)), (truthy (trim c2)); cbn [andb negb];
           try reflexivity;
           destruct (String.length (trim c1) =? 1),
             (String.length (trim c2) =? 1); reflexivity);
      destruct (NodeComparator.listed NodeComparator.selfClosingElements
                  (VDom.tagName v1)),
        (NodeComparator.listed NodeComparator.selfClosingElements
           (VDom.tagName v2)),
        (NodeComparator.listed NodeComparator.containerElements
           (VDom.tagName v1)),
        (NodeComparator.listed NodeComparator.containerElements
           (VDom.tagName v2)),
        (option_eqb String.eqb (VDom.tagName v1) (VDom.tagName v2));
      cbn [andb]; try reflexivity;
      destruct (List.length (VDom.childrenOrEmpty v1) =? 0),
        (List.length (VDom.childrenOrEmpty v2) =? 0),
        (0 <? List.length (VDom.childrenOrEmpty v1)),
        (0 <? List.length (VDom.childrenOrEmpty v2));
      cbn [andb]; reflexivity.
  - intros v1 v2 -> ->. unfold NodeComparator.isSimpleElementMatch.
    destruct ((VDom.type v1 =? "text")%string
              && (VDom.type v2 =? "text")%string) eqn:Et.
    { intros _. left. apply andb_true_iff in Et as [E1 E2].
      split; apply String.eqb_eq; assumption. }
    destruct ((VDom.type v1 =? "element")%string
              && (VDom.type v2 =? "element")%string) eqn:Ee;
      [|discriminate].
    apply andb_true_iff in Ee as [E1 E2].
    apply String.eqb_eq in E1, E2. intros H. right.
    split; [exact E1|]. split; [exact E2|].
    destruct (NodeComparator.listed NodeComparator.selfClosingElements
                (VDom.tagName v1)
              && NodeComparator.listed NodeComparator.selfClosingElements
                   (VDom.tagName v2)
              && option_eqb String.eqb (VDom.tagName v1) (VDom.tagName v2))
      eqn:Es.
    { apply andb_true_iff in Es as [Es Eq].
      apply andb_true_iff in Es as [Es _].
      apply option_eqb_eq in Eq. split; [exact Eq|].
      apply listed_In in Es as (tag & Ht & Hin).
      exists tag. split; [exact Ht|]. apply in_or_app. auto. }
    destruct (NodeComparator.listed NodeComparator.containerElements
                (VDom.tagName v1)
              && NodeComparator.listed NodeComparator.containerElements
                   (VDom.tagName v2)
              && option_eqb String.eqb (VDom.tagName v1) (VDom.tagName v2))
      eqn:Ec; [|discriminate].
    apply andb_true_iff in Ec as [Ec Eq].
    apply andb_true_iff in Ec as [Ec _].
    apply option_eqb_eq in Eq. split; [exact Eq|].
    apply listed_In in Ec as (tag & Ht & Hin).
    exists tag. split; [exact Ht|]. apply in_or_app. auto.
Qed.

Lemma sameKeyAttrs_refl v a names :
  VDom.attributes v = Some a ->
  NodeComparator.sameKeyAttrs v v names = Ok true.
Proof.
  intros Ha. induction names as [|n names IH]; simpl; [reflexivity|].
  unfold NodeComparator.attr. rewrite Ha. simpl.
  rewrite option_eqb_refl. exact IH.
Qed.

Lemma sameKeyAttrs_sym v1 v2 names :
  NodeComparator.sameKeyAttrs v1 v2 names
  = NodeComparator.sameKeyAttrs v2 v1 names.
Proof.
  induction names as [|n names IH]; simpl; [reflexivity|].
  unfold NodeComparator.attr.
  destruct (VDom.attributes v1), (VDom.attributes v2); simpl;
    try reflexivity.
  rewrite option_eqb_sym, IH. reflexivity.
Qed.

(** X11.  [nodesAreEquivalent] answers true on a node compared with itself
    whenever the node is a text node, or an element that carries an
    attribute map; and between two nodes of the same [type] the answer
    (or the exception) does not depend on the order of the arguments. *)
Theorem nodesAreEquivalent_reflexive_symmetric (v1 v2 : VDom.vnode) :
  (VDom.type v1 = "text" \/
   (VDom.type v1 = "element" /\ VDom.attributes v1 <> None) ->
   NodeComparator.nodesAreEquivalent (Some v1) (Some v1) = Ok true) /\
  (VDom.type v1 = VDom.type v2 ->
   NodeComparator.nodesAreEquivalent (Some v1) (Some v2)
   = NodeComparator.nodesAreEquivalent (Some v2) (Some v1)).
Proof.
  split.
  - unfold NodeComparator.nodesAreEquivalent.
    rewrite option_eqb_nat_refl. cbn [negb].
    intros [Ht|[He Ha]].
    + rewrite Ht. cbn. rewrite option_eqb_refl. reflexivity.
    + rewrite He. cbn [String.eqb Ascii.eqb Bool.eqb].
      rewrite option_eqb_refl. cbn [negb].
      destruct (VDom.attributes v1) as [a|] eqn:Ea; [|contradiction].
      destruct (VDom._immutable v1 || VDom._immutable v1).
      * unfold NodeComparator.attr. rewrite Ea. cbn [rbind].
        rewrite !String.eqb_refl.
        destruct (truthy _ && truthy _ && true && true); reflexivity.
      * destruct (truthy_opt (VDom._nodeId v1) && truthy_opt (VDom._nodeId v1));
          [rewrite option_eqb_refl; reflexivity|].
        apply (sameKeyAttrs_refl v1 a), Ea.
  - intros Ht. unfold NodeComparator.nodesAreEquivalent.
    rewrite <- Ht.
    rewrite (option_eqb_nat_sym (VDom.nodeType v2) (VDom.nodeType v1)).
    destruct (negb (option_eqb Nat.eqb (VDom.nodeType v1) (VDom.nodeType v2)));
      [reflexivity|].
    destruct (VDom.type v1 =? "text")%string.
    { rewrite (option_eqb_sym (VDom.content v2) (VDom.content v1)).
      destruct (option_eqb String.eqb (VDom.content v1) (VDom.content v2));
        [reflexivity|].
      destruct (VDom.content v1), (VDom.content v2); try reflexivity.
      rewrite andb_comm. reflexivity. }
    destruct (VDom.type v1 =? "element")%string; [|reflexivity].
    rewrite (option_eqb_sym (VDom.tagName v2) (VDom.tagName v1)).
    destruct (option_eqb String.eqb (VDom.tagName v1) (VDom.tagName v2));
      cbn [negb]; [|reflexivity].
    rewrite (orb_comm (VDom._immutable v2)).
    destruct (VDom._immutable v1 || VDom._immutable v2).
    + unfold NodeComparator.attr.
      destruct (VDom.attributes v1) as [a1|], (VDom.attributes v2) as [a2|];
        cbn [rbind]; try reflexivity.
      rewrite !andb_true_r.
      rewrite (String.eqb_sym (orEmpty (lookupAttr a2 "data-block-position"))).
      rewrite (String.eqb_sym (orEmpty (lookupAttr a2 "data-raw"))).
      rewrite (String.eqb_sym (orEmpty (lookupAttr a2 "data-language"))).
      rewrite (andb_comm (truthy (orEmpty (lookupAttr a2 _)))).
      reflexivity.
    + rewrite (andb_comm (truthy_opt (VDom._nodeId v2))).
      destruct (truthy_opt (VDom._nodeId v1) && truthy_opt (VDom._nodeId v2)).
      * rewrite option_eqb_sym. reflexivity.
      * apply sameKeyAttrs_sym.
Qed.

Lemma truthy_opt_and_eq (a b : option string) :
  truthy_opt a && truthy_opt b && option_eqb String.eqb a b
  = truthy_opt b && truthy_opt a && option_eqb String.eqb b a.
Proof.
  rewrite (option_eqb_sym b a), (andb_comm (truthy_opt b)). reflexivity.
Qed.

(** X12.  [childrenMatch] does not depend on the order of its arguments.
    A node matches itself exactly when it is a heavy element that names a
    resource ([src] or [data-original-src]), or a text node or an element
    that is not heavy: a comment node, and a heavy element without a
    resource, do not even match themselves. *)
Theorem childrenMatch_symmetric (oldChild newChild : option node)
        (isHeavyElement : option node -> bool) (c : node) :
  NodeComparator.childrenMatch oldChild newChild isHeavyElement
  = NodeComparator.childrenMatch newChild oldChild isHeavyElement /\
  StructuralComparator.childrenMatch (Some c) (Some c)
  = if NodeUtils.isHeavyElement (Some c)
    then truthy_opt (NodeComparator.resourceOf c)
    else (Dom.nodeType c =? TEXT_NODE) || (Dom.nodeType c =? ELEMENT_NODE).
Proof.
  split.
  - unfold NodeComparator.childrenMatch.
    destruct oldChild as [o|], newChild as [n|]; try reflexivity.
    rewrite (andb_comm (isHeavyElement (Some n))).
    destruct (isHeavyElement (Some o) && isHeavyElement (Some n));
      [apply truthy_opt_and_eq|].
    rewrite (Nat.eqb_sym (Dom.nodeType n)).
    destruct (Dom.nodeType o =? Dom.nodeType n) eqn:E; [|reflexivity].
    apply Nat.eqb_eq in E. rewrite <- E.
    rewrite (String.eqb_sym (textContent n)).
    rewrite (String.eqb_sym (trim (textContent n))).
    rewrite (option_eqb_sym (Dom.tagName n)). reflexivity.
  - unfold StructuralComparator.childrenMatch, NodeComparator.childrenMatch.
    rewrite andb_diag.
    destruct (NodeUtils.isHeavyElement (Some c)).
    + rewrite option_eqb_refl, andb_diag, andb_true_r. reflexivity.
    + rewrite Nat.eqb_refl, option_eqb_refl, !String.eqb_refl, andb_true_r.
      destruct (Dom.nodeType c =? TEXT_NODE), (Dom.nodeType c =? ELEMENT_NODE);
        reflexivity.
Qed.

(** X13.  An answer of [isSimpleInsertionOrDeletion] is an insertion when
    the new list is the longer one and a deletion when it is the shorter;
    its count is the difference of the lengths, between 1 and 5; and its
    position lies within the shorter list (its end included).  Lists of
    equal length, and lists whose lengths differ by more than 5, get no
    answer. *)
Theorem isSimpleInsertionOrDeletion_answer (old new : list node) :
  (forall sc,
      isSimpleInsertionOrDeletion old new = Some sc ->
      1 <= count sc <= 5 /\
      position sc <= Nat.min (List.length old) (List.length new) /\
      match type sc with
      | insertion => List.length new = List.length old + count sc
      | deletion => List.length old = List.length new + count sc
      end) /\
  (List.length old = List.length new \/
   List.length old + 5 < List.length new \/
   List.length new + 5 < List.length old ->
   isSimpleInsertionOrDeletion old new = None).
Proof.
  split.
  - intros sc H. apply detection_sound in H as (Hlen & Hcount & _).
    split; [exact Hcount|]. destruct (type sc); split; lia.
  - intros H.
    destruct (isSimpleInsertionOrDeletion old new) as [sc|] eqn:E;
      [|reflexivity].
    apply detection_sound in E as (Hlen & Hcount & _).
    destruct (type sc); lia.
Qed.

(** ** The differ after a structural detection *)

Lemma childrenMatch_shouldSkip a b :
  StructuralComparator.childrenMatch a b = true ->
  shouldSkipComparison a b = Ok true.
Proof.
  unfold StructuralComparator.childrenMatch, NodeComparator.childrenMatch,
    shouldSkipComparison.
  destruct a as [o|], b as [n|]; try discriminate.
  destruct (NodeUtils.isHeavyElement (Some o)
            && NodeUtils.isHeavyElement (Some n)).
  - intros ->. reflexivity.
  - intros H.
    destruct (Dom.nodeType o =? Dom.nodeType n) eqn:E; [|discriminate].
    cbn [andb].
    destruct o as [i d|i d|i t a cs], n as [j e|j e|j u b ds];
      try discriminate; cbn in H |- *.
    + apply String.eqb_eq in H. subst e. rewrite String.eqb_refl. reflexivity.
    + destruct (t =? u)%string; [|discriminate H].
      cbn [andb]. f_equal. exact H.
Qed.

Lemma compareUnlessSkipped_matched rec a b path s :
  StructuralComparator.childrenMatch a b = true ->
  compareUnlessSkipped rec a b path s = (Ok [], s).
Proof.
  intros H. unfold compareUnlessSkipped, bind, lift.
  rewrite (childrenMatch_shouldSkip a b H). reflexivity.
Qed.

Lemma compareRemainingChildren_matched rec old new path sc s :
  passes old new sc (position sc) = true ->
  compareRemainingChildren rec old new path (type sc) (position sc) (count sc)
                           s
  = (Ok [], s).
Proof.
  unfold passes, compareRemainingChildren, testInsertionAtPosition,
    testDeletionAtPosition.
  destruct (type sc); intros H; apply andb_true_iff in H as [H1 H2];
    rewrite forallb_forall in H1, H2;
    unfold bind;
    rewrite pushEach_nil
      by (intros i Hi; apply compareUnlessSkipped_matched, H1, Hi);
    rewrite pushEach_nil
      by (intros i Hi; apply compareUnlessSkipped_matched, H2, Hi);
    reflexivity.
Qed.

Lemma skipn_nth_error {A} (l : list A) n c :
  nth_error l n = Some c -> skipn n l = c :: skipn (S n) l.
Proof.
  revert l; induction n as [|n IH]; intros [|x l] H; try discriminate.
  - injection H as ->. reflexivity.
  - simpl in H. apply IH in H. simpl. exact H.
Qed.

Lemma nth_error_within {A} (l : list A) n :
  n < List.length l -> exists c, nth_error l n = Some c.
Proof.
  intros H. destruct (nth_error l n) as [c|] eqn:E; [eauto|].
  apply nth_error_None in E. lia.
Qed.

Lemma pushEach_clones path parent new pos count :
  forall k s,
    pos + k + count <= List.length new ->
    pushEach (seq k count)
      (fun i =>
         match nth_error new (pos + i) with
         | Some newChild =>
             bind (clone newChild)
                  (fun c => ret [insertChild path parent c (pos + i)])
         | None => throw (undefinedRead "cloneNode")
         end) s
    = let (clones, s') := cloneList (firstn count (skipn (pos + k) new)) s in
      (Ok (insertionsAt path parent clones (pos + k)), s').
Proof.
  induction count as [|count IH]; intros k s Hlen; [reflexivity|].
  cbn [seq pushEach]. unfold bind at 1.
  destruct (nth_error_within new (pos + k) ltac:(lia)) as (c & Ec).
  rewrite Ec, (skipn_nth_error _ _ _ Ec). cbn [firstn cloneList].
  unfold bind at 1, clone at 1.
  destruct (cloneNode c s) as [c' s1]. unfold ret at 1.
  unfold bind at 1. rewrite IH by lia.
  replace (pos + S k) with (S (pos + k)) by lia.
  destruct (cloneList _ s1) as [clones s2]. reflexivity.
Qed.

Lemma removals_flat_map path parent old pos count :
  forall k,
    pos + k + count <= List.length old ->
    flat_map (fun i =>
                match nth_error old (pos + i) with
                | Some oldChild =>
                    [removeChild path parent oldChild (pos + i)]
                | None => []
                end) (seq k count)
    = removalsAt path parent (firstn count (skipn (pos + k) old)) (pos + k).
Proof.
  induction count as [|count IH]; intros k Hlen; [reflexivity|].
  cbn [seq flat_map].
  destruct (nth_error_within old (pos + k) ltac:(lia)) as (c & Ec).
  rewrite Ec, (skipn_nth_error _ _ _ Ec). cbn [firstn removalsAt app].
  rewrite IH by lia. replace (pos + S k) with (S (pos + k)) by lia.
  reflexivity.
Qed.

Lemma compareChildren_detected rec oldElement newElement path next sc :
  isSimpleInsertionOrDeletion (childNodes oldElement) (childNodes newElement)
  = Some sc ->
  compareChildren rec oldElement newElement path next
  = match type sc with
    | insertion =>
        let (clones, next') :=
          cloneList (firstn (count sc)
                            (skipn (position sc) (childNodes newElement)))
                    next in
        (Ok (insertionsAt path oldElement clones (position sc)), next')
    | deletion =>
        (Ok (removalsAt path oldElement
               (firstn (count sc)
                       (skipn (position sc) (childNodes oldElement)))
               (position sc)),
         next)
    end.
Proof.
  intros Hdetected.
  unfold compareChildren. rewrite Hdetected.
  apply detection_sound in Hdetected as (Hlen & Hcount & Hpass & _).
  unfold handleStructuralChange.
  pose proof (compareRemainingChildren_matched rec
                (childNodes oldElement) (childNodes newElement) path sc)
    as Hrest.
  destruct (type sc) eqn:Et.
  - unfold bind at 1.
    pose proof (pushEach_clones path oldElement (childNodes newElement)
                  (position sc) (count sc) 0 next ltac:(lia)) as Hins.
    rewrite Nat.add_0_r in Hins. cbv zeta. rewrite Hins.
    destruct (cloneList _ next) as [clones next'].
    unfold bind at 1. rewrite (Hrest next' Hpass).
    unfold ret. rewrite app_nil_r. reflexivity.
  - unfold bind at 1. cbv zeta. rewrite (Hrest next Hpass).
    pose proof (removals_flat_map path oldElement (childNodes oldElement)
                  (position sc) (count sc) 0 ltac:(lia)) as Hdel.
    rewrite Nat.add_0_r in Hdel. rewrite Hdel.
    unfold ret. rewrite app_nil_r. reflexivity.
Qed.

(** ** Copies of the corresponding nodes *)















(** X14.  When [isSimpleInsertionOrDeletion] answers, [compareChildren]
    emits the structural operations and nothing else: for an insertion,
    one [insertChild] per inserted child, carrying a copy of it, at the
    detected indices; for a deletion, one [removeChild] per deleted child.
    The comparison of the remaining children never adds an operation,
    whatever [compareElements] would say about them: a pair the detection
    accepted is always one the comparison skips. *)
Theorem compareChildren_structural
        (this_compareElements :
           option node -> option node -> string -> Diff (list change))
        (oldElement newElement : node) (path : string) (next : nat)
        (sc : structuralChange)
        (Hdetected :
           isSimpleInsertionOrDeletion (childNodes oldElement)
                                       (childNodes newElement) = Some sc) :
  compareChildren this_compareElements oldElement newElement path next
  = match type sc with
    | insertion =>
        let (clones, next') :=
          cloneList (firstn (count sc)
                            (skipn (position sc) (childNodes newElement)))
                    next in
        (Ok (insertionsAt path oldElement clones (position sc)), next')
    | deletion =>
        (Ok (removalsAt path oldElement
               (firstn (count sc)
                       (skipn (position sc) (childNodes oldElement)))
               (position sc)),
         next)
    end.
Proof.
  exact (compareChildren_detected this_compareElements oldElement newElement
           path next sc Hdetected).
Qed.

Lemma compareChildren_structural_witness :
  compareChildren (compareElements_fuel 3) listItems listItems' "ul" 100
  = (Ok [insertChild "ul" listItems (Element 100 "LI" [] [Text 101 "X"]) 1],
     102).
Proof.
  apply (compareChildren_structural (compareElements_fuel 3)
           listItems listItems' "ul" 100 (mkChange insertion 1 1)).
  reflexivity.
Defined.

(** ** The order of a replayed batch *)

Lemma insertFromRight_between {A} (cmp : A -> A -> Z) x below above :
  (forall y, In y above -> (0 < cmp y x)%Z) ->
  (forall y, In y below -> (cmp y x <= 0)%Z) ->
  insertFromRight cmp x (rev (below ++ above)) = rev (below ++ x :: above).
Proof.
  intros Ha Hb. rewrite !rev_app_distr. simpl rev.
  assert (Ha' : forall y, In y (rev above) -> (0 < cmp y x)%Z)
    by (intros y Hy; apply Ha, in_rev, Hy).
  assert (Hb' : forall y, In y (rev below) -> (cmp y x <= 0)%Z)
    by (intros y Hy; apply Hb, in_rev, Hy).
  clear Ha Hb. rewrite <- app_assoc. simpl.
  induction (rev above) as [|y l IH]; simpl.
  - destruct (rev below) as [|y l]; [reflexivity|]. simpl.
    replace (0 <? cmp y x)%Z with false; [reflexivity|].
    symmetry. apply Z.ltb_ge, Hb'. left. reflexivity.
  - replace (0 <? cmp y x)%Z with true
      by (symmetry; apply Z.ltb_lt, Ha'; left; reflexivity).
    rewrite IH; [reflexivity|]. intros z Hz. apply Ha'. right. exact Hz.
Qed.

Lemma sort_snoc {A} (cmp : A -> A -> Z) l x :
  sort cmp (l ++ [x]) = rev (insertFromRight cmp x (rev (sort cmp l))).
Proof.
  unfold sort. rewrite fold_left_app. simpl. rewrite rev_involutive.
  reflexivity.
Qed.

Lemma increasing_split (lo hi : list Z) r :
  ForallOrdPairs Z.lt (lo ++ r :: hi) ->
  (forall p, In p lo -> (p < r)%Z) /\ (forall p, In p hi -> (r < p)%Z).
Proof.
  induction lo as [|a lo IH]; simpl; intros H; inversion H as [|? ? Ha Hr];
    subst.
  - split; [tauto|]. apply Forall_forall, Ha.
  - destruct (IH Hr) as [H1 H2]. split; [|exact H2].
    intros p [<-|Hp]; [|apply H1, Hp].
    rewrite Forall_forall in Ha. apply Ha, in_or_app. right. left. reflexivity.
Qed.

Lemma flat_map_pointwise {A B} (f g : A -> list B) l :
  (forall a, In a l -> f a = g a) -> flat_map f l = flat_map g l.
Proof.
  induction l as [|a l IH]; simpl; intros H; [reflexivity|].
  rewrite H by auto. rewrite IH by auto. reflexivity.
Qed.

Lemma buckets_snoc_other {A} (rank : A -> Z) l x ranks :
  ~ In (rank x) ranks ->
  flat_map (fun p => filter (fun y => (rank y =? p)%Z) (l ++ [x])) ranks
  = flat_map (fun p => filter (fun y => (rank y =? p)%Z) l) ranks.
Proof.
  intros H. apply flat_map_pointwise. intros p Hp.
  rewrite filter_app. simpl.
  destruct (rank x =? p)%Z eqn:E; [|apply app_nil_r].
  apply Z.eqb_eq in E. subst p. contradiction.
Qed.

Lemma buckets_rank {A} (rank : A -> Z) l ranks y :
  In y (flat_map (fun p => filter (fun y => (rank y =? p)%Z) l) ranks) ->
  In (rank y) ranks.
Proof.
  rewrite in_flat_map. intros (p & Hp & Hy).
  apply filter_In in Hy as [_ E]. apply Z.eqb_eq in E. subst p. exact Hp.
Qed.

(** Sorting by a number, with the comparator [rank a - rank b], lists the
    elements rank by rank and keeps the given order within a rank. *)
Lemma sort_by_rank {A} (rank : A -> Z) (ranks : list Z) :
  ForallOrdPairs Z.lt ranks ->
  forall l,
    (forall x, In x l -> In (rank x) ranks) ->
    sort (fun a b => rank a - rank b)%Z l
    = flat_map (fun p => filter (fun y => (rank y =? p)%Z) l) ranks.
Proof.
  intros Hinc l. induction l as [|x l IH] using rev_ind; intros Hl.
  - clear. induction ranks as [|p ranks IH]; simpl; [reflexivity|exact IH].
  - rewrite sort_snoc, IH by (intros y Hy; apply Hl, in_or_app; auto).
    destruct (in_split (rank x) ranks) as (lo & hi & ->);
      [apply Hl, in_or_app; right; left; reflexivity|].
    destruct (increasing_split lo hi (rank x) Hinc) as [Hlo Hhi].
    rewrite !flat_map_app. cbn [flat_map].
    rewrite !buckets_snoc_other.
    + rewrite filter_app. cbn [filter]. rewrite Z.eqb_refl.
      rewrite app_assoc.
      rewrite (insertFromRight_between _ x).
      * rewrite rev_involutive, <- !app_assoc. reflexivity.
      * intros y Hy. apply buckets_rank in Hy. apply Hhi in Hy. lia.
      * intros y Hy. apply in_app_or in Hy as [Hy|Hy].
        -- apply buckets_rank in Hy. apply Hlo in Hy. lia.
        -- apply filter_In in Hy as [_ E]. apply Z.eqb_eq in E. lia.
    + intros H. apply Hhi in H. lia.
    + intros H. apply Hlo in H. lia.
Qed.

Lemma insertFromRight_agree {A} (cmp cmp' : A -> A -> Z) x l :
  (forall y, In y l -> cmp y x = cmp' y x) ->
  insertFromRight cmp x l = insertFromRight cmp' x l.
Proof.
  induction l as [|y l IH]; simpl; intros H; [reflexivity|].
  rewrite (H y) by auto. rewrite IH by auto. reflexivity.
Qed.

(** [sort] consults the comparator on members of the list only. *)
Lemma sort_agree {A} (cmp cmp' : A -> A -> Z) l :
  (forall x y, In x l -> In y l -> cmp x y = cmp' x y) ->
  sort cmp l = sort cmp' l.
Proof.
  induction l as [|x l IH] using rev_ind; intros H; [reflexivity|].
  rewrite !sort_snoc.
  rewrite IH by (intros a b Ha Hb; apply H; apply in_or_app; auto).
  f_equal. apply insertFromRight_agree.
  intros y Hy. apply in_rev, sort_In in Hy.
  apply H; apply in_or_app; [left; exact Hy|right; left; reflexivity].
Qed.

(** Between operations whose types are not inherited member names, the
    comparator is the difference of the priorities. *)
Lemma compareChanges_priority a b :
  inherited (Changes.type a) = false ->
  inherited (Changes.type b) = false ->
  compareChanges a b = (priority a - priority b)%Z.
Proof.
  unfold compareChanges, operand, priority. intros -> ->.
  destruct (order (Changes.type a)), (order (Changes.type b)); reflexivity.
Qed.




(** ** Diff and patch in one call *)

Lemma forEachTry_skip {S A} (xs : list A) (body : A -> M S unit) h s :
  (forall x, In x xs -> body x s = (Ok tt, s)) ->
  forEachTry xs body h s = (Ok tt, s).
Proof.
  induction xs as [|x xs IH]; intros H; simpl; [reflexivity|].
  unfold bind, try_catch. rewrite (H x) by (left; reflexivity).
  apply IH. intros y Hy. apply H. right. exact Hy.
Qed.

Lemma findNode_fresh id t : ~ In id (ids t) -> findNode id t = None.
Proof.
  induction t as [i d|i d|i tg a cs IH] using node_induction; simpl;
    intros H.
  - destruct (i =? id) eqn:E; [apply Nat.eqb_eq in E; tauto|reflexivity].
  - destruct (i =? id) eqn:E; [apply Nat.eqb_eq in E; tauto|reflexivity].
  - destruct (i =? id) eqn:E; [apply Nat.eqb_eq in E; tauto|].
    assert (Hcs : ~ In id (flat_map ids cs)) by tauto. clear H E.
    induction cs as [|c cs IHcs]; [reflexivity|].
    inversion IH as [|? ? Hc Hrest]; subst. simpl in Hcs.
    rewrite Hc by (intros H; apply Hcs, in_or_app; auto).
    apply IHcs; [exact Hrest|]. intros H. apply Hcs, in_or_app. auto.
Qed.

Lemma resolve_fresh ref d : ~ In (nid ref) (ids d) -> resolve ref d = ref.
Proof. intros H. unfold resolve. rewrite findNode_fresh by exact H. auto. Qed.

(** X16.  [applyChange] has no case for [insert], so the patcher drops
    such operations without a trace: a batch made of [insert] operations
    (and operations of unknown type) leaves tree, counter and console as
    they are.  In particular [update(null, n)] returns the [insert]
    operation that [diff] reports, with a copy of [n], and changes
    nothing. *)
Theorem insert_is_not_applied
        (callback : option (node -> node)) (w : world) :
  (forall changes,
      Forall unhandled changes ->
      applyChanges callback changes w = (Ok tt, w)) /\
  (forall n,
      let new := resolve n (dom w) in
      DeltaDOM.update callback None (Some n) w
      = (Ok [insert "" (fst (cloneNode new (next w)))],
         mkWorld (dom w) (snd (cloneNode new (next w))) (console w))).
Proof.
  assert (G : forall w' changes,
             Forall unhandled changes ->
             applyChanges callback changes w' = (Ok tt, w')).
  { intros w' changes H. unfold applyChanges. apply forEachTry_skip.
    intros c Hc. apply sort_In in Hc.
    rewrite Forall_forall in H. specialize (H c Hc).
    destruct c; simpl in H; try contradiction; reflexivity. }
  split; [apply G|].
  intros n new. unfold DeltaDOM.update, DeltaDOM.diff, DeltaDOM.patch.
  unfold bind at 1. unfold bind at 1. unfold get at 1.
  cbn [option_map]. fold new.
  unfold DeltaDOM.runDiffer, compareElements.
  cbn [depth compareElements_fuel compareElements_body].
  unfold bind at 1, clone.
  destruct (cloneNode new (next w)) as [c k]. cbn [ret fst snd].
  unfold bind. rewrite G by (repeat constructor). reflexivity.
Qed.

Lemma findNode_nid id t n : findNode id t = Some n -> nid n = id.
Proof.
  induction t as [i d|i d|i tg a cs IH] using node_induction; simpl.
  - destruct (i =? id) eqn:E; [|discriminate].
    intros [= <-]. apply Nat.eqb_eq, E.
  - destruct (i =? id) eqn:E; [|discriminate].
    intros [= <-]. apply Nat.eqb_eq, E.
  - destruct (i =? id) eqn:E; [intros [= <-]; apply Nat.eqb_eq, E|].
    clear E. induction cs as [|c cs IHcs]; [discriminate|].
    inversion IH as [|? ? Hc Hrest]; subst.
    destruct (findNode id c) eqn:Ec; [intros [= <-]; apply Hc; reflexivity|].
    apply IHcs, Hrest.
Qed.

Lemma applyChanges_single callback c w :
  applyChanges callback [c] w
  = match applyChange callback c w with
    | (Ok _, w') => (Ok tt, w')
    | (Throw e, w') =>
        (Ok tt, mkWorld (dom w') (next w')
                        (console w' ++ [(changeLabel c, e)]))
    end.
Proof.
  unfold applyChanges, sortedChanges, sort.
  cbn [fold_left insertFromRight rev app].
  cbn [forEachTry]. unfold bind, try_catch.
  destruct (applyChange callback c w) as [[[]|e] w']; reflexivity.
Qed.

(** X17.  Text is repaired, comments are not looked at.  For a live text
    node and a new text node, [update] returns the [updateText] operation
    (or nothing when the texts agree) and leaves the live node with the new
    text; nothing is logged and nothing allocated.  Two comment nodes never
    yield an operation, whatever their contents. *)
Theorem update_text_round_trip
        (callback : option (node -> node)) (w : world)
        (oldElement newElement : node) (i j : nat) (d e : string)
        (Hold : findNode (nid oldElement) (dom w) = Some (Text i d))
        (Hnew : resolve newElement (dom w) = Text j e) :
  (exists w',
      DeltaDOM.update callback (Some oldElement) (Some newElement) w
      = (Ok (if (d =? e)%string then []
             else [updateText "" (Text i d) d e]), w') /\
      next w' = next w /\ console w' = console w /\
      findNode (nid oldElement) (dom w') = Some (Text i e)) /\
  (forall i j d e path next,
      compareElements (Some (Comment i d)) (Some (Comment j e)) path next
      = (Ok [], next)).
Proof.
  split; [|reflexivity].
  pose proof (findNode_nid _ _ _ Hold) as Hi. simpl in Hi. subst i.
  unfold DeltaDOM.update, DeltaDOM.diff, DeltaDOM.patch.
  unfold bind at 1. unfold bind at 1. unfold get at 1.
  cbn [option_map]. rewrite Hnew. unfold resolve at 1. rewrite Hold.
  unfold DeltaDOM.runDiffer, compareElements.
  cbn [depth height compareElements_fuel compareElements_body Dom.nodeType
       TEXT_NODE Nat.eqb negb textContent].
  destruct (d =? e)%string eqn:E; cbn [negb ret].
  - apply String.eqb_eq in E. subst e.
    exists (mkWorld (dom w) (next w) (console w)). repeat split; assumption.
  - unfold bind at 1. rewrite applyChanges_single.
    cbn [applyChange nid]. unfold bind at 1, get at 1. cbn [dom].
    rewrite Hold. unfold modifyDom, modify. cbn [ret].
    eexists. split; [reflexivity|]. cbn [next console dom].
    repeat split.
    rewrite findNode_mapNode by (intros []; reflexivity).
    rewrite Hold. reflexivity.
Qed.

Lemma update_text_round_trip_witness :
  (exists w',
      DeltaDOM.update None (Some (Text 2 "draft")) (Some (Text 20 "final"))
                      (mkWorld note 100 [])
      = (Ok (if ("draft" =? "final")%string then []
             else [updateText "" (Text 2 "draft") "draft" "final"]), w') /\
      next w' = 100 /\ console w' = [] /\
      findNode 2 (dom w') = Some (Text 2 "final")) /\
  (forall i j d e path next,
      compareElements (Some (Comment i d)) (Some (Comment j e)) path next
      = (Ok [], next)).
Proof.
  apply (update_text_round_trip None (mkWorld note 100 [])
           (Text 2 "draft") (Text 20 "final") 2 20 "draft" "final");
    reflexivity.
Defined.

Lemma detach_fresh id t : ~ In id (ids t) -> detach id t = t.
Proof.
  induction t as [i d|i d|i tg a cs IH] using node_induction; simpl;
    intros H; try reflexivity.
  f_equal. assert (Hcs : ~ In id (flat_map ids cs)) by tauto. clear H.
  induction cs as [|c cs IHcs]; [reflexivity|].
  inversion IH as [|? ? Hc Hrest]; subst. simpl in Hcs.
  assert (Hn : nid c <> id).
  { intros <-. apply Hcs, in_or_app. left. destruct c; simpl; auto. }
  apply Nat.eqb_neq in Hn. rewrite Hn.
  rewrite Hc by (intros H; apply Hcs, in_or_app; auto).
  f_equal. apply IHcs; [exact Hrest|].
  intros H. apply Hcs, in_or_app. auto.
Qed.

Lemma mapNode_fresh id f t : ~ In id (ids t) -> mapNode id f t = t.
Proof.
  induction t as [i d|i d|i tg a cs IH] using node_induction; simpl;
    intros H.
  - destruct (i =? id) eqn:E; [apply Nat.eqb_eq in E; tauto|reflexivity].
  - destruct (i =? id) eqn:E; [apply Nat.eqb_eq in E; tauto|reflexivity].
  - destruct (i =? id) eqn:E; [apply Nat.eqb_eq in E; tauto|].
    f_equal. assert (Hcs : ~ In id (flat_map ids cs)) by tauto. clear H E.
    induction cs as [|c cs IHcs]; [reflexivity|].
    inversion IH as [|? ? Hc Hrest]; subst. simpl in Hcs. simpl.
    rewrite Hc by (intros H; apply Hcs, in_or_app; auto).
    f_equal. apply IHcs; [exact Hrest|].
    intros H. apply Hcs, in_or_app. auto.
Qed.

Lemma nid_in_ids n : In (nid n) (ids n).
Proof. destruct n; simpl; auto. Qed.

Lemma map_mapNode_fresh id f cs :
  ~ In id (flat_map ids cs) -> map (fun c => mapNode id f c) cs = cs.
Proof.
  induction cs as [|c cs IH]; simpl; intros H; [reflexivity|].
  rewrite mapNode_fresh by (intros Hc; apply H, in_or_app; auto).
  rewrite IH by (intros Hc; apply H, in_or_app; auto). reflexivity.
Qed.

Lemma findNode_child id p t a pre c post :
  p <> id -> ~ In id (flat_map ids pre) -> nid c = id ->
  findNode id (Element p t a (pre ++ c :: post)) = Some c.
Proof.
  intros Hp Hpre Hc. simpl. apply Nat.eqb_neq in Hp. rewrite Hp.
  induction pre as [|b pre IH]; simpl.
  - rewrite findNode_hit by exact Hc. reflexivity.
  - simpl in Hpre.
    rewrite findNode_fresh by (intros H; apply Hpre, in_or_app; auto).
    apply IH. intros H. apply Hpre, in_or_app. auto.
Qed.

Lemma compareElements_replace old new path s :
  Dom.nodeType old <> Dom.nodeType new \/
  (Dom.nodeType old = ELEMENT_NODE /\ Dom.tagName old <> Dom.tagName new) ->
  compareElements (Some old) (Some new) path s
  = let (copy, s') := cloneNode new s in (Ok [replace path old copy], s').
Proof.
  intros H. unfold compareElements. cbn [depth compareElements_fuel].
  unfold compareElements_body.
  destruct (Dom.nodeType old =? Dom.nodeType new) eqn:E; cbn [negb].
  - apply Nat.eqb_eq in E. destruct H as [H|[He Ht]]; [contradiction|].
    rewrite He. cbn [ELEMENT_NODE TEXT_NODE Nat.eqb].
    destruct (option_eqb String.eqb (Dom.tagName old) (Dom.tagName new))
      eqn:Eq; [apply option_eqb_eq in Eq; contradiction|].
    cbn [negb]. unfold bind, clone. destruct (cloneNode new s). reflexivity.
  - unfold bind, clone. destruct (cloneNode new s). reflexivity.
Qed.

(** X18.  A node of another kind, or an element of another tag, replaces
    the old node.  In a well-formed store whose root has the old node among
    its children, [update] with a detached new node returns one [replace]
    operation and leaves, in the old node's place, the copy of the new node
    after media processing; the siblings, the root, and the console are as
    before. *)
Theorem update_replaces
        (callback : option (node -> node)) (w : world)
        (p : nat) (t : string) (a : list (string * string))
        (pre post : list node) (oldElement newElement : node)
        (Hdom : dom w = Element p t a (pre ++ oldElement :: post))
        (Hstore : wellFormedStore w)
        (Hnew : ~ In (nid newElement) (ids (dom w)))
        (Hkind : Dom.nodeType oldElement <> Dom.nodeType newElement \/
                 (Dom.nodeType oldElement = ELEMENT_NODE /\
                  Dom.tagName oldElement <> Dom.tagName newElement)) :
  DeltaDOM.update callback (Some oldElement) (Some newElement) w
  = let (copy, next') := cloneNode newElement (next w) in
    (Ok [replace "" oldElement copy],
     mkWorld (Element p t a
                (pre ++ MediaProcessor.processNewNodeMedia callback copy
                     :: post))
             next' (console w)).
Proof.
  destruct Hstore as [Hnd Hbelow]. rewrite Hdom in Hnd, Hbelow, Hnew.
  cbn [ids] in Hnd, Hbelow. rewrite flat_map_app in Hnd, Hbelow.
  cbn [flat_map] in Hnd, Hbelow.
  assert (Hp : p <> nid oldElement).
  { intros ->. inversion Hnd as [|? ? Hin _]; subst. apply Hin.
    apply in_or_app. right. apply in_or_app. left. apply nid_in_ids. }
  assert (Hpre : ~ In (nid oldElement) (flat_map ids pre)).
  { intros H. inversion Hnd as [|? ? _ Hrest]; subst.
    apply NoDup_app_remove_l in Hrest as Hr.
    clear Hr. revert Hrest H. clear. intros Hrest H.
    induction (flat_map ids pre) as [|x l IH]; [contradiction|].
    simpl in Hrest. inversion Hrest as [|? ? Hx Hl]; subst.
    destruct H as [->|H]; [|exact (IH Hl H)].
    apply Hx, in_or_app. right. apply in_or_app. left. apply nid_in_ids. }
  unfold DeltaDOM.update, DeltaDOM.diff, DeltaDOM.patch.
  unfold bind at 1. unfold bind at 1. unfold get at 1. cbn [option_map].
  rewrite (resolve_fresh newElement) by (rewrite Hdom; exact Hnew).
  unfold resolve at 1. rewrite Hdom.
  rewrite (findNode_child _ p t a pre oldElement post Hp Hpre eq_refl).
  unfold DeltaDOM.runDiffer.
  rewrite (compareElements_replace _ _ "" (next w) Hkind).
  destruct (cloneNode_spec newElement (next w))
    as (copy & next' & Ec & Hlt & _ & Hids).
  rewrite Ec. unfold bind at 1. rewrite applyChanges_single.
  assert (Hcopy : nid copy = next w).
  { pose proof (cloneNode_nid newElement (next w)) as H.
    rewrite Ec in H. exact H. }
  assert (Hfresh : forall i, In i (ids copy) ->
                             ~ In i (p :: flat_map ids pre
                                        ++ ids oldElement
                                        ++ flat_map ids post)).
  { intros i Hi Hin. apply Hids in Hi. apply Hbelow in Hin. lia. }
  cbn [applyChange]. unfold bind at 1. unfold bind at 1. unfold get at 1.
  cbn [dom]. rewrite Hdom.
  assert (Hparent : parentOf (nid oldElement)
                             (Element p t a (pre ++ oldElement :: post))
                    = Some (Element p t a (pre ++ oldElement :: post))).
  { cbn [parentOf]. rewrite existsb_app. cbn [existsb].
    rewrite Nat.eqb_refl, orb_true_r. reflexivity. }
  rewrite Hparent. cbn [nid].
  assert (Hdetached : ~ In (nid copy)
                        (ids (Element p t a (pre ++ oldElement :: post)))).
  { cbn [ids]. rewrite flat_map_app. cbn [flat_map].
    apply Hfresh, nid_in_ids. }
  rewrite (resolve_fresh copy) by exact Hdetached.
  replace (existsb (Nat.eqb p) (ids copy)) with false.
  2:{ symmetry. apply not_true_is_false. intros H.
      apply existsb_exists in H as (i & Hi & E). apply Nat.eqb_eq in E.
      subst i. apply (Hfresh p Hi). left. reflexivity. }
  replace (sameNode oldElement copy) with false.
  2:{ symmetry. apply Nat.eqb_neq. intros E.
      apply (Hfresh (nid copy) (nid_in_ids copy)). right.
      apply in_or_app. right. apply in_or_app. left.
      rewrite <- E. apply nid_in_ids. }
  unfold modifyDom at 1, modify at 1. cbn [dom next console].
  rewrite detach_fresh by exact Hdetached.
  cbn [mapNode nid]. rewrite Nat.eqb_refl. cbn [withChildNodes childNodes].
  rewrite replaceIn_middle; [|reflexivity|].
  2:{ intros c Hc Heq. apply Hpre. rewrite <- Heq.
      apply in_flat_map. exists c. split; [exact Hc|apply nid_in_ids]. }
  unfold modifyDom, modify. cbn [dom next console ret].
  f_equal. f_equal.
  cbn [mapNode nid].
  replace (p =? nid copy) with false.
  2:{ symmetry. apply Nat.eqb_neq. intros ->.
      apply (Hfresh (nid copy) (nid_in_ids copy)). left. reflexivity. }
  f_equal. rewrite map_app. cbn [map].
  rewrite !map_mapNode_fresh.
  - f_equal. f_equal. destruct copy; simpl; rewrite Nat.eqb_refl; reflexivity.
  - intros H. apply (Hfresh (nid copy) (nid_in_ids copy)).
    right. apply in_or_app. right. apply in_or_app. right. exact H.
  - intros H. apply (Hfresh (nid copy) (nid_in_ids copy)).
    right. apply in_or_app. left. exact H.
Qed.

Lemma update_replaces_witness :
  DeltaDOM.update None (Some (Text 2 "draft"))
                  (Some (Element 7 "EM" [] [Text 8 "final"]))
                  (mkWorld note 100 [])
  = (Ok [replace "" (Text 2 "draft") (Element 100 "EM" [] [Text 101 "final"])],
     mkWorld (Element 1 "P" []
                [Element 100 "EM" [] [Text 101 "final"]; Text 3 "!"])
             102 []).
Proof.
  apply (update_replaces None (mkWorld note 100 []) 1 "P" [] []
           [Text 3 "!"] (Text 2 "draft") (Element 7 "EM" [] [Text 8 "final"])).
  - reflexivity.
  - split; simpl.
    + repeat constructor; simpl; intuition lia.
    + intros i Hi. intuition lia.
  - simpl. intuition lia.
  - left. discriminate.
Defined.

(** ** Failure and frame of keyed reconciliation *)

Lemma setTextContent_returns ref value w :
  exists w', setTextContent ref value w = (Ok tt, w').
Proof.
  unfold setTextContent, bind, getChildNodes, updateChild, setChildren,
    modify, fresh.
  destruct (deref (childNodes (dom w)) ref);
    try destruct (truthy value); eexists; reflexivity.
Qed.

(** X19.  A [patchNode] that throws has changed nothing: the only
    exceptions that escape it are raised while the children are inspected
    and the operations planned, before the first operation runs; the tree
    and the counter are as before, and the console holds one more entry,
    the exception under "Patch node error:". *)
Theorem patchNode_throws_before_changing
        (processMediaElement : option (node -> node))
        (oldVNode newVNode : option VDom.vnode) (newRealElement : option node)
        (w w' : world) (e : exn)
        (Hthrow : patchNode processMediaElement oldVNode newVNode
                            newRealElement w = (Throw e, w')) :
  w' = mkWorld (dom w) (next w) (console w ++ [("Patch node error:", e)]).
Proof.
  unfold patchNode in Hthrow. cbn [patchNode_fuel] in Hthrow.
  unfold patchNode_body in Hthrow.
  unfold bind at 1, get at 1 in Hthrow.
  destruct (option_eqb String.eqb (getAttribute (dom w) "data-immutable")
                       (Some "true")); [discriminate|].
  unfold try_catch in Hthrow.
  match type of Hthrow with
  | (match ?body w with _ => _ end) = _ =>
      assert (Hbody : forall e0 w0, body w = (Throw e0, w0) -> w0 = w);
        [|destruct (body w) as [[[]|e0] w0] eqn:B; [discriminate|]]
  end.
  - intros e0 w0. unfold bind at 1, getChildNodes at 1.
    destruct (_ && _); [discriminate|].
    unfold bind at 1, liftResult at 1.
    destruct (bothSingleText _ _) as [texts|e1]; [|intros [= _ <-]; auto].
    assert (Hkeyed : forall o n r,
               keyBasedPatch processMediaElement
                 (patchNode_fuel processMediaElement (vdepth newVNode))
                 o n r w = (Throw e0, w0) -> w0 = w).
    { intros o n r. unfold keyBasedPatch.
      unfold bind at 1, getChildNodes at 1. unfold bind at 1, liftResult.
      destruct (planOperations _ _ _ _) as [ops|e1];
        [|intros [= _ <-]; auto].
      rewrite forEachTry_attempts. discriminate. }
    destruct texts as [[old0 new0]|]; [|apply Hkeyed].
    destruct (nth_error (childNodes (dom w)) 0) as [realTextNode|];
      [|apply Hkeyed].
    destruct (Dom.nodeType realTextNode =? TEXT_NODE); [|apply Hkeyed].
    destruct (negb _); [|discriminate].
    destruct (setTextContent_returns realTextNode
                (orEmpty (VDom.content new0)) w) as (w1 & ->).
    discriminate.
  - rewrite (Hbody e0 w0 eq_refl) in Hthrow.
    unfold bind, console_error, modify, throw in Hthrow.
    injection Hthrow as <- <-. reflexivity.
Qed.

Lemma patchNode_throws_before_changing_witness :
  snd (patchNode None (Some stanza) (Some stanza) None
                 (mkWorld twoBlocks 100 []))
  = mkWorld twoBlocks 100 [("Patch node error:", undefinedRead "src")].
Proof.
  apply (patchNode_throws_before_changing None (Some stanza) (Some stanza)
           None (mkWorld twoBlocks 100 []) _ (undefinedRead "src")).
  reflexivity.
Defined.

Lemma sameRoot_withChildNodes n cs : sameRoot n (withChildNodes n cs).
Proof. destruct n; reflexivity. Qed.

Lemma continues_refl w : continues w w.
Proof.
  split; [reflexivity|]. split; [lia|]. exists []. symmetry. apply app_nil_r.
Qed.

Lemma continues_trans w1 w2 w3 :
  continues w1 w2 -> continues w2 w3 -> continues w1 w3.
Proof.
  intros (R1 & N1 & l1 & C1) (R2 & N2 & l2 & C2).
  split; [unfold sameRoot in *; congruence|]. split; [lia|].
  exists (l1 ++ l2). rewrite C2, C1, app_assoc. reflexivity.
Qed.

Lemma keepsRoot_ret {A} (a : A) : keepsRoot (ret a).
Proof. intros w. apply continues_refl. Qed.

Lemma keepsRoot_throw {A} e : keepsRoot (@throw world A e).
Proof. intros w. apply continues_refl. Qed.

Lemma keepsRoot_liftResult {A} (r : result A) : keepsRoot (liftResult r).
Proof. intros w. apply continues_refl. Qed.

Lemma keepsRoot_get : keepsRoot get.
Proof. intros w. apply continues_refl. Qed.

Lemma keepsRoot_getChildNodes : keepsRoot getChildNodes.
Proof. intros w. apply continues_refl. Qed.

Lemma keepsRoot_requireContainer : keepsRoot requireContainer.
Proof.
  intros w. unfold requireContainer. destruct (dom w); apply continues_refl.
Qed.

Lemma keepsRoot_bind {A B} (m : Patch A) (k : A -> Patch B) :
  keepsRoot m -> (forall a, keepsRoot (k a)) -> keepsRoot (bind m k).
Proof.
  intros Hm Hk w. unfold bind. specialize (Hm w).
  destruct (m w) as [[a|e] w1]; [|exact Hm].
  apply (continues_trans _ w1); [exact Hm|apply Hk].
Qed.

Lemma keepsRoot_try_catch {A} (m : Patch A) h :
  keepsRoot m -> (forall e, keepsRoot (h e)) -> keepsRoot (try_catch m h).
Proof.
  intros Hm Hh w. unfold try_catch. specialize (Hm w).
  destruct (m w) as [[a|e] w1]; [exact Hm|].
  apply (continues_trans _ w1); [exact Hm|apply Hh].
Qed.

Lemma keepsRoot_forEachTry {A} (xs : list A) body h :
  (forall x, keepsRoot (body x)) -> (forall x e, keepsRoot (h x e)) ->
  keepsRoot (forEachTry xs body h).
Proof.
  intros Hb Hh. induction xs as [|x xs IH]; simpl; [apply keepsRoot_ret|].
  apply keepsRoot_bind; [|intros _; exact IH].
  apply keepsRoot_try_catch; [apply Hb|apply Hh].
Qed.

Lemma keepsRoot_console_error msg e : keepsRoot (console_error msg e).
Proof.
  intros w. split; [reflexivity|]. split; [simpl; lia|].
  eexists. reflexivity.
Qed.

Lemma keepsRoot_fresh : keepsRoot fresh.
Proof.
  intros w. split; [reflexivity|]. split; [simpl; lia|].
  exists []. symmetry. apply app_nil_r.
Qed.

Lemma keepsRoot_cloneTemplate n : keepsRoot (cloneTemplate n).
Proof.
  intros w. unfold cloneTemplate.
  destruct (cloneNode_spec n (next w)) as (c & k & E & Hlt & _).
  rewrite E. split; [reflexivity|]. split; [simpl; lia|].
  exists []. symmetry. apply app_nil_r.
Qed.

Lemma keepsRoot_setChildren cs : keepsRoot (setChildren cs).
Proof.
  intros w. split; [apply sameRoot_withChildNodes|]. split; [simpl; lia|].
  exists []. symmetry. apply app_nil_r.
Qed.

Lemma keepsRoot_inChild {A} ref (m : Patch A) :
  keepsRoot m -> keepsRoot (inChild ref m).
Proof.
  intros Hm w. unfold inChild.
  specialize (Hm (mkWorld (deref (childNodes (dom w)) ref) (next w)
                          (console w))).
  destruct (m _) as [r w1]. destruct Hm as (_ & Hn & Hc).
  split; [apply sameRoot_withChildNodes|]. split; assumption.
Qed.

Create HintDb frame.

#[local] Hint Resolve keepsRoot_ret keepsRoot_throw keepsRoot_liftResult
  keepsRoot_get keepsRoot_getChildNodes keepsRoot_requireContainer
  keepsRoot_console_error keepsRoot_fresh keepsRoot_cloneTemplate
  keepsRoot_setChildren keepsRoot_inChild : frame.

Ltac frame :=
  repeat first
    [ progress auto with frame
    | apply keepsRoot_bind; [|intro]
    | apply keepsRoot_try_catch; [|intro]
    | apply keepsRoot_forEachTry; [intro|intros ? ?]
    | match goal with
      | |- keepsRoot (if ?b then _ else _) => destruct b
      | |- keepsRoot (match ?x with _ => _ end) => destruct x
      | |- keepsRoot (let (_, _) := ?x in _) => destruct x
      end ].

Lemma keepsRoot_appendChild child : keepsRoot (appendChild child).
Proof. unfold appendChild. frame. Qed.

Lemma keepsRoot_insertBefore child ref : keepsRoot (insertBefore child ref).
Proof. unfold insertBefore, appendChild. frame. Qed.

Lemma keepsRoot_replaceChild new old : keepsRoot (replaceChild new old).
Proof. unfold replaceChild. frame. Qed.

Lemma keepsRoot_removeNode ref : keepsRoot (removeNode ref).
Proof. unfold removeNode. frame. Qed.

Lemma keepsRoot_updateChild ref f : keepsRoot (updateChild ref f).
Proof. unfold updateChild. frame. Qed.

Lemma keepsRoot_setTextContent ref value : keepsRoot (setTextContent ref value).
Proof. unfold setTextContent, updateChild. frame. Qed.

Lemma keepsRoot_createTextNode data : keepsRoot (createTextNode data).
Proof. unfold createTextNode. frame. Qed.

Lemma keepsRoot_createElement tag : keepsRoot (createElement tag).
Proof. unfold createElement. frame. Qed.

#[local] Hint Resolve keepsRoot_appendChild keepsRoot_insertBefore
  keepsRoot_replaceChild keepsRoot_removeNode keepsRoot_updateChild
  keepsRoot_setTextContent keepsRoot_createTextNode keepsRoot_createElement
  : frame.

Section Frame.

Variable processMediaElement : option (node -> node).
Variable rec :
  option VDom.vnode -> option VDom.vnode -> option node -> Patch unit.
Hypothesis Hrec : forall o n r, keepsRoot (rec o n r).

Lemma keepsRoot_handleInsert newIndex newChild newRealChild :
  keepsRoot (handleInsert processMediaElement newIndex newChild newRealChild).
Proof.
  unfold handleInsert, place, Patcher.processNewNodeMedia. cbv zeta. frame.
Qed.

Lemma keepsRoot_handleUpdate newIndex entry newChild newRealChild :
  keepsRoot (handleUpdate processMediaElement rec newIndex entry newChild
                          newRealChild).
Proof.
  unfold handleUpdate, Patcher.processNewNodeMedia. cbv zeta.
  pose proof Hrec. frame.
Qed.

Lemma keepsRoot_executeOperation op :
  keepsRoot (executeOperation processMediaElement rec op).
Proof.
  destruct op; cbn [executeOperation];
    [apply keepsRoot_handleUpdate|apply keepsRoot_handleInsert|].
  frame.
Qed.

Lemma keepsRoot_patchNode_body o n r :
  keepsRoot (patchNode_body processMediaElement rec o n r).
Proof.
  unfold patchNode_body, keyBasedPatch. cbv zeta.
  pose proof keepsRoot_executeOperation. frame.
Qed.

End Frame.

(** X20.  [patchNode] acts on the children of [realParent] only.  Whatever
    the arguments, and whether it returns or throws, the root of the store
    is afterwards the same node with the same tag and attributes, the
    allocation counter has not moved back, and the console holds what it
    held before, followed by what the call logged. *)
Theorem patchNode_keeps_root
        (processMediaElement : option (node -> node))
        (oldVNode newVNode : option VDom.vnode) (newRealElement : option node)
        (w : world) :
  let w' := snd (patchNode processMediaElement oldVNode newVNode
                           newRealElement w) in
  nid (dom w') = nid (dom w) /\
  Dom.nodeType (dom w') = Dom.nodeType (dom w) /\
  Dom.tagName (dom w') = Dom.tagName (dom w) /\
  attributes (dom w') = attributes (dom w) /\
  next w <= next w' /\
  exists log, console w' = console w ++ log.
Proof.
  assert (G : forall fuel o n r,
             keepsRoot (patchNode_fuel processMediaElement fuel o n r)).
  { induction fuel as [|fuel IH]; intros o n r; cbn [patchNode_fuel].
    - apply keepsRoot_throw.
    - apply keepsRoot_patchNode_body, IH. }
  destruct (G (S (vdepth newVNode)) oldVNode newVNode newRealElement w)
    as (Hroot & Hnext & Hlog).
  fold (patchNode processMediaElement oldVNode newVNode newRealElement) in *.
  cbv zeta. unfold sameRoot in Hroot.
  destruct (dom w), (dom (snd _)); simpl in Hroot; try discriminate;
    injection Hroot as <-; subst; auto 10.
Qed.

(** ** Insertion in keyed reconciliation *)

Lemma NoDup_app_disjoint {A} (l1 l2 : list A) a :
  NoDup (l1 ++ l2) -> In a l1 -> ~ In a l2.
Proof.
  induction l1 as [|x l1 IH]; simpl; [tauto|].
  intros H [->|Hin] H2; inversion H; subst.
  - apply H3, in_or_app. auto.
  - exact (IH H4 Hin H2).
Qed.

Lemma NoDup_child_nids cs : NoDup (flat_map ids cs) -> NoDup (map nid cs).
Proof.
  induction cs as [|c cs IH]; simpl; intros H; [constructor|].
  constructor; [|apply IH, (NoDup_app_remove_l _ _ H)].
  intros Hin. apply in_map_iff in Hin as (r & Hr & Hin).
  apply (NoDup_app_disjoint _ _ (nid c) H (nid_in_ids c)).
  apply in_flat_map. exists r. split; [exact Hin|].
  rewrite <- Hr. apply nid_in_ids.
Qed.

Lemma without_fresh cs x :
  (forall c, In c cs -> nid c <> nid x) -> without cs x = cs.
Proof.
  unfold without. induction cs as [|c cs IH]; simpl; intros H; [reflexivity|].
  unfold sameNode at 1.
  replace (nid c =? nid x) with false
    by (symmetry; apply Nat.eqb_neq, H; left; reflexivity).
  simpl. f_equal. apply IH. intros y Hy. apply H. right. exact Hy.
Qed.

Lemma deref_fresh cs x :
  (forall c, In c cs -> nid c <> nid x) -> deref cs x = x.
Proof.
  unfold deref. induction cs as [|c cs IH]; simpl; intros H; [reflexivity|].
  unfold sameNode at 1.
  replace (nid c =? nid x) with false
    by (symmetry; apply Nat.eqb_neq, H; left; reflexivity).
  apply IH. intros y Hy. apply H. right. exact Hy.
Qed.

Lemma isChild_nth cs i r : nth_error cs i = Some r -> isChild cs r = true.
Proof.
  intros H. unfold isChild. apply existsb_exists. exists r.
  split; [eapply nth_error_In, H|]. unfold sameNode. apply Nat.eqb_refl.
Qed.

Lemma insertBeforeIn_at cs new :
  NoDup (map nid cs) ->
  forall i r,
    nth_error cs i = Some r ->
    insertBeforeIn cs new r = firstn i cs ++ new :: skipn i cs.
Proof.
  induction cs as [|c cs IH]; intros Hnd [|i] r H; try discriminate.
  - injection H as ->. simpl. unfold sameNode. rewrite Nat.eqb_refl.
    reflexivity.
  - simpl in H. inversion Hnd as [|? ? Hc Hrest]; subst. simpl.
    unfold sameNode at 1.
    replace (nid c =? nid r) with false.
    + rewrite (IH Hrest i r H). reflexivity.
    + symmetry. apply Nat.eqb_neq. intros E. apply Hc. rewrite E.
      apply in_map. eapply nth_error_In, H.
Qed.

Lemma not_looksInserted newChild existing :
  ~ looksInserted newChild existing ->
  (if (VDom.type newChild =? "text")%string
      && (Dom.nodeType existing =? TEXT_NODE)
   then option_eqb String.eqb (Some (textContent existing))
                   (VDom.content newChild)
   else if (VDom.type newChild =? "element")%string
           && (Dom.nodeType existing =? ELEMENT_NODE)
        then option_eqb String.eqb
                        (option_map toLowerCase (Dom.tagName existing))
                        (VDom.tagName newChild)
        else false) = false.
Proof.
  intros H. apply not_true_is_false. intros E. apply H. clear H.
  unfold looksInserted.
  destruct existing as [i d|i d|i t a cs];
    cbn [Dom.nodeType TEXT_NODE ELEMENT_NODE COMMENT_NODE Nat.eqb] in E;
    rewrite ?andb_false_r, ?andb_true_r in E; try discriminate.
  - destruct (VDom.type newChild =? "text")%string eqn:Et; [|discriminate].
    left. split; [apply String.eqb_eq, Et|]. exists i, d.
    split; [reflexivity|]. apply option_eqb_eq in E. symmetry. exact E.
  - destruct (VDom.type newChild =? "element")%string eqn:Ee;
      [|discriminate].
    right. split; [apply String.eqb_eq, Ee|]. exists i, t, a, cs.
    split; [reflexivity|]. apply option_eqb_eq in E. symmetry. exact E.
Qed.

(** X21.  An insertion that is not skipped puts a copy of the template at
    the operation's index.  In a well-formed store whose root is an
    element, when the child now at [newIndex] (if any) does not look like
    the new child, [handleInsert] with a template returns normally and the
    root's children become the children before [newIndex], the copy of the
    template after media processing, and the children from [newIndex] on;
    an index at or beyond the end appends. *)
Theorem handleInsert_places_copy
        (processMediaElement : option (node -> node))
        (newIndex : nat) (newChild : VDom.vnode) (template : node)
        (w : world) (p : nat) (t : string) (a : list (string * string))
        (cs : list node)
        (Hdom : dom w = Element p t a cs)
        (Hstore : wellFormedStore w)
        (Hfree : forall existing,
            nth_error cs newIndex = Some existing ->
            ~ looksInserted newChild existing) :
  handleInsert processMediaElement newIndex newChild (Some template) w
  = let (copy, next') := cloneNode template (next w) in
    (Ok tt,
     mkWorld (Element p t a
                (firstn newIndex cs
                   ++ MediaProcessor.processNewNodeMedia processMediaElement
                        copy
                   :: skipn newIndex cs))
             next' (console w)).
Proof.
  destruct Hstore as [Hnd Hbelow]. rewrite Hdom in Hnd, Hbelow.
  cbn [ids] in Hnd, Hbelow.
  destruct (cloneNode_spec template (next w))
    as (copy & next' & Ec & Hlt & _ & Hids).
  assert (Hcopy : nid copy = next w).
  { pose proof (cloneNode_nid template (next w)) as H.
    rewrite Ec in H. exact H. }
  assert (Hfresh : forall c, In c cs -> nid c <> nid copy).
  { intros c Hc E. assert (nid c < next w); [|lia].
    apply Hbelow. right. apply in_flat_map. exists c.
    split; [exact Hc|apply nid_in_ids]. }
  assert (Hnids : NoDup (map nid cs)).
  { apply NoDup_child_nids. inversion Hnd; assumption. }
  unfold handleInsert. unfold bind at 1, getChildNodes at 1.
  rewrite Hdom. cbn [childNodes]. cbv zeta.
  replace (negb _) with true.
  2:{ symmetry. apply negb_true_iff.
      destruct (nth_error cs newIndex) as [existing|] eqn:En;
        [|reflexivity].
      apply not_looksInserted, Hfree. reflexivity. }
  unfold bind at 1, cloneTemplate at 1. rewrite Ec.
  assert (Hplaced :
            place copy cs newIndex
                  (mkWorld (dom w) next' (console w))
            = (Ok tt,
               mkWorld (Element p t a (firstn newIndex cs ++ copy
                                         :: skipn newIndex cs))
                       next' (console w))).
  { unfold place. destruct (List.length cs <=? newIndex) eqn:El.
    - apply Nat.leb_le in El.
      unfold appendChild, bind, requireContainer, getChildNodes, setChildren,
        modify. rewrite Hdom.
      cbn [dom next console childNodes withChildNodes].
      rewrite without_fresh, deref_fresh by exact Hfresh.
      rewrite firstn_all2, skipn_all2 by exact El. reflexivity.
    - apply Nat.leb_gt in El.
      destruct (nth_error_within cs newIndex El) as (r & Er). rewrite Er.
      unfold insertBefore, bind, requireContainer, getChildNodes,
        setChildren, modify. rewrite Hdom.
      cbn [dom next console childNodes withChildNodes].
      rewrite (isChild_nth cs newIndex r Er). cbn [negb].
      unfold sameNode.
      replace (nid copy =? nid r) with false.
      2:{ symmetry. apply Nat.eqb_neq. intros E.
          apply (Hfresh r); [eapply nth_error_In, Er|congruence]. }
      rewrite without_fresh, deref_fresh by exact Hfresh.
      rewrite (insertBeforeIn_at cs copy Hnids newIndex r Er).
      reflexivity. }
  unfold bind at 1. rewrite Hplaced.
  assert (Hmiddle : updateIn (firstn newIndex cs ++ copy :: skipn newIndex cs)
                             copy
                             (MediaProcessor.processNewNodeMedia
                                processMediaElement)
                    = firstn newIndex cs
                        ++ MediaProcessor.processNewNodeMedia
                             processMediaElement copy
                        :: skipn newIndex cs).
  { apply updateIn_middle. intros c Hc. apply Hfresh.
    rewrite <- (firstn_skipn newIndex cs). exact Hc. }
  destruct (NodeUtils.needsMediaProcessing copy) eqn:Em.
  - unfold Patcher.processNewNodeMedia, updateChild, bind, getChildNodes,
      setChildren, modify. cbn [dom next console childNodes withChildNodes].
    rewrite Hmiddle. reflexivity.
  - unfold ret.
    rewrite (processNewNodeMedia_without_media processMediaElement copy Em).
    reflexivity.
Qed.

Lemma handleInsert_places_copy_witness :
  handleInsert None 0 greeting (Some (Text 30 "hello")) (mkWorld article 100 [])
  = (Ok tt,
     mkWorld (Element 10 "DIV" []
                [Text 100 "hello";
                 Element 11 "P" [("class", "old")] [Text 12 "old text"]])
             101 []).
Proof.
  apply (handleInsert_places_copy None 0 greeting (Text 30 "hello")
           (mkWorld article 100 []) 10 "DIV" []
           [Element 11 "P" [("class", "old")] [Text 12 "old text"]]).
  - reflexivity.
  - split; simpl.
    + repeat constructor; simpl; intuition lia.
    + intros i Hi. intuition lia.
  - intros existing [= <-] [(_ & i & d & E & _)|(Ht & _)]; discriminate.
Defined.

(** ** The plan of a reconciliation *)

Lemma firstUnmatched_spec test om matched k e :
  firstUnmatched test om matched = Ok (Some (k, e)) ->
  In (k, e) om /\ ~ In k matched.
Proof.
  induction om as [|[k' e'] om IH]; simpl; [discriminate|].
  destruct (existsb (String.eqb k') matched) eqn:Ex.
  - intros H. apply IH in H. tauto.
  - destruct (test e') as [[|]|]; cbn [rbind]; try discriminate.
    + intros [= <- <-]. split; [auto|].
      intros H. apply existsb_eqb_In in H. congruence.
    + intros H. apply IH in H. tauto.
Qed.

Lemma findMatch_spec newChild newIndex om matched k e :
  findMatch newChild newIndex om matched = Ok (Some (k, e)) ->
  In (k, e) om /\ ~ In k matched.
Proof.
  unfold findMatch.
  match goal with |- rbind ?f _ = _ -> _ =>
    destruct f as [[hit|]|] eqn:E1 end;
    unfold rbind at 1; cbv beta iota; try discriminate.
  - intros [= ->]. eapply firstUnmatched_spec, E1.
  - match goal with |- rbind ?f _ = _ -> _ =>
      destruct f as [[hit|]|] eqn:E2 end;
      unfold rbind at 1; cbv beta iota; try discriminate.
    + intros [= ->]. eapply firstUnmatched_spec, E2.
    + apply firstUnmatched_spec.
Qed.

Lemma firstPass_spec newChildren newRealChildren om :
  forall newIndex matched ops matched',
    firstPass newChildren newRealChildren newIndex om matched
    = Ok (ops, matched') ->
    exists hits,
      flat_map touched ops = map snd hits /\
      flat_map placed ops = nonNullChildren newChildren newIndex /\
      (forall op, In op ops -> op_type op <> "remove") /\
      (forall kv, In kv hits -> In kv om) /\
      NoDup (map fst hits) /\
      (forall k, In k (map fst hits) -> ~ In k matched) /\
      (forall k, In k matched' <-> In k (map fst hits) \/ In k matched).
Proof.
  induction newChildren as [|[newChild|] rest IH];
    intros newIndex matched ops matched' H; cbn [firstPass] in H.
  - injection H as <- <-. exists []. simpl.
    repeat split; try tauto; constructor.
  - destruct (findMatch _ _ _ _) as [[[k e]|]|] eqn:Ef; cbn [rbind] in H;
      try discriminate;
      match type of H with
      | rbind ?f _ = _ => destruct f as [[ops0 m0]|] eqn:E
      end; cbn [rbind fst snd] in H; try discriminate;
      injection H as <- <-;
      apply IH in E as (hits & Ht & Hp & Hr & Hin & Hnd & Hfresh & Hm).
    + apply findMatch_spec in Ef as [Hk Hke].
      exists ((k, e) :: hits). cbn [flat_map touched placed app map fst snd
                                     nonNullChildren].
      rewrite Ht, Hp. split; [reflexivity|]. split; [reflexivity|].
      split; [intros op [<-|Hop]; [discriminate|apply Hr, Hop]|].
      split; [intros kv [<-|Hkv]; auto|].
      split; [constructor; [|exact Hnd];
              intros Hc; apply (Hfresh k Hc); left; reflexivity|].
      split.
      * intros k' [<-|Hk'] Hc; [exact (Hke Hc)|].
        apply (Hfresh k' Hk'). right. exact Hc.
      * intros k'. rewrite Hm. simpl. tauto.
    + exists hits. cbn [flat_map touched placed app nonNullChildren].
      rewrite Ht, Hp. split; [reflexivity|]. split; [reflexivity|].
      split; [intros op [<-|Hop]; [discriminate|apply Hr, Hop]|].
      auto.
  - cbn [nonNullChildren]. apply IH, H.
Qed.

Lemma secondPass_spec om matched :
  flat_map touched (secondPass om matched)
  = map snd (filter (fun kv => negb (existsb (String.eqb (fst kv)) matched))
                    om) /\
  flat_map placed (secondPass om matched) = [].
Proof.
  unfold secondPass. induction om as [|[k e] om [IH1 IH2]]; simpl; [auto|].
  destruct (existsb (String.eqb k) matched); simpl; rewrite ?IH1, ?IH2; auto.
Qed.

Lemma nonNullChildren_indices children :
  forall index,
    NoDup (map snd (nonNullChildren children index)) /\
    forall ci, In ci (nonNullChildren children index) -> index <= snd ci.
Proof.
  induction children as [|[c|] rest IH]; intros index;
    cbn [nonNullChildren].
  - split; [constructor|]. intros ci [].
  - destruct (IH (S index)) as [Hnd Hge]. split.
    + simpl. constructor; [|exact Hnd].
      intros H. apply in_map_iff in H as (ci & E & Hci).
      apply Hge in Hci. lia.
    + intros ci [<-|Hci]; [simpl; lia|]. apply Hge in Hci. lia.
  - destruct (IH (S index)) as [Hnd Hge]. split; [exact Hnd|].
    intros ci Hci. apply Hge in Hci. lia.
Qed.

Lemma NoDup_map_injective {A B} (f : A -> B) l x y :
  NoDup (map f l) -> In x l -> In y l -> f x = f y -> x = y.
Proof.
  induction l as [|a l IH]; simpl; [tauto|].
  intros H Hx Hy E. inversion H as [|? ? Ha Hl]; subst.
  destruct Hx as [->|Hx], Hy as [->|Hy]; auto.
  - exfalso. apply Ha. rewrite E. apply in_map, Hy.
  - exfalso. apply Ha. rewrite <- E. apply in_map, Hx.
Qed.

(** X22.  The plan of a reconciliation covers both lists exactly once.
    Every non-null new child gets one operation, an [insert] or an
    [update], and these come in the order of the new list; every non-null
    old child is the target of one operation, an [update] or a [remove],
    and of no second one: no old child is both updated and removed, updated
    twice, or forgotten. *)
Theorem planOperations_covers_once
        (realChildren newRealChildren : list node)
        (oldChildren newChildren : list (option VDom.vnode))
        (operations : list operation)
        (Hplan : planOperations realChildren oldChildren newChildren
                                newRealChildren = Ok operations) :
  flat_map placed operations = nonNullChildren newChildren 0 /\
  NoDup (map index (flat_map touched operations)) /\
  forall entry,
    In entry (flat_map touched operations) <->
    In entry
       (map (fun ci => mkOldEntry (fst ci) (nth_error realChildren (snd ci))
                                  (snd ci) (nodeKey (fst ci) (snd ci)))
            (nonNullChildren oldChildren 0)).
Proof.
  unfold planOperations, oldChildMapOf in Hplan.
  destruct (buildChildMap_spec
              (fun child index key =>
                 mkOldEntry child (nth_error realChildren index) index key)
              oldChildren 0 [] (NoDup_nil _)) as (om & Eo & Hkeys & Hom).
  cbn [app] in Eo, Hkeys. rewrite Eo in Hplan. cbn [rbind] in Hplan.
  destruct (newChildMapOf _ _) as [nm|]; [|discriminate].
  cbn [rbind] in Hplan.
  destruct (firstPass _ _ _ _ _) as [[ops matched]|] eqn:Ef; [|discriminate].
  cbn [rbind fst snd] in Hplan. injection Hplan as <-.
  apply firstPass_spec in Ef
    as (hits & Ht & Hp & _ & Hin & Hnd & _ & Hm).
  destruct (secondPass_spec om matched) as [Ht2 Hp2].
  rewrite !flat_map_app, Ht, Hp, Ht2, Hp2, app_nil_r.
  apply Forall2_map_snd in Hom. rewrite <- Hom.
  set (rest := filter _ om).
  assert (Hrest : forall kv, In kv rest <->
                             In kv om /\ ~ In (fst kv) (map fst hits)).
  { intros kv. unfold rest. rewrite filter_In, negb_true_iff.
    rewrite <- not_true_iff_false, existsb_eqb_In, Hm. simpl. tauto. }
  assert (Hsub : forall kv, In kv (hits ++ rest) -> In kv om).
  { intros kv H. apply in_app_or in H as [H|H]; [apply Hin, H|].
    apply Hrest in H. tauto. }
  assert (Hpairs : NoDup (map fst (hits ++ rest))).
  { rewrite map_app. apply NoDup_app; [exact Hnd| |].
    - unfold rest. unfold Map_keys in Hkeys. clear - Hkeys.
      induction om as [|kv om IH]; simpl; [constructor|].
      inversion Hkeys as [|? ? Hk Hr]; subst.
      destruct (negb _); simpl; [|apply IH, Hr].
      constructor; [|apply IH, Hr].
      intros H. apply Hk. apply in_map_iff in H as (kv' & E & H).
      apply filter_In in H as [H _]. rewrite <- E. apply in_map, H.
    - intros k Hk H. apply in_map_iff in H as (kv & <- & H).
      apply Hrest in H. tauto. }
  assert (Hindex : NoDup (map index (map snd om))).
  { rewrite Hom, map_map. cbn [index].
    apply (nonNullChildren_indices oldChildren 0). }
  split; [reflexivity|]. split.
  - rewrite <- map_app, map_map.
    apply NoDup_map_NoDup_ForallPairs; [|eapply NoDup_map_inv, Hpairs].
    intros x y Hx Hy E. apply Hsub in Hx, Hy.
    rewrite map_map in Hindex.
    apply (NoDup_map_injective _ om x y Hindex Hx Hy E).
  - intros entry. rewrite <- map_app. split.
    + intros H. apply in_map_iff in H as (kv & <- & H).
      apply in_map, Hsub, H.
    + intros H. apply in_map_iff in H as ([k e] & <- & H). cbn [snd].
      destruct (in_dec string_dec k (map fst hits)) as [Hk|Hk].
      * apply in_map_iff in Hk as ([k' e'] & E & Hk). cbn [fst] in E.
        subst k'. pose proof (Hin _ Hk) as Hom'.
        assert ((k, e') = (k, e)) as [= ->].
        { apply (NoDup_map_injective fst om); auto. }
        apply in_map_iff. exists (k, e). split; [reflexivity|].
        apply in_or_app. left. exact Hk.
      * apply in_map_iff. exists (k, e). split; [reflexivity|].
        apply in_or_app. right. apply Hrest. auto.
Qed.

Lemma planOperations_covers_once_witness :
  flat_map placed
           [Update 0 (mkOldEntry (keyed "a") None 0 "a") (keyed "a") None;
            Insert 1 (keyed "c") None;
            Remove (mkOldEntry (keyed "b") None 1 "b")]
  = nonNullChildren [Some (keyed "a"); Some (keyed "c")] 0 /\
  NoDup (map index
             (flat_map touched
                [Update 0 (mkOldEntry (keyed "a") None 0 "a") (keyed "a") None;
                 Insert 1 (keyed "c") None;
                 Remove (mkOldEntry (keyed "b") None 1 "b")])) /\
  forall entry,
    In entry
       (flat_map touched
          [Update 0 (mkOldEntry (keyed "a") None 0 "a") (keyed "a") None;
           Insert 1 (keyed "c") None;
           Remove (mkOldEntry (keyed "b") None 1 "b")]) <->
    In entry
       (map (fun ci => mkOldEntry (fst ci) (nth_error [] (snd ci))
                                  (snd ci) (nodeKey (fst ci) (snd ci)))
            (nonNullChildren [Some (keyed "a"); Some (keyed "b")] 0)).
Proof.
  apply (planOperations_covers_once [] []
           [Some (keyed "a"); Some (keyed "b")]
           [Some (keyed "a"); Some (keyed "c")]).
  reflexivity.
Defined.

(** ** A detected deletion, from diff to patch *)

Lemma sortedChanges_one_kind changes t :
  inherited t = false ->
  (forall c, In c changes -> Changes.type c = t) ->
  sortedChanges changes = changes.
Proof.
  intros Ht H. unfold sortedChanges.
  rewrite (sort_agree compareChanges (fun a b => priority a - priority b)%Z)
    by (intros a b Ha Hb; apply compareChanges_priority;
        rewrite H by assumption; exact Ht).
  rewrite (sort_by_rank priority [orDefault (order t) 10]).
  - simpl. rewrite app_nil_r. apply forallb_filter_id.
    apply forallb_forall. intros c Hc. apply Z.eqb_eq.
    unfold priority. rewrite (H c Hc). reflexivity.
  - repeat constructor.
  - intros c Hc. left. unfold priority. rewrite (H c Hc). reflexivity.
Qed.

Lemma removalsAt_type path parent children index c :
  In c (removalsAt path parent children index) ->
  Changes.type c = "removeChild".
Proof.
  revert index. induction children as [|x children IH]; intros index;
    simpl; [tauto|].
  intros [<-|H]; [reflexivity|]. eapply IH, H.
Qed.

Lemma isChild_false cs c :
  isChild cs c = false -> forall x, In x cs -> nid x <> nid c.
Proof.
  unfold isChild. intros H x Hx E.
  assert (existsb (fun c0 => sameNode c0 c) cs = true); [|congruence].
  apply existsb_exists. exists x. split; [exact Hx|].
  unfold sameNode. apply Nat.eqb_eq, E.
Qed.

Lemma applyChange_removeChild callback path parent c index w p t a cur :
  dom w = Element p t a cur -> nid parent = p ->
  applyChange callback (removeChild path parent c index) w
  = (Ok tt, mkWorld (Element p t a (without cur c)) (next w) (console w)).
Proof.
  intros Hdom Hp. cbn [applyChange]. unfold bind at 1, get at 1.
  unfold resolve. rewrite Hdom, Hp.
  rewrite (findNode_hit p (Element p t a cur) eq_refl). cbn [childNodes].
  destruct (isChild cur c) eqn:E.
  - unfold modifyDom, modify. rewrite Hdom. cbn [mapNode nid].
    rewrite Nat.eqb_refl. reflexivity.
  - rewrite (without_fresh cur c (isChild_false cur c E)).
    unfold ret. rewrite <- Hdom. destruct w; reflexivity.
Qed.

Lemma forEachTry_removals callback path parent p t a span :
  nid parent = p ->
  forall index w cur,
    dom w = Element p t a cur ->
    forEachTry (removalsAt path parent span index) (applyChange callback)
               (fun change error =>
                  console_error
                    ("Error applying " ++ Changes.type change ++ ":") error)
               w
    = (Ok tt,
       mkWorld (Element p t a (fold_left without span cur)) (next w)
               (console w)).
Proof.
  intros Hp. induction span as [|c span IH]; intros index w cur Hdom.
  - simpl. unfold ret. rewrite <- Hdom. destruct w; reflexivity.
  - cbn [removalsAt forEachTry fold_left]. unfold bind at 1, try_catch.
    rewrite (applyChange_removeChild callback path parent c index w p t a cur
               Hdom Hp).
    rewrite (IH (S index)
                (mkWorld (Element p t a (without cur c)) (next w) (console w))
                (without cur c) eq_refl).
    reflexivity.
Qed.

Lemma without_at pre c post :
  ~ In (nid c) (map nid pre) -> ~ In (nid c) (map nid post) ->
  without (pre ++ c :: post) c = pre ++ post.
Proof.
  intros Hpre Hpost. unfold without. rewrite filter_app. cbn [filter].
  unfold sameNode at 2. rewrite Nat.eqb_refl. cbn [negb].
  fold (without pre c). fold (without post c).
  rewrite !without_fresh; [reflexivity| |];
    intros x Hx E; [apply Hpost|apply Hpre]; rewrite <- E; apply in_map, Hx.
Qed.

Lemma fold_without_span pre span post :
  NoDup (map nid (pre ++ span ++ post)) ->
  fold_left without span (pre ++ span ++ post) = pre ++ post.
Proof.
  revert pre. induction span as [|c span IH]; intros pre Hnd;
    [reflexivity|].
  cbn [fold_left app]. rewrite map_app in Hnd. cbn [app map] in Hnd.
  pose proof (NoDup_remove_2 _ _ _ Hnd) as Hc.
  rewrite without_at.
  - apply IH. rewrite map_app. apply (NoDup_remove_1 _ _ _ Hnd).
  - intros H. apply Hc, in_or_app. auto.
  - intros H. apply Hc, in_or_app. auto.
Qed.

Lemma span_split {A} (l : list A) pos count :
  l = firstn pos l ++ firstn count (skipn pos l) ++ skipn (pos + count) l.
Proof.
  rewrite <- (firstn_skipn pos l) at 1. f_equal.
  rewrite <- (firstn_skipn count (skipn pos l)) at 1. f_equal.
  rewrite skipn_skipn. f_equal. lia.
Qed.

Lemma compareElements_same_shell p q t a cs cs' path s :
  NodeUtils.isHeavyElement (Some (Element p t a cs)) = false ->
  compareElements (Some (Element p t a cs)) (Some (Element q t a cs')) path s
  = compareChildren (compareElements_fuel (height (Element p t a cs)))
                    (Element p t a cs) (Element q t a cs')
                    (path ++ (if truthy path then " > " else "")
                          ++ toLowerCase t)
                    s.
Proof.
  intros Hlight. unfold compareElements.
  cbn [depth compareElements_fuel]. unfold compareElements_body.
  cbn [Dom.nodeType ELEMENT_NODE TEXT_NODE Nat.eqb negb Dom.tagName
       option_eqb].
  rewrite String.eqb_refl, Hlight. cbn [negb].
  change (NodeComparator.compareAttributes (Element p t a cs)
                                           (Element q t a cs'))
    with (NodeComparator.compareAttributes (Element p t a cs)
                                           (Element p t a cs)).
  rewrite compareAttributes_self. cbn [List.length Nat.ltb Nat.leb].
  unfold bind.
  destruct (compareChildren _ _ _ _ s) as [[changes|e] s']; reflexivity.
Qed.

(** X23.  A detected deletion is carried out.  For a non-heavy root
    element whose children have distinct identities, and a new element of
    the same tag and attributes against which [isSimpleInsertionOrDeletion]
    detects a deletion, [update] returns one [removeChild] per child of the
    detected span and leaves the root with exactly its other children, in
    their order; nothing is logged and nothing allocated. *)
Theorem update_removes_detected_span
        (callback : option (node -> node)) (w : world)
        (p q : nat) (t : string) (a : list (string * string))
        (cs cs' : list node) (newElement : node) (sc : structuralChange)
        (Hdom : dom w = Element p t a cs)
        (Hnames : NoDup (map nid cs))
        (Hnew : resolve newElement (dom w) = Element q t a cs')
        (Hlight : NodeUtils.isHeavyElement (Some (Element p t a cs)) = false)
        (Hdetected : isSimpleInsertionOrDeletion cs cs' = Some sc)
        (Hdeletion : type sc = deletion) :
  DeltaDOM.update callback (Some (Element p t a cs)) (Some newElement) w
  = (Ok (removalsAt (toLowerCase t) (Element p t a cs)
                    (firstn (count sc) (skipn (position sc) cs))
                    (position sc)),
     mkWorld (Element p t a
                (firstn (position sc) cs
                   ++ skipn (position sc + count sc) cs))
             (next w) (console w)).
Proof.
  unfold DeltaDOM.update, DeltaDOM.diff, DeltaDOM.patch.
  unfold bind at 1. unfold bind at 1. unfold get at 1. cbn [option_map].
  rewrite Hnew. unfold resolve. rewrite Hdom. cbn [nid].
  rewrite (findNode_hit p (Element p t a cs) eq_refl).
  unfold DeltaDOM.runDiffer.
  rewrite (compareElements_same_shell p q t a cs cs' "" (next w) Hlight).
  rewrite (compareChildren_detected _ (Element p t a cs) (Element q t a cs')
             _ (next w) sc Hdetected).
  rewrite Hdeletion. cbn [childNodes truthy String.eqb negb append].
  unfold bind at 1. unfold applyChanges.
  rewrite (sortedChanges_one_kind _ "removeChild" eq_refl)
    by (intros c Hc; eapply removalsAt_type, Hc).
  rewrite (forEachTry_removals callback _ (Element p t a cs) p t a _ eq_refl
             (position sc)
             (mkWorld (dom w) (next w) (console w)) cs Hdom).
  pose proof (fold_without_span
                (firstn (position sc) cs)
                (firstn (count sc) (skipn (position sc) cs))
                (skipn (position sc + count sc) cs)) as Hfold.
  rewrite <- span_split in Hfold. rewrite (Hfold Hnames). reflexivity.
Qed.

Lemma update_removes_detected_span_witness :
  DeltaDOM.update None (Some trail) (Some trail') (mkWorld trail 100 [])
  = (Ok [removeChild "ul" trail (Element 4 "LI" [] [Text 5 "b"]) 1],
     mkWorld (Element 1 "UL" []
                [Element 2 "LI" [] [Text 3 "a"];
                 Element 6 "LI" [] [Text 7 "c"]])
             100 []).
Proof.
  apply (update_removes_detected_span None (mkWorld trail 100 []) 1 11 "UL" []
           (childNodes trail) (childNodes trail') trail'
           (mkChange deletion 1 1)); try reflexivity.
  simpl. repeat constructor; simpl; intuition lia.
Defined.

(** ** A detected insertion, from diff to patch *)

Lemma insertionsAt_type path parent clones index c :
  In c (insertionsAt path parent clones index) ->
  Changes.type c = "insertChild".
Proof.
  revert index. induction clones as [|x clones IH]; intros index;
    simpl; [tauto|].
  intros [<-|H]; [reflexivity|]. eapply IH, H.
Qed.

Lemma ids_withoutAttributes n : ids (withoutAttributes n) = ids n.
Proof.
  induction n as [i d|i d|i t a cs IH] using node_induction;
    try reflexivity.
  simpl. f_equal. induction IH as [|c cs Hc _ IHcs]; [reflexivity|].
  simpl. rewrite Hc, IHcs. reflexivity.
Qed.

Lemma ids_processNewNodeMedia n :
  ids (MediaProcessor.processNewNodeMedia None n) = ids n.
Proof.
  rewrite <- (ids_withoutAttributes
                (MediaProcessor.processNewNodeMedia None n)).
  assert (E : withoutAttributes (MediaProcessor.processNewNodeMedia None n)
              = withoutAttributes n).
  { unfold MediaProcessor.processNewNodeMedia.
    destruct (negb _); [reflexivity|].
    destruct (option_eqb _ _ _);
      [apply processImage_None_frame
      |apply withoutAttributes_processDescendants]. }
  rewrite E. apply ids_withoutAttributes.
Qed.

Lemma nid_head_ids n : ids n = nid n :: tl (ids n).
Proof. destruct n; reflexivity. Qed.

Lemma nid_processNewNodeMedia n :
  nid (MediaProcessor.processNewNodeMedia None n) = nid n.
Proof.
  pose proof (ids_processNewNodeMedia n) as H.
  rewrite (nid_head_ids n), (nid_head_ids (_ None n)) in H.
  injection H as H _. exact H.
Qed.

Lemma NoDup_insert {A} (pre post : list A) x :
  NoDup (pre ++ post) -> ~ In x (pre ++ post) -> NoDup (pre ++ x :: post).
Proof.
  induction pre as [|y pre IH]; simpl; intros Hnd Hx.
  - constructor; assumption.
  - inversion Hnd as [|? ? Hy Hrest]; subst. constructor.
    + intros H. apply in_app_or in H as [H|[->|H]].
      * apply Hy, in_or_app. auto.
      * apply Hx. left. reflexivity.
      * apply Hy, in_or_app. auto.
    + apply IH; [exact Hrest|]. intros H. apply Hx. right. exact H.
Qed.

Lemma firstn_length_app {A} (pre post : list A) :
  firstn (List.length pre) (pre ++ post) = pre.
Proof. induction pre; simpl; congruence. Qed.

Lemma skipn_length_app {A} (pre post : list A) :
  skipn (List.length pre) (pre ++ post) = post.
Proof. induction pre; simpl; congruence. Qed.

Lemma applyChange_insertChild path parent child w p t a pre post :
  dom w = Element p t a (pre ++ post) -> nid parent = p ->
  NoDup (map nid (pre ++ post)) ->
  (forall i, In i (ids child) ->
             ~ In i (p :: flat_map ids (pre ++ post))) ->
  applyChange None (insertChild path parent child (List.length pre)) w
  = (Ok tt,
     mkWorld (Element p t a
                (pre ++ MediaProcessor.processNewNodeMedia None child :: post))
             (next w) (console w)).
Proof.
  intros Hdom Hp Hnids Hfresh.
  assert (Hdetached : ~ In (nid child) (ids (Element p t a (pre ++ post))))
    by (apply Hfresh, nid_in_ids).
  cbn [applyChange]. unfold bind at 1. unfold bind at 1. unfold get at 1.
  unfold resolve at 1. rewrite Hdom, Hp.
  rewrite (findNode_hit p (Element p t a (pre ++ post)) eq_refl).
  rewrite (resolve_fresh child) by exact Hdetached. cbn [nid].
  replace (existsb (Nat.eqb p) (ids child)) with false.
  2:{ symmetry. apply not_true_is_false. intros H.
      apply existsb_exists in H as (i & Hi & E). apply Nat.eqb_eq in E.
      subst i. apply (Hfresh p Hi). left. reflexivity. }
  match goal with
  | |- (let (r, s') := ?m w in _) = _ =>
      assert (Hplaced :
                m w = (Ok tt,
                       mkWorld (Element p t a (pre ++ child :: post)) (next w)
                               (console w)))
  end.
  { destruct (List.length (pre ++ post) <=? List.length pre) eqn:El.
    - apply Nat.leb_le in El. rewrite length_app in El.
      destruct post; [|simpl in El; lia].
      unfold modifyDom, modify. rewrite Hdom.
      rewrite detach_fresh by exact Hdetached.
      cbn [mapNode nid]. rewrite Nat.eqb_refl.
      cbn [withChildNodes childNodes]. rewrite app_nil_r. reflexivity.
    - apply Nat.leb_gt in El.
      destruct (nth_error_within (pre ++ post) (List.length pre) El)
        as (ref & Er).
      rewrite Er. unfold sameNode.
      replace (nid ref =? nid child) with false.
      2:{ symmetry. apply Nat.eqb_neq. intros E. apply Hdetached.
          right. rewrite <- E. apply in_flat_map. exists ref.
          split; [eapply nth_error_In, Er|apply nid_in_ids]. }
      unfold modifyDom, modify. rewrite Hdom.
      rewrite detach_fresh by exact Hdetached.
      cbn [mapNode nid]. rewrite Nat.eqb_refl.
      cbn [withChildNodes childNodes].
      rewrite (insertBeforeIn_at _ child Hnids _ ref Er).
      rewrite firstn_length_app, skipn_length_app. reflexivity. }
  rewrite Hplaced.
  unfold modifyDom, modify. cbn [dom next console].
  f_equal. f_equal. cbn [mapNode nid].
  replace (p =? nid child) with false.
  2:{ symmetry. apply Nat.eqb_neq. intros ->. apply Hdetached. left.
      reflexivity. }
  f_equal. rewrite map_app. cbn [map].
  rewrite !map_mapNode_fresh.
  - f_equal. f_equal. destruct child; simpl; rewrite Nat.eqb_refl; reflexivity.
  - intros H. apply Hdetached. right. rewrite flat_map_app.
    apply in_or_app. right. exact H.
  - intros H. apply Hdetached. right. rewrite flat_map_app.
    apply in_or_app. left. exact H.
Qed.

Lemma forEachTry_insertions path parent p t a span :
  nid parent = p ->
  forall pre post s w,
    dom w = Element p t a (pre ++ post) ->
    NoDup (map nid (pre ++ post)) ->
    (forall i, In i (p :: flat_map ids (pre ++ post)) -> i < s) ->
    forEachTry (insertionsAt path parent (fst (cloneList span s))
                             (List.length pre))
               (applyChange None)
               (fun change error =>
                  console_error
                    ("Error applying " ++ Changes.type change ++ ":") error)
               w
    = (Ok tt,
       mkWorld (Element p t a
                  (pre ++ map (MediaProcessor.processNewNodeMedia None)
                              (fst (cloneList span s))
                       ++ post))
               (next w) (console w)).
Proof.
  intros Hp. induction span as [|x span IH]; intros pre post s w Hdom Hnd Hlt.
  - simpl. unfold ret. rewrite <- Hdom. destruct w; reflexivity.
  - cbn [cloneList].
    destruct (cloneNode_spec x s) as (c & s1 & Ec & Hs & _ & Hids).
    rewrite Ec.
    specialize (IH (pre ++ [MediaProcessor.processNewNodeMedia None c]) post
                   s1).
    destruct (cloneList span s1) as [clones s2] eqn:El.
    cbn [fst insertionsAt forEachTry map app]. unfold bind at 1, try_catch.
    rewrite (applyChange_insertChild path parent c w p t a pre post
               Hdom Hp Hnd).
    2:{ intros i Hi Hin. apply Hids in Hi. apply Hlt in Hin. lia. }
    rewrite length_app in IH. cbn [List.length] in IH.
    rewrite Nat.add_1_r in IH. cbn [fst] in IH.
    rewrite IH.
    + cbn [next console]. rewrite <- !app_assoc. reflexivity.
    + cbn [dom]. rewrite <- app_assoc. reflexivity.
    + rewrite <- app_assoc. cbn [app]. rewrite map_app. cbn [map].
      rewrite map_app in Hnd. apply NoDup_insert; [exact Hnd|].
      rewrite nid_processNewNodeMedia. intros H.
      rewrite <- map_app in H. apply in_map_iff in H as (y & E & Hy).
      assert (nid y < s); [|pose proof (Hids (nid c) (nid_in_ids c)); lia].
      apply Hlt. right. apply in_flat_map. exists y.
      split; [exact Hy|apply nid_in_ids].
    + intros i [<-|Hi];
        [assert (p < s) by (apply Hlt; left; reflexivity); lia|].
      rewrite <- app_assoc in Hi. cbn [app] in Hi.
      rewrite flat_map_app in Hi. cbn [flat_map] in Hi.
      rewrite ids_processNewNodeMedia in Hi.
      apply in_app_or in Hi as [Hi|Hi];
        [|apply in_app_or in Hi as [Hi|Hi]].
      * assert (i < s); [|lia]. apply Hlt. right. rewrite flat_map_app.
        apply in_or_app. auto.
      * apply Hids in Hi. lia.
      * assert (i < s); [|lia]. apply Hlt. right. rewrite flat_map_app.
        apply in_or_app. auto.
Qed.

(** X24.  A detected insertion is carried out.  In a well-formed store
    whose root is a non-heavy element, with no media callback configured,
    and for a new element of the same tag and attributes against which
    [isSimpleInsertionOrDeletion] detects an insertion, [update] returns one
    [insertChild] per inserted child and leaves the root with its old
    children and, at the detected position between them, the copies of the
    inserted children after media processing. *)
Theorem update_inserts_detected_span
        (w : world) (p q : nat) (t : string) (a : list (string * string))
        (cs cs' : list node) (newElement : node) (sc : structuralChange)
        (Hdom : dom w = Element p t a cs)
        (Hstore : wellFormedStore w)
        (Hnew : resolve newElement (dom w) = Element q t a cs')
        (Hlight : NodeUtils.isHeavyElement (Some (Element p t a cs)) = false)
        (Hdetected : isSimpleInsertionOrDeletion cs cs' = Some sc)
        (Hinsertion : type sc = insertion) :
  DeltaDOM.update None (Some (Element p t a cs)) (Some newElement) w
  = let (clones, next') :=
      cloneList (firstn (count sc) (skipn (position sc) cs')) (next w) in
    (Ok (insertionsAt (toLowerCase t) (Element p t a cs) clones (position sc)),
     mkWorld (Element p t a
                (firstn (position sc) cs
                   ++ map (MediaProcessor.processNewNodeMedia None) clones
                   ++ skipn (position sc) cs))
             next' (console w)).
Proof.
  destruct Hstore as [Hnd Hbelow]. rewrite Hdom in Hnd, Hbelow.
  cbn [ids] in Hnd, Hbelow.
  pose proof (detection_sound cs cs' sc Hdetected) as (Hlen & _).
  rewrite Hinsertion in Hlen. destruct Hlen as [_ Hpos].
  unfold DeltaDOM.update, DeltaDOM.diff, DeltaDOM.patch.
  unfold bind at 1. unfold bind at 1. unfold get at 1. cbn [option_map].
  rewrite Hnew. unfold resolve. rewrite Hdom. cbn [nid].
  rewrite (findNode_hit p (Element p t a cs) eq_refl).
  unfold DeltaDOM.runDiffer.
  rewrite (compareElements_same_shell p q t a cs cs' "" (next w) Hlight).
  rewrite (compareChildren_detected _ (Element p t a cs) (Element q t a cs')
             _ (next w) sc Hdetected).
  rewrite Hinsertion. cbn [childNodes truthy String.eqb negb append].
  pose proof (forEachTry_insertions (toLowerCase t) (Element p t a cs) p t a
                (firstn (count sc) (skipn (position sc) cs')) eq_refl
                (firstn (position sc) cs) (skipn (position sc) cs) (next w))
    as Hrun.
  rewrite firstn_skipn, length_firstn, Nat.min_l in Hrun by exact Hpos.
  destruct (cloneList _ (next w)) as [clones next'].
  unfold bind at 1. unfold applyChanges.
  rewrite (sortedChanges_one_kind _ "insertChild" eq_refl)
    by (intros c Hc; eapply insertionsAt_type, Hc).
  cbn [fst] in Hrun. rewrite Hrun.
  - reflexivity.
  - exact Hdom.
  - apply NoDup_child_nids. inversion Hnd; assumption.
  - exact Hbelow.
Qed.

Lemma update_inserts_detected_span_witness :
  DeltaDOM.update None (Some trail') (Some trail) (mkWorld trail' 100 [])
  = (Ok [insertChild "ul" trail' (Element 100 "LI" [] [Text 101 "b"]) 1],
     mkWorld (Element 11 "UL" []
                [Element 12 "LI" [] [Text 13 "a"];
                 Element 100 "LI" [] [Text 101 "b"];
                 Element 16 "LI" [] [Text 17 "c"]])
             102 []).
Proof.
  apply (update_inserts_detected_span (mkWorld trail' 100 []) 11 1 "UL" []
           (childNodes trail') (childNodes trail) trail
           (mkChange insertion 1 1)); try reflexivity.
  split; simpl.
  - repeat constructor; simpl; intuition lia.
  - intros i Hi. intuition lia.
Defined.

(** ** Moving a matched child *)

Lemma indexOf_middle pre r post :
  ~ In (nid r) (map nid pre) ->
  indexOf (pre ++ r :: post) r = Some (List.length pre).
Proof.
  induction pre as [|x pre IH]; simpl; intros H.
  - unfold sameNode. rewrite Nat.eqb_refl. reflexivity.
  - unfold sameNode at 1.
    replace (nid x =? nid r) with false
      by (symmetry; apply Nat.eqb_neq; intros E; apply H; auto).
    rewrite IH by tauto. reflexivity.
Qed.

Lemma deref_middle pre r post :
  ~ In (nid r) (map nid pre) -> deref (pre ++ r :: post) r = r.
Proof.
  unfold deref. induction pre as [|x pre IH]; simpl; intros H.
  - unfold sameNode. rewrite Nat.eqb_refl. reflexivity.
  - unfold sameNode at 1.
    replace (nid x =? nid r) with false
      by (symmetry; apply Nat.eqb_neq; intros E; apply H; auto).
    apply IH. tauto.
Qed.

Lemma nth_error_insert {A} (l : list A) j x :
  j <= List.length l -> nth_error (firstn j l ++ x :: skipn j l) j = Some x.
Proof.
  intros H. rewrite nth_error_app2; rewrite length_firstn, Nat.min_l by lia;
    [|lia].
  rewrite Nat.sub_diag. reflexivity.
Qed.

(** X25.  A matched child that is out of place is moved in front of the
    node that sits at the new index, and that node is looked up before the
    child is taken out.  So a child moving towards the front ends at
    [newIndex], but a child moving towards the end ends one position
    short, at [newIndex - 1]; with an index at or beyond the end it
    becomes the last child.  The other children keep their order. *)
Theorem handleUpdate_moves_before_target
        (processMediaElement : option (node -> node))
        (this_patchNode :
           option VDom.vnode -> option VDom.vnode -> option node -> Patch unit)
        (newIndex current : nat) (content key : string) (oldIndex : nat)
        (newRealChild : option node) (moved : node)
        (w : world) (p : nat) (t : string) (a : list (string * string))
        (cs : list node)
        (Hdom : dom w = Element p t a cs)
        (Hnids : NoDup (map nid cs))
        (Hcurrent : nth_error cs current = Some moved)
        (Hmove : current <> newIndex) :
  exists cs',
    handleUpdate processMediaElement this_patchNode newIndex
                 (mkOldEntry (textChild content) (Some moved) oldIndex key)
                 (textChild content) newRealChild w
    = (Ok tt, mkWorld (Element p t a cs') (next w) (console w)) /\
    without cs' moved = without cs moved /\
    nth_error cs'
              (if List.length cs <=? newIndex then List.length cs - 1
               else if current <? newIndex then newIndex - 1
                    else newIndex)
    = Some moved.
Proof.
  destruct (nth_error_split cs current Hcurrent) as (pre & post & -> & Hlen).
  subst current. rewrite map_app in Hnids. cbn [map] in Hnids.
  pose proof (NoDup_remove_2 _ _ _ Hnids) as Hfresh.
  pose proof (NoDup_remove_1 _ _ _ Hnids) as Hrest.
  rewrite <- map_app in Hrest.
  assert (Hpre : ~ In (nid moved) (map nid pre))
    by (intros H; apply Hfresh, in_or_app; auto).
  assert (Hpost : ~ In (nid moved) (map nid post))
    by (intros H; apply Hfresh, in_or_app; auto).
  assert (Hwithout : without (pre ++ moved :: post) moved = pre ++ post)
    by (apply without_at; assumption).
  assert (Hothers : forall c, In c (pre ++ post) -> nid c <> nid moved).
  { intros c Hc E. apply Hfresh. rewrite <- map_app, <- E.
    apply in_map, Hc. }
  unfold handleUpdate, textChild.
  cbn [Patcher.realNode vNode VDom._immutable orb VDom.type VDom.content
       String.eqb Ascii.eqb Bool.eqb andb].
  rewrite option_eqb_refl. cbn [negb].
  unfold bind at 1. unfold bind at 1. unfold getChildNodes at 1.
  rewrite Hdom. cbn [childNodes].
  rewrite (indexOf_middle pre moved post Hpre).
  apply Nat.eqb_neq in Hmove. rewrite Hmove. cbn [negb].
  destruct (List.length (pre ++ moved :: post) <=? newIndex) eqn:El.
  - exists (pre ++ post ++ [moved]).
    unfold appendChild, bind, requireContainer, getChildNodes, setChildren,
      modify, ret. rewrite Hdom. cbn [dom next console childNodes].
    rewrite !Hdom. cbn [childNodes withChildNodes].
    rewrite Hwithout, (deref_middle pre moved post Hpre), <- app_assoc.
    split; [reflexivity|]. split.
    + rewrite app_assoc. unfold without. rewrite filter_app. cbn [filter].
      unfold sameNode at 2. rewrite Nat.eqb_refl. cbn [negb].
      rewrite app_nil_r. apply (without_fresh _ _ Hothers).
    + rewrite app_assoc, nth_error_app2; rewrite !length_app; cbn [List.length];
        [|lia].
      replace (_ - _) with 0 by lia. reflexivity.
  - apply Nat.leb_gt in El.
    destruct (nth_error_within _ newIndex El) as (target & Et).
    rewrite Et.
    assert (Htarget : nid target <> nid moved /\
                      nth_error (pre ++ post)
                                (if List.length pre <? newIndex
                                 then newIndex - 1 else newIndex)
                      = Some target).
    { apply Nat.eqb_neq in Hmove.
      destruct (List.length pre <? newIndex) eqn:Ec.
      - apply Nat.ltb_lt in Ec.
        rewrite nth_error_app2 in Et by lia.
        destruct (newIndex - List.length pre) as [|k] eqn:Ek; [lia|].
        cbn [nth_error] in Et. split.
        + apply Hothers, in_or_app. right. eapply nth_error_In, Et.
        + rewrite nth_error_app2 by lia.
          replace (newIndex - 1 - List.length pre) with k by lia. exact Et.
      - apply Nat.ltb_ge in Ec.
        rewrite nth_error_app1 in Et by lia. split.
        + apply Hothers, in_or_app. left. eapply nth_error_In, Et.
        + rewrite nth_error_app1 by lia. exact Et. }
    destruct Htarget as [Hdistinct Hat].
    unfold sameNode at 1. apply Nat.eqb_neq in Hdistinct as Hne.
    rewrite Hne. cbn [negb].
    set (j := if List.length pre <? newIndex then newIndex - 1 else newIndex)
      in *.
    exists (firstn j (pre ++ post) ++ moved :: skipn j (pre ++ post)).
    unfold insertBefore, bind, requireContainer, getChildNodes, setChildren,
      modify, ret. rewrite Hdom. cbn [dom next console childNodes].
    rewrite ?Hdom. cbn [childNodes].
    rewrite (isChild_nth _ newIndex target Et). cbn [negb].
    unfold sameNode at 1. rewrite Nat.eqb_sym, Hne.
    cbn [dom next console]. rewrite ?Hdom. cbn [childNodes withChildNodes].
    rewrite Hwithout, (deref_middle pre moved post Hpre).
    rewrite (insertBeforeIn_at _ moved Hrest j target Hat).
    split; [reflexivity|]. split.
    + rewrite without_at, firstn_skipn; [reflexivity| |];
        intros H; apply in_map_iff in H as (c & E & Hc);
        [apply (Hothers c)|apply (Hothers c)]; auto;
        rewrite <- (firstn_skipn j (pre ++ post)); apply in_or_app; auto.
    + apply nth_error_insert.
      assert (j < List.length (pre ++ post)); [|lia].
      apply nth_error_Some. rewrite Hat. discriminate.
Qed.

Lemma handleUpdate_moves_before_target_witness :
  exists cs',
    handleUpdate None (fun _ _ _ => ret tt) 2
                 (mkOldEntry (textChild "a") (Some (Text 2 "a")) 0 "text-0-")
                 (textChild "a") None (mkWorld letters 100 [])
    = (Ok tt, mkWorld (Element 1 "P" [] cs') 100 []) /\
    without cs' (Text 2 "a") = without (childNodes letters) (Text 2 "a") /\
    nth_error cs' 1 = Some (Text 2 "a").
Proof.
  apply (handleUpdate_moves_before_target None (fun _ _ _ => ret tt) 2 0 "a"
           "text-0-" 0 None (Text 2 "a") (mkWorld letters 100 []) 1 "P" []
           (childNodes letters)).
  - reflexivity.
  - simpl. repeat constructor; simpl; intuition lia.
  - reflexivity.
  - discriminate.
Defined.

(** ** Removing a node *)

Lemma parentOf_fresh id t : ~ In id (ids t) -> parentOf id t = None.
Proof.
  induction t as [i d|i d|i tg a cs IH] using node_induction; simpl;
    intros H; try reflexivity.
  assert (Hcs : ~ In id (flat_map ids cs)) by tauto. clear H.
  induction cs as [|c cs IHcs]; [reflexivity|].
  inversion IH as [|? ? Hc Hrest]; subst. simpl in Hcs. cbn [existsb].
  assert (Hn : nid c <> id).
  { intros <-. apply Hcs, in_or_app. left. apply nid_in_ids. }
  apply Nat.eqb_neq in Hn. rewrite Hn. cbn [orb].
  assert (Hcs' : ~ In id (flat_map ids cs))
    by (intros H; apply Hcs, in_or_app; auto).
  specialize (IHcs Hrest Hcs').
  destruct (existsb (fun c0 => nid c0 =? id) cs); [discriminate|].
  rewrite Hc by (intros H; apply Hcs, in_or_app; auto). exact IHcs.
Qed.

Lemma parentOf_root i tg a cs :
  ~ In i (flat_map ids cs) -> parentOf i (Element i tg a cs) = None.
Proof.
  intros Hcs. cbn [parentOf].
  induction cs as [|c cs IH]; [reflexivity|].
  cbn [flat_map] in Hcs. cbn [existsb].
  assert (Hn : nid c <> i).
  { intros <-. apply Hcs, in_or_app. left. apply nid_in_ids. }
  apply Nat.eqb_neq in Hn. rewrite Hn. cbn [orb].
  assert (Hcs' : ~ In i (flat_map ids cs))
    by (intros H; apply Hcs, in_or_app; auto).
  specialize (IH Hcs').
  destruct (existsb (fun c0 => nid c0 =? i) cs); [discriminate|].
  rewrite parentOf_fresh by (intros H; apply Hcs, in_or_app; auto).
  exact IH.
Qed.

Lemma detach_child id p t a pre c post :
  nid c = id -> p <> id ->
  ~ In id (flat_map ids pre) -> ~ In id (flat_map ids post) ->
  detach id (Element p t a (pre ++ c :: post)) = Element p t a (pre ++ post).
Proof.
  intros Hc Hp Hpre Hpost.
  pose proof (detach_fresh id (Element p t a post)) as Htail.
  cbn [ids In] in Htail. specialize (Htail ltac:(tauto)).
  cbn [detach] in Htail. injection Htail as Htail.
  cbn [detach]. f_equal.
  induction pre as [|b pre IH]; cbn [app].
  - apply Nat.eqb_eq in Hc. rewrite Hc. exact Htail.
  - cbn [flat_map] in Hpre.
    assert (Hb : nid b <> id).
    { intros E. apply Hpre, in_or_app. left. rewrite <- E. apply nid_in_ids. }
    apply Nat.eqb_neq in Hb. rewrite Hb.
    rewrite detach_fresh by (intros H; apply Hpre, in_or_app; auto).
    f_equal. apply IH. intros H. apply Hpre, in_or_app. auto.
Qed.

(** X26.  Removing through [update].  In a store whose nodes have distinct
    identities, [update(child, null)] for a child of the root returns the
    one [remove] operation and takes the child, with its subtree, out of
    the tree; its siblings, the counter and the console stay as they are.
    For the root itself, which has no parent, the same [remove] operation
    is returned but nothing is changed. *)
Theorem update_removes_child
        (callback : option (node -> node)) (w : world)
        (p : nat) (t : string) (a : list (string * string))
        (pre post : list node) (c : node)
        (Hdom : dom w = Element p t a (pre ++ c :: post))
        (Hdistinct : NoDup (ids (dom w))) :
  DeltaDOM.update callback (Some c) None w
  = (Ok [remove "" c],
     mkWorld (Element p t a (pre ++ post)) (next w) (console w)) /\
  DeltaDOM.update callback (Some (dom w)) None w
  = (Ok [remove "" (dom w)], mkWorld (dom w) (next w) (console w)).
Proof.
  rewrite Hdom in Hdistinct. cbn [ids] in Hdistinct.
  apply NoDup_cons_iff in Hdistinct as [Hp Hcs].
  rewrite flat_map_app in Hp, Hcs. cbn [flat_map] in Hp, Hcs.
  assert (Hpc : p <> nid c).
  { intros E. apply Hp, in_or_app. right. apply in_or_app. left.
    rewrite E. apply nid_in_ids. }
  assert (Hpre : ~ In (nid c) (flat_map ids pre)).
  { intros H. apply (NoDup_app_disjoint _ _ (nid c) Hcs H).
    apply in_or_app. left. apply nid_in_ids. }
  assert (Hpost : ~ In (nid c) (flat_map ids post)).
  { intros H. apply NoDup_app_remove_l in Hcs.
    apply (NoDup_app_disjoint _ _ (nid c) Hcs); [apply nid_in_ids|exact H]. }
  assert (Hfind : findNode (nid c) (dom w) = Some c)
    by (rewrite Hdom; apply findNode_child; auto).
  split.
  - unfold DeltaDOM.update, DeltaDOM.diff, DeltaDOM.patch.
    unfold bind at 1. unfold bind at 1. unfold get at 1.
    cbn [option_map]. unfold resolve. rewrite Hfind.
    unfold DeltaDOM.runDiffer, compareElements.
    cbn [depth height compareElements_fuel compareElements_body ret].
    unfold bind at 1. rewrite applyChanges_single.
    cbn [applyChange]. unfold bind at 1, get at 1. cbn [dom].
    rewrite Hdom. cbn [parentOf].
    rewrite existsb_app. cbn [existsb]. rewrite Nat.eqb_refl, orb_true_r.
    unfold modifyDom, modify. cbn [dom next console].
    rewrite detach_child by auto. reflexivity.
  - unfold DeltaDOM.update, DeltaDOM.diff, DeltaDOM.patch.
    unfold bind at 1. unfold bind at 1. unfold get at 1.
    cbn [option_map]. unfold resolve.
    rewrite (findNode_hit (nid (dom w)) (dom w) eq_refl).
    unfold DeltaDOM.runDiffer, compareElements.
    cbn [depth height compareElements_fuel compareElements_body ret].
    unfold bind at 1. rewrite applyChanges_single.
    cbn [applyChange]. unfold bind at 1, get at 1. cbn [dom].
    rewrite Hdom. cbn [nid].
    rewrite parentOf_root; [reflexivity|].
    rewrite flat_map_app. exact Hp.
Qed.

Lemma update_removes_child_witness :
  DeltaDOM.update None (Some (Text 3 "!")) None (mkWorld note 100 [])
  = (Ok [remove "" (Text 3 "!")],
     mkWorld (Element 1 "P" [] [Text 2 "draft"]) 100 []) /\
  DeltaDOM.update None (Some note) None (mkWorld note 100 [])
  = (Ok [remove "" note], mkWorld note 100 []).
Proof.
  apply (update_removes_child None (mkWorld note 100 []) 1 "P" []
           [Text 2 "draft"] [] (Text 3 "!")).
  - reflexivity.
  - simpl. repeat constructor; simpl; intuition lia.
Defined.
